(** * Decode-time engine of the summarisation model: decoder state,
      input-feeding decoder and the beam-search driver.

    Shallow embedding of
    - [onmt/Models.py]: [DecoderState], [RNNDecoderState],
      [RNNDecoderBase], [StdRNNDecoder], [InputFeedRNNDecoder];
    - [onmt/translate/Translator.py]: the decoding loop of
      [Translator.translate_batch] and [Translator._report_score]. *)

From Stdlib Require Import List ZArith Lia Bool Arith PeanoNat.
Import ListNotations.

Set Implicit Arguments.

(** ** Python exceptions and results *)

Inductive exn : Type :=
| AssertionError
| AttributeError
| IndexError
| ValueError
| RuntimeError
| ZeroDivisionError
| OverflowError.

Inductive result (X : Type) : Type :=
| Ok (x : X)
| Raise (e : exn).

Arguments Ok {X} x.
Arguments Raise {X} e.

Definition rbind {X Y : Type} (r : result X) (k : X -> result Y) : result Y :=
  match r with
  | Ok x => k x
  | Raise e => Raise e
  end.

Declare Scope result_scope.
Delimit Scope result_scope with res.
Notation "x <~ c ;; k" := (rbind c (fun x => k))
  (at level 61, c at next level, right associativity) : result_scope.

(** [for x in xs: ...] over a fallible body that builds a list. *)
Fixpoint rmap {X Y : Type} (f : X -> result Y) (xs : list X) : result (list Y) :=
  match xs with
  | [] => Ok []
  | x :: xs' =>
      (y <~ f x ;; ys <~ rmap f xs' ;; Ok (y :: ys))%res
  end.

(** ** Tensors

    A tensor is its [size()] together with its entries read by index.
    The entries are kept abstract (they are floats in the program,
    token ids for the target tensor). *)

Section Tensors.

Variable R : Type.

Record tensor : Type := Tensor {
  size : list nat;
  get : list nat -> R
}.

Definition numel (sizes : list nat) : nat := fold_right Nat.mul 1 sizes.

(** [t.unsqueeze(0)] *)
Definition unsqueeze0 (t : tensor) : tensor :=
  {| size := 1 :: size t; get := fun ix => get t (tl ix) |}.

(** [t.squeeze(0)]: drops dimension 0 when it has size 1, otherwise
    returns the tensor as it is. *)
Definition squeeze0 (t : tensor) : tensor :=
  match size t with
  | 1 :: s => {| size := s; get := fun ix => get t (0 :: ix) |}
  | _ => t
  end.

(** [t.new(sizes...).zero_()]: a fresh tensor of the given sizes filled
    with the zero entry. *)
Definition zeros (zero : R) (sizes : list nat) : tensor :=
  {| size := sizes; get := fun _ => zero |}.

(** [t.repeat(1, n, 1)]: tiles dimension 1 [n] times.  A tensor of
    rank below 3 is first given leading dimensions of size 1; a tensor
    of higher rank is refused by torch. *)
Definition repeat_1_n_1 (n : nat) (t : tensor) : result tensor :=
  match size t with
  | [] =>
      Ok {| size := [1; n; 1]; get := fun _ => get t [] |}
  | [c] =>
      Ok {| size := [1; n; c]; get := fun ix => get t [nth 2 ix 0] |}
  | [b; c] =>
      Ok {| size := [1; b * n; c];
            get := fun ix => get t [nth 1 ix 0 mod b; nth 2 ix 0] |}
  | [a; b; c] =>
      Ok {| size := [a; b * n; c];
            get := fun ix => get t [nth 0 ix 0; nth 1 ix 0 mod b; nth 2 ix 0] |}
  | _ => Raise RuntimeError
  end.

(** [torch.cat([h[0:h.size(0):2], h[1:h.size(0):2]], 2)]: the even and
    the odd slices along dimension 0 are laid side by side along
    dimension 2, whatever dimensions follow.  With an odd [h.size(0)] the
    two slices differ in dimension 0 and [torch.cat] fails; a tensor of
    rank below 3 has no dimension 2. *)
Definition cat_even_odd (h : tensor) : result tensor :=
  match size h with
  | n :: b :: d :: rest =>
      if Nat.even n then
        Ok {| size := n / 2 :: b :: d + d :: rest;
              get := fun ix =>
                let l := nth 0 ix 0 in
                let j := nth 1 ix 0 in
                let k := nth 2 ix 0 in
                if k <? d then get h (2 * l :: j :: k :: skipn 3 ix)
                else get h (2 * l + 1 :: j :: k - d :: skipn 3 ix) |}
      else Raise RuntimeError
  | _ => Raise IndexError
  end.

(** *** [DecoderState] / [RNNDecoderState] *)

(** The encoder's final state: a single tensor (GRU) or a tuple of
    tensors (LSTM). *)
Inductive rnnstate : Type :=
| Single (h : tensor)
| Tuple (hs : list tensor).

Record RNNDecoderState : Type := mkState {
  hidden : list tensor;
  input_feed : tensor;
  coverage : option tensor
}.

(** [if not isinstance(rnnstate, tuple): (rnnstate,) else: rnnstate] *)
Definition as_tuple (rs : rnnstate) : list tensor :=
  match rs with
  | Single h => [h]
  | Tuple hs => hs
  end.

Variable zero : R.

(** [RNNDecoderState.__init__] *)
Definition RNNDecoderState_init (hidden_size : nat) (rs : rnnstate)
  : result RNNDecoderState :=
  let hidden := as_tuple rs in
  match hidden with
  | [] => Raise IndexError
  | h0 :: _ =>
      match size h0 with
      | _ :: batch_size :: _ =>
          let h_size := [batch_size; hidden_size] in
          Ok {| hidden := hidden;
                coverage := None;
                input_feed := unsqueeze0 (zeros zero h_size) |}
      | _ => Raise IndexError
      end
  end.

(** The property [_all]. *)
Definition _all (st : RNNDecoderState) : list tensor :=
  hidden st ++ [input_feed st].

(** [RNNDecoderState.update_state] *)
Definition update_state (rs : rnnstate) (input_feed' : tensor)
           (coverage' : option tensor) (st : RNNDecoderState)
  : RNNDecoderState :=
  {| hidden := as_tuple rs;
     input_feed := input_feed';
     coverage := coverage' |}.

(** [RNNDecoderState.repeat_beam_size_times] *)
Definition repeat_beam_size_times (beam_size : nat) (st : RNNDecoderState)
  : result RNNDecoderState :=
  (vars <~ rmap (repeat_1_n_1 beam_size) (_all st) ;;
   Ok {| hidden := removelast vars;
         input_feed := last vars (input_feed st);
         coverage := coverage st |})%res.

(** The body of the loop of [DecoderState.beam_update] for one tensor
    [e] of [_all].  With [B = br // beam_size],
    [e.view(sizes[0], beam_size, B, ...)[:, :, idx]] is the view of the
    entries of [e] whose index along dimension 1 is [k * B + idx] for a
    beam slot [k]; [index_select(1, positions)] builds a fresh tensor
    whose slot [k] is the old slot [positions[k]], and [copy_] writes it
    back through the view.  [copy_] is taken between tensors of as many
    elements: its broadcast of a single selected slot to every slot
    ([positions] of length 1) is not modelled and is refused here. *)
Definition beam_update_tensor (idx : nat) (positions : list nat)
           (beam_size : nat) (e : tensor) : result tensor :=
  match size e with
  | s0 :: br :: s2 :: rest =>
      let trailing :=
        match rest with
        | [] => [s2]
        | s3 :: _ => [s2; s3]
        end in
      if beam_size =? 0 then Raise ZeroDivisionError else
      let B := br / beam_size in
      if negb (numel (s0 :: beam_size :: B :: trailing) =? numel (size e))
      then Raise RuntimeError else
      if negb (idx <? B) then Raise IndexError else
      if negb (forallb (fun p => p <? beam_size) positions)
      then Raise RuntimeError else
      if negb (numel (s0 :: beam_size :: trailing)
               =? numel (s0 :: length positions :: trailing))
      then Raise RuntimeError else
      Ok {| size := size e;
            get := fun ix =>
              match ix with
              | l :: j :: tl =>
                  if j mod B =? idx
                  then get e (l :: (nth (j / B) positions 0 * B + idx) :: tl)
                  else get e ix
              | _ => get e ix
              end |}
  | _ => Raise IndexError
  end.

(** [DecoderState.beam_update] *)
Definition beam_update (idx : nat) (positions : list nat) (beam_size : nat)
           (st : RNNDecoderState) : result RNNDecoderState :=
  (hidden' <~ rmap (beam_update_tensor idx positions beam_size) (hidden st) ;;
   input_feed' <~ beam_update_tensor idx positions beam_size (input_feed st) ;;
   Ok {| hidden := hidden';
         input_feed := input_feed';
         coverage := coverage st |})%res.

(** [RNNDecoderBase.init_decoder_state], with [_fix_enc_hidden]. *)
Definition _fix_enc_hidden (bidirectional_encoder : bool) (h : tensor)
  : result tensor :=
  if bidirectional_encoder then cat_even_odd h else Ok h.

Definition init_decoder_state (bidirectional_encoder : bool)
           (hidden_size : nat) (encoder_final : rnnstate)
  : result RNNDecoderState :=
  match encoder_final with
  | Tuple hs =>
      (hs' <~ rmap (_fix_enc_hidden bidirectional_encoder) hs ;;
       RNNDecoderState_init hidden_size (Tuple hs'))%res
  | Single h =>
      (h' <~ _fix_enc_hidden bidirectional_encoder h ;;
       RNNDecoderState_init hidden_size (Single h'))%res
  end.

(** *** Further torch operations used by the decoders *)

Fixpoint sizes_eqb (a b : list nat) : bool :=
  match a, b with
  | [], [] => true
  | x :: a', y :: b' => (x =? y) && sizes_eqb a' b'
  | _, _ => false
  end.

(** [t.transpose(0, 1)] *)
Definition transpose01 (t : tensor) : result tensor :=
  match size t with
  | a :: b :: rest =>
      Ok {| size := b :: a :: rest;
            get := fun ix =>
              match ix with
              | i :: j :: tl => get t (j :: i :: tl)
              | _ => get t ix
              end |}
  | _ => Raise RuntimeError
  end.

(** [torch.cat([a, b], 1)] *)
Definition cat1 (a b : tensor) : result tensor :=
  match size a, size b with
  | a0 :: a1 :: ra, b0 :: b1 :: rb =>
      if (a0 =? b0) && sizes_eqb ra rb then
        Ok {| size := a0 :: (a1 + b1) :: ra;
              get := fun ix =>
                match ix with
                | i :: j :: tl =>
                    if j <? a1 then get a ix else get b (i :: (j - a1) :: tl)
                | _ => get a ix
                end |}
      else Raise RuntimeError
  | _, _ => Raise RuntimeError
  end.

(** [t[i]]: the slice of [t] at index [i] of dimension 0. *)
Definition select0 (i : nat) (t : tensor) : tensor :=
  {| size := tl (size t); get := fun ix => get t (i :: ix) |}.

(** [emb.split(1)]: the slices of size 1 along dimension 0, in order. *)
Definition split1 (t : tensor) : list tensor :=
  map (fun i =>
         {| size := 1 :: tl (size t);
            get := fun ix => get t ((i + hd 0 ix) :: tl ix) |})
      (seq 0 (hd 0 (size t))).

(** [torch.stack(ts)] along a new dimension 0. *)
Definition stack (ts : list tensor) : result tensor :=
  match ts with
  | [] => Raise RuntimeError
  | t0 :: _ =>
      if forallb (fun t => sizes_eqb (size t) (size t0)) ts then
        Ok {| size := length ts :: size t0;
              get := fun ix => get (nth (hd 0 ix) ts t0) (tl ix) |}
      else Raise RuntimeError
  end.

(** Row-major offsets, for [view]. *)
Fixpoint ravel (sizes ix : list nat) : nat :=
  match sizes, ix with
  | _ :: sizes', i :: ix' => i * numel sizes' + ravel sizes' ix'
  | _, _ => 0
  end.

Fixpoint unravel (sizes : list nat) (off : nat) : list nat :=
  match sizes with
  | [] => []
  | _ :: sizes' => off / numel sizes' :: unravel sizes' (off mod numel sizes')
  end.

(** [t.view(sizes...)] with explicit sizes. *)
Definition view (sizes : list nat) (t : tensor) : result tensor :=
  if numel sizes =? numel (size t) then
    Ok {| size := sizes;
          get := fun ix => get t (unravel (size t) (ravel sizes ix)) |}
  else Raise RuntimeError.

(** [t.view(-1, k)] *)
Definition view_rows (k : nat) (t : tensor) : result tensor :=
  if k =? 0 then Raise RuntimeError else view [numel (size t) / k; k] t.

(** [t.view(1, -1)] *)
Definition view_row (t : tensor) : result tensor :=
  view [1; numel (size t)] t.

(** [x[-1]] and [torch.stack(x)] where [x] is a Python list of tensors
    (input-feeding decoder) or a tensor iterated along dimension 0
    (standard decoder). *)
Inductive tensors : Type :=
| PyList (ts : list tensor)
| PyTensor (t : tensor).

Definition py_last (x : tensors) : result tensor :=
  match x with
  | PyList ts =>
      match ts with
      | [] => Raise IndexError
      | t0 :: _ => Ok (last ts t0)
      end
  | PyTensor t =>
      match size t with
      | S n :: _ => Ok (select0 n t)
      | _ => Raise IndexError
      end
  end.

Definition py_stack (x : tensors) : result tensor :=
  match x with
  | PyList ts => stack ts
  | PyTensor t =>
      match size t with
      | S _ :: _ => Ok t
      | _ => Raise RuntimeError
      end
  end.

(** The batch dimension of a tensor of the state. *)
Definition batch_dim (e : tensor) : option nat := nth_error (size e) 1.

End Tensors.

Arguments Single {R} h.
Arguments Tuple {R} hs.
Arguments PyList {R} ts.
Arguments PyTensor {R} t.

(** ** Calls into modules with internal state

    The torch modules the decoders call (embeddings, recurrent cells,
    attention, context gate, dropout) are not part of these sources and
    keep state of their own (the attention history reset by
    [init_attn_history], the random generator of dropout).  A call is a
    function of that state [W] which returns a value or raises, and the
    state left behind. *)

Definition M (W X : Type) : Type := W -> result X * W.

Definition ret {W X : Type} (x : X) : M W X := fun w => (Ok x, w).

Definition raise {W X : Type} (e : exn) : M W X := fun w => (Raise e, w).

Definition lift {W X : Type} (r : result X) : M W X := fun w => (r, w).

Definition bind {W X Y : Type} (c : M W X) (k : X -> M W Y) : M W Y :=
  fun w =>
    match c w with
    | (Ok x, w') => k x w'
    | (Raise e, w') => (Raise e, w')
    end.

Declare Scope monad_scope.
Delimit Scope monad_scope with M.
Notation "x <- c ;; k" := (bind c (fun x => k))
  (at level 61, c at next level, right associativity) : monad_scope.
Notation "' pat <- c ;; k" := (bind c (fun x => match x with pat => k end))
  (at level 61, pat pattern, c at next level, right associativity) : monad_scope.

(** [for x in xs: s = f(x, s)] *)
Fixpoint foldM {W X S : Type} (f : X -> S -> M W S) (xs : list X) (s : S)
  : M W S :=
  match xs with
  | [] => ret s
  | x :: xs' => (s' <- f x s ;; foldM f xs' s')%M
  end.

(** Modelled from the spec: [onmt.Utils.aeq], imported by [Models.py] and
    absent from the sources; it asserts that its arguments are equal, a
    mismatch being fatal for the call. *)
Definition aeq (a b : nat) : result unit :=
  if a =? b then Ok tt else Raise AssertionError.

(** [assert c] *)
Definition assert (c : bool) : result unit :=
  if c then Ok tt else Raise AssertionError.

(** ** The recurrent decoders of [Models.py] *)

Inductive rnn_type : Type := RNN | LSTM | GRU | SRU.

Inductive decoder_class : Type := StdRNNDecoder | InputFeedRNNDecoder.

Inductive model_type : Type := text | hierarchical_text.

(** The dictionary [attns], with the keys the decoders use. *)
Record attns (T : Type) : Type := mkAttns {
  attn_std : T;
  attn_copy : option T;
  attn_coverage : option T
}.

Section Decoders.

Variables R W : Type.

Definition rnn_fn : Type :=
  tensor R -> rnnstate R -> M W (tensor R * rnnstate R).

(** [attn(input, memory_bank, memory_lengths, idf_weights)], returning
    the attended output and the alignment distribution. *)
Definition attn_fn : Type :=
  tensor R -> tensor R -> option (tensor Z) -> option (tensor R) ->
  M W (tensor R * tensor R).

Definition gate_fn : Type :=
  tensor R -> tensor R -> tensor R -> M W (tensor R).

Record Embeddings : Type := {
  embedding_size : nat;
  emb_call : tensor Z -> M W (tensor R)
}.

(** The attributes of a decoder object set by [RNNDecoderBase.__init__]. *)
Record RNNDecoderBase : Type := {
  class_of : decoder_class;
  bidirectional_encoder : bool;
  num_layers : nat;
  hidden_size : nat;
  embeddings : Embeddings;
  dropout : tensor R -> M W (tensor R);
  rnn : rnn_fn;
  rnn_is_GRU : bool;
  context_gate : option gate_fn;
  _coverage : bool;
  attn : attn_fn;
  copy_attn : option attn_fn;
  _copy : bool;
  _reuse_copy_attn : bool
}.

(** The constructors of [torch.nn] and [onmt.modules] that [__init__]
    calls. *)
Variables attn_type gate_type : Type.

Record modules : Type := {
  nn_rnn : rnn_type -> nat -> nat -> nat -> R -> rnn_fn;
  modules_SRU : nat -> nat -> nat -> R -> rnn_fn;
  StackedLSTM : nat -> nat -> nat -> R -> rnn_fn;
  StackedGRU : nat -> nat -> nat -> R -> rnn_fn;
  context_gate_factory : gate_type -> nat -> nat -> nat -> nat -> gate_fn;
  GlobalAttention : nat -> bool -> attn_type -> attn_fn;
  HierarchicalAttention : nat -> bool -> attn_type -> attn_fn;
  nn_Dropout : R -> tensor R -> M W (tensor R)
}.

Record decoder_args : Type := {
  arg_rnn_type : rnn_type;
  arg_bidirectional_encoder : bool;
  arg_num_layers : nat;
  arg_hidden_size : nat;
  arg_attn_type : attn_type;
  arg_coverage_attn : bool;
  arg_context_gate : option gate_type;
  arg_copy_attn : bool;
  arg_dropout : R;
  arg_embeddings : Embeddings;
  arg_reuse_copy_attn : bool;
  arg_model_type : option model_type
}.

(** [rnn_factory] *)
Definition rnn_factory (lib : modules) (t : rnn_type)
           (input_size hidden_size num_layers : nat) (dropout : R)
  : rnn_fn * bool :=
  match t with
  | SRU => (modules_SRU lib input_size hidden_size num_layers dropout, true)
  | _ => (nn_rnn lib t input_size hidden_size num_layers dropout, false)
  end.

(** The property [_input_size] of the two classes. *)
Definition _input_size (cls : decoder_class) (emb : Embeddings)
           (hidden_size : nat) : nat :=
  match cls with
  | StdRNNDecoder => embedding_size emb
  | InputFeedRNNDecoder => embedding_size emb + hidden_size
  end.

(** [_build_rnn] of the two classes. *)
Definition _build_rnn (cls : decoder_class) (lib : modules) (t : rnn_type)
           (input_size hidden_size num_layers : nat) (dropout : R)
  : result rnn_fn :=
  match cls with
  | StdRNNDecoder =>
      Ok (fst (rnn_factory lib t input_size hidden_size num_layers dropout))
  | InputFeedRNNDecoder =>
      match t with
      | SRU => Raise AssertionError
      | LSTM => Ok (StackedLSTM lib num_layers input_size hidden_size dropout)
      | _ => Ok (StackedGRU lib num_layers input_size hidden_size dropout)
      end
  end.

(** [RNNDecoderBase.__init__], inherited by both classes. *)
Definition RNNDecoderBase_init (cls : decoder_class) (lib : modules)
           (a : decoder_args) : result RNNDecoderBase :=
  let hs := arg_hidden_size a in
  let input_size := _input_size cls (arg_embeddings a) hs in
  (rnn' <~ _build_rnn cls lib (arg_rnn_type a) input_size hs
                      (arg_num_layers a) (arg_dropout a) ;;
   Ok {| class_of := cls;
         bidirectional_encoder := arg_bidirectional_encoder a;
         num_layers := arg_num_layers a;
         hidden_size := hs;
         embeddings := arg_embeddings a;
         dropout := nn_Dropout lib (arg_dropout a);
         rnn := rnn';
         rnn_is_GRU := match arg_rnn_type a with GRU => true | _ => false end;
         context_gate :=
           match arg_context_gate a with
           | Some g => Some (context_gate_factory lib g input_size hs hs hs)
           | None => None
           end;
         _coverage := arg_coverage_attn a;
         attn :=
           match arg_model_type a with
           | Some hierarchical_text =>
               HierarchicalAttention lib hs (arg_coverage_attn a)
                                     (arg_attn_type a)
           | _ =>
               GlobalAttention lib hs (arg_coverage_attn a) (arg_attn_type a)
           end;
         copy_attn :=
           if arg_copy_attn a && negb (arg_reuse_copy_attn a)
           then Some (GlobalAttention lib hs false (arg_attn_type a))
           else None;
         _copy := if arg_copy_attn a then true else false;
         _reuse_copy_attn := arg_reuse_copy_attn a |})%res.

End Decoders.

Arguments mkAttns {T} attn_std attn_copy attn_coverage.

Section ForwardPass.

Variables R W : Type.

(** The tensor addition of torch, [a + b]. *)
Variable tensor_add : tensor R -> tensor R -> result (tensor R).

(** The local variables of the loop of
    [InputFeedRNNDecoder._run_forward_pass]. *)
Record pass_state : Type := mkPass {
  ps_input_feed : tensor R;
  ps_hidden : rnnstate R;
  ps_coverage : option (tensor R);
  ps_decoder_outputs : list (tensor R);
  ps_attns : attns (list (tensor R))
}.

(** One iteration of [for i, emb_t in enumerate(emb.split(1))]. *)
Definition input_feed_step (d : RNNDecoderBase R W) (memory_bank : tensor R)
           (memory_lengths : option (tensor Z))
           (idf_weights : option (tensor R))
           (emb_t : tensor R) (s : pass_state) : M W pass_state :=
  (let emb_t := squeeze0 emb_t in
   decoder_input <- lift (cat1 emb_t (ps_input_feed s)) ;;
   ' (rnn_output, hidden) <- rnn d decoder_input (ps_hidden s) ;;
   memory_bank_t <- lift (transpose01 memory_bank) ;;
   ' (decoder_output, p_attn) <-
       attn d rnn_output memory_bank_t memory_lengths idf_weights ;;
   decoder_output <-
     match context_gate d with
     | Some gate => gate decoder_input rnn_output decoder_output
     | None => ret decoder_output
     end ;;
   decoder_output <- dropout d decoder_output ;;
   let input_feed := decoder_output in
   let decoder_outputs := ps_decoder_outputs s ++ [decoder_output] in
   let std := attn_std (ps_attns s) ++ [p_attn] in
   coverage <-
     (if _coverage d then
        match ps_coverage s with
        | Some coverage =>
            c <- lift (tensor_add coverage p_attn) ;; ret (Some c)
        | None => ret (Some p_attn)
        end
      else ret (ps_coverage s)) ;;
   let attn_cov :=
     if _coverage d then
       match attn_coverage (ps_attns s), coverage with
       | Some l, Some c => Some (l ++ [c])
       | l, _ => l
       end
     else attn_coverage (ps_attns s) in
   let attn_cp := if _copy d then Some std else attn_copy (ps_attns s) in
   ret {| ps_input_feed := input_feed;
          ps_hidden := hidden;
          ps_coverage := coverage;
          ps_decoder_outputs := decoder_outputs;
          ps_attns := mkAttns std attn_cp attn_cov |})%M.

Definition wrap_lists (a : attns (list (tensor R))) : attns (tensors R) :=
  mkAttns (PyList (attn_std a))
          (option_map PyList (attn_copy a))
          (option_map PyList (attn_coverage a)).

(** [InputFeedRNNDecoder._run_forward_pass] *)
Definition InputFeed_run_forward_pass (d : RNNDecoderBase R W)
           (tgt : tensor Z) (memory_bank : tensor R)
           (state : RNNDecoderState R)
           (memory_lengths : option (tensor Z))
           (idf_weights : option (tensor R))
  : M W (rnnstate R * tensors R * attns (tensors R)) :=
  let input_feed := squeeze0 (input_feed state) in
  match size input_feed with
  | [input_feed_batch; _] =>
      match size tgt with
      | [tgt_len; tgt_batch; _] =>
          (_ <- lift (aeq tgt_batch input_feed_batch) ;;
           let attns0 :=
             mkAttns [] (if _copy d then Some [] else None)
                     (if _coverage d then Some [] else None) in
           emb <- emb_call (embeddings d) tgt ;;
           _ <- lift (assert (length (size emb) =? 3)) ;;
           let hidden := Tuple (hidden state) in
           let coverage := option_map (@squeeze0 R) (coverage state) in
           s <- foldM (input_feed_step d memory_bank memory_lengths idf_weights)
                      (split1 emb)
                      (mkPass input_feed hidden coverage [] attns0) ;;
           ret (ps_hidden s, PyList (ps_decoder_outputs s),
                wrap_lists (ps_attns s)))%M
      | _ => raise ValueError
      end
  | _ => raise ValueError
  end.

(** The local variables at the start of the input-feeding loop. *)
Definition pass_start (d : RNNDecoderBase R W) (st : RNNDecoderState R)
  : pass_state :=
  mkPass (squeeze0 (input_feed st)) (Tuple (hidden st))
         (option_map (@squeeze0 R) (coverage st)) []
         (mkAttns [] (if _copy d then Some [] else None)
                  (if _coverage d then Some [] else None)).

(** [StdRNNDecoder._run_forward_pass] *)
Definition Std_run_forward_pass (d : RNNDecoderBase R W)
           (tgt : tensor Z) (memory_bank : tensor R)
           (state : RNNDecoderState R)
           (memory_lengths : option (tensor Z))
           (idf_weights : option (tensor R))
  : M W (rnnstate R * tensors R * attns (tensors R)) :=
  (_ <- lift (assert (negb (_copy d))) ;;
   _ <- lift (assert (negb (_coverage d))) ;;
   emb <- emb_call (embeddings d) tgt ;;
   ' (rnn_output, decoder_final) <-
       (if rnn_is_GRU d then
          match hidden state with
          | h0 :: _ => rnn d emb (Single h0)
          | [] => raise IndexError
          end
        else rnn d emb (Tuple (hidden state))) ;;
   match size tgt, size rnn_output with
   | [tgt_len; tgt_batch; _], [output_len; output_batch; _] =>
       _ <- lift (aeq tgt_len output_len) ;;
       _ <- lift (aeq tgt_batch output_batch) ;;
       rnn_output_t <- lift (transpose01 rnn_output) ;;
       memory_bank_t <- lift (transpose01 memory_bank) ;;
       ' (decoder_outputs, p_attn) <-
           attn d rnn_output_t memory_bank_t memory_lengths None ;;
       decoder_outputs <-
         match context_gate d with
         | Some gate =>
             e <- lift (view_rows (nth 2 (size emb) 0) emb) ;;
             r <- lift (view_rows (nth 2 (size rnn_output) 0) rnn_output) ;;
             o <- lift (view_rows (nth 2 (size decoder_outputs) 0)
                                  decoder_outputs) ;;
             g <- gate e r o ;;
             lift (view [tgt_len; tgt_batch; hidden_size d] g)
         | None => ret decoder_outputs
         end ;;
       decoder_outputs <- dropout d decoder_outputs ;;
       ret (decoder_final, PyTensor decoder_outputs,
            mkAttns (PyTensor p_attn) None None)
   | _, _ => raise ValueError
   end)%M.

(** The method [_run_forward_pass], dispatched on the class of [self]. *)
Definition _run_forward_pass (d : RNNDecoderBase R W) :=
  match class_of d with
  | StdRNNDecoder => Std_run_forward_pass d
  | InputFeedRNNDecoder => InputFeed_run_forward_pass d
  end.

(** [for k in attns: attns[k] = torch.stack(attns[k])] *)
Definition stack_attns (a : attns (tensors R)) : result (attns (tensor R)) :=
  (s <~ py_stack (attn_std a) ;;
   c <~ match attn_copy a with
        | Some x => (y <~ py_stack x ;; Ok (Some y))
        | None => Ok None
        end ;;
   v <~ match attn_coverage a with
        | Some x => (y <~ py_stack x ;; Ok (Some y))
        | None => Ok None
        end ;;
   Ok (mkAttns s c v))%res.

(** [RNNDecoderBase.forward] *)
Definition forward (d : RNNDecoderBase R W)
           (tgt : tensor Z) (memory_bank : tensor R)
           (state : RNNDecoderState R)
           (memory_lengths : option (tensor Z))
           (idf_weights : option (tensor R))
  : M W (tensor R * RNNDecoderState R * attns (tensor R)) :=
  match size tgt, size memory_bank with
  | [tgt_len; tgt_batch; _], [_; memory_batch; _] =>
      (_ <- lift (aeq tgt_batch memory_batch) ;;
       ' (decoder_final, decoder_outputs, attns) <-
           _run_forward_pass d tgt memory_bank state memory_lengths
                             idf_weights ;;
       final_output <- lift (py_last decoder_outputs) ;;
       coverage <-
         match attn_coverage attns with
         | Some c => l <- lift (py_last c) ;; ret (Some (unsqueeze0 l))
         | None => ret None
         end ;;
       let state :=
         update_state decoder_final (unsqueeze0 final_output) coverage state in
       decoder_outputs <- lift (py_stack decoder_outputs) ;;
       attns <- lift (stack_attns attns) ;;
       ret (decoder_outputs, state, attns))%M
  | _, _ => raise ValueError
  end.

End ForwardPass.

(** ** The mean encoder and the model of [Models.py] *)

Section Models.

Variables R W : Type.
Variable zero : R.
Variable tensor_add : tensor R -> tensor R -> result (tensor R).

(** [EncoderBase._check_args] *)
Definition _check_args (input : tensor Z) (lengths : option (tensor Z))
  : result unit :=
  match size input with
  | [s_len; n_batch; n_feats] =>
      match lengths with
      | Some l =>
          match size l with
          | [n_batch_] => aeq n_batch n_batch_
          | _ => Raise ValueError
          end
      | None => Ok tt
      end
  | _ => Raise ValueError
  end.

(** The mean of a list of entries, as [torch.mean] computes it. *)
Variable mean_of : list R -> R.

(** [t.mean(0)] *)
Definition mean0 (t : tensor R) : tensor R :=
  {| size := tl (size t);
     get := fun ix =>
       mean_of (map (fun i => get t (i :: ix)) (seq 0 (hd 0 (size t)))) |}.

(** [t.expand(n, *t.size())]: a new leading dimension of size [n] over
    the same entries. *)
Definition expand_layers (n : nat) (t : tensor R) : tensor R :=
  {| size := n :: size t; get := fun ix => get t (tl ix) |}.

(** The attributes of a [MeanEncoder]. *)
Record MeanEncoder : Type := {
  enc_num_layers : nat;
  enc_embeddings : Embeddings R W
}.

(** [MeanEncoder.forward] *)
Definition MeanEncoder_forward (self : MeanEncoder) (src : tensor Z)
           (lengths : option (tensor Z)) : M W (rnnstate R * tensor R) :=
  (_ <- lift (_check_args src lengths) ;;
   emb <- emb_call (enc_embeddings self) src ;;
   match size emb with
   | [s_len; batch; emb_dim] =>
       let mean := expand_layers (enc_num_layers self) (mean0 emb) in
       let memory_bank := emb in
       let encoder_final := Tuple [mean; mean] in
       ret (encoder_final, memory_bank)
   | _ => raise ValueError
   end)%M.

(** The methods [init_attn_outputs] and [init_decoder_outputs] of the
    attention module of a decoder, which reset its history. *)
Variables init_attn_outputs init_decoder_outputs : M W unit.

(** [decoder.init_attn_history()]: the input-feeding decoder defines the
    method, the standard decoder does not. *)
Definition init_attn_history (d : RNNDecoderBase R W) : M W unit :=
  match class_of d with
  | StdRNNDecoder => raise AttributeError
  | InputFeedRNNDecoder =>
      (_ <- init_attn_outputs ;; init_decoder_outputs)%M
  end.

(** [tgt[:-1]] *)
Definition drop_last_row (X : Type) (t : tensor X) : result (tensor X) :=
  match size t with
  | n :: rest => Ok {| size := pred n :: rest; get := get t |}
  | [] => Raise IndexError
  end.

(** An encoder, as [NMTModel] calls it. *)
Definition encoder_fn : Type :=
  tensor Z -> option (tensor Z) -> M W (rnnstate R * tensor R).

(** The attributes of an [NMTModel]. *)
Record NMTModel : Type := {
  multigpu : bool;
  model_encoder : encoder_fn;
  model_decoder : RNNDecoderBase R W
}.

(** [NMTModel.forward]; the attentions and the state returned are [None]
    with [multigpu]. *)
Definition NMTModel_forward (self : NMTModel) (src tgt : tensor Z)
           (lengths : option (tensor Z))
           (dec_state : option (RNNDecoderState R))
  : M W (tensor R * option (attns (tensor R)) * option (RNNDecoderState R)) :=
  (tgt <- lift (drop_last_row tgt) ;;
   ' (enc_final, memory_bank) <- model_encoder self src lengths ;;
   enc_state <-
     lift (init_decoder_state zero
             (bidirectional_encoder (model_decoder self))
             (hidden_size (model_decoder self)) enc_final) ;;
   _ <- init_attn_history (model_decoder self) ;;
   ' (decoder_outputs, dec_state, attns) <-
       forward tensor_add (model_decoder self) tgt memory_bank
               (match dec_state with
                | None => enc_state
                | Some dec_state => dec_state
                end)
               lengths None ;;
   if multigpu self then ret (decoder_outputs, None, None)
   else ret (decoder_outputs, Some attns, Some dec_state))%M.

End Models.

(** ** [onmt/translate/Translator.py] *)

Module Translator.

Section Translate.

Variables R W : Type.

(** The class [onmt.translate.Beam] is not part of these sources; its
    methods used by the decoding loop are taken as they are called. *)
Variable Beam : Type.
Variable done : Beam -> bool.
Variable get_current_state : Beam -> tensor Z.
Variable get_current_origin : Beam -> list nat.

(** The word scores of one step, as computed in part (b) of the loop by
    the generator of the model, and the attention dictionary of the
    hierarchical decoder. *)
Variables Scores HierAttns : Type.

(** [b.advance(out[:, j], beam_attn.data[:, j, ...], ...)] for beam [j]. *)
Variable advance : Scores -> nat -> Beam -> result Beam.

(** The attributes of a [Translator] read by the decoding loop;
    [tgt_vocab_len] is [len(self.fields["tgt"].vocab)]. *)
Record Translator : Type := {
  beam_size : nat;
  max_length : Z;
  copy_attn : bool;
  tgt_vocab_len : nat
}.

(** [self.model.decoder] of a text model, with the signature of
    [RNNDecoderBase.forward], and of a hierarchical model. *)
Definition decoder_fn : Type :=
  tensor Z -> tensor R -> RNNDecoderState R ->
  option (tensor Z) -> option (tensor R) ->
  M W (tensor R * RNNDecoderState R * attns (tensor R)).

Definition hier_decoder_fn : Type :=
  tensor Z -> RNNDecoderState R -> M W (tensor R * RNNDecoderState R * HierAttns).

Inductive step_attn : Type :=
| TextAttn (a : attns (tensor R))
| HierAttn (c : HierAttns).

Record Model : Type := {
  decoder : decoder_fn;
  hier_decoder : hier_decoder_fn;
  (** part (b): [generator.forward], [collapse_copy_scores], [unbottle] *)
  word_scores : bool -> tensor R -> step_attn -> M W Scores
}.

(** The values prepared before the loop that the decoder call reads. *)
Record Memory : Type := {
  memory_bank : tensor R;
  memory_lengths : option (tensor Z);
  idf_attn_weights : option (tensor R)
}.

(** The objects the loop mutates. *)
Record loop_state : Type := mkLoop {
  beam : list Beam;
  dec_states : RNNDecoderState R
}.

(** [t.t()] of a 2-D tensor *)
Definition t_ (X : Type) (t : tensor X) : result (tensor X) :=
  match size t with
  | [_; _] => transpose01 t
  | _ => Raise RuntimeError
  end.

(** [t.unsqueeze(2)] *)
Definition unsqueeze2 (X : Type) (t : tensor X) : tensor X :=
  {| size := firstn 2 (size t) ++ 1 :: skipn 2 (size t);
     get := fun ix => get t (firstn 2 ix ++ skipn 3 ix) |}.

(** [inp.masked_fill(inp.gt(bound), v)] *)
Definition masked_fill_gt (bound v : Z) (inp : tensor Z) : tensor Z :=
  {| size := size inp;
     get := fun ix => if (get inp ix >? bound)%Z then v else get inp ix |}.

(** The tokens fed to the decoder at one step: lines 510-523. *)
Definition current_inp (tr : Translator) (beams : list Beam)
  : result (tensor Z) :=
  (stacked <~ stack (map get_current_state beams) ;;
   transposed <~ t_ stacked ;;
   inp <~ view_row transposed ;;
   let inp :=
     if copy_attn tr
     then masked_fill_gt (Z.of_nat (tgt_vocab_len tr) - 1) 0 inp
     else inp in
   Ok (unsqueeze2 inp))%res.

(** Part (c): [for j, b in enumerate(beam)].  Without copy attention the
    call reads [beam_copy_attn.data], and [beam_copy_attn] is [None]
    unless the model is hierarchical. *)
Fixpoint advance_beams (tr : Translator) (mt : model_type) (out : Scores)
         (j : nat) (beams : list Beam) (ds : RNNDecoderState R)
  : result (list Beam * RNNDecoderState R) :=
  match beams with
  | [] => Ok ([], ds)
  | b :: rest =>
      (_ <~ match mt with
            | text => if copy_attn tr then Ok tt else Raise AttributeError
            | hierarchical_text => Ok tt
            end ;;
       b' <~ advance out j b ;;
       ds' <~ beam_update j (get_current_origin b') (beam_size tr) ds ;;
       r <~ advance_beams tr mt out (S j) rest ds' ;;
       Ok (b' :: fst r, snd r))%res
  end.

(** The body of the loop after the test of [done()]. *)
Definition decode_step (tr : Translator) (model : Model) (mt : model_type)
           (mem : Memory) (st : loop_state) : M W loop_state :=
  (inp <- lift (current_inp tr (beam st)) ;;
   r <- match mt with
        | text =>
            ' (dec_out, ds, attn) <-
                decoder model inp (memory_bank mem) (dec_states st)
                        (memory_lengths mem) (idf_attn_weights mem) ;;
            ret (squeeze0 dec_out, ds, TextAttn attn)
        | hierarchical_text =>
            ' (dec_out, ds, attn) <- hier_decoder model inp (dec_states st) ;;
            ret (squeeze0 dec_out, ds, HierAttn attn)
        end ;;
   let '(dec_out, ds, attn) := r in
   out <- word_scores model (copy_attn tr) dec_out attn ;;
   r <- lift (advance_beams tr mt out 0 (beam st) ds) ;;
   ret (mkLoop (fst r) (snd r)))%M.

(** [for i in range(self.max_length)] with its [break]. *)
Fixpoint decode_loop (tr : Translator) (model : Model) (mt : model_type)
         (mem : Memory) (range : list nat) (st : loop_state)
  : M W loop_state :=
  match range with
  | [] => ret st
  | _ :: range' =>
      if forallb done (beam st) then ret st
      else (st' <- decode_step tr model mt mem st ;;
            decode_loop tr model mt mem range' st')%M
  end.

Definition range (n : Z) : list nat := seq 0 (Z.to_nat n).

(** Parts (2) and (3) of [translate_batch]: the decoder state is
    repeated [beam_size] times and the loop runs. *)
Definition decode (tr : Translator) (model : Model) (mt : model_type)
           (mem : Memory) (beams : list Beam) (ds : RNNDecoderState R)
  : M W loop_state :=
  (ds' <- lift (repeat_beam_size_times (beam_size tr) ds) ;;
   decode_loop tr model mt mem (range (max_length tr)) (mkLoop beams ds'))%M.

End Translate.

(** *** [Translator._report_score] and the reports at the end of
    [Translator.translate] *)

Inductive report_name : Type := PRED | GOLD.

Section Report.

(** Python floats, with the operations of the report.  [exp_overflows x]
    tells whether [math.exp(x)] raises [OverflowError]. *)
Variable F : Type.
Variable float_div : F -> Z -> F.
Variable float_neg : F -> F.
Variable exp_overflows : F -> bool.

(** The value of [math.exp(x)] when it does not overflow, kept as the
    expression it is. *)
Inductive exp_value : Type :=
| Exp (x : F).

(** What [print] writes.  [ScoreLine name avg ppl] is the line
    ["%s AVG SCORE: %.4f, %s PPL: %.4f"] for the average [avg] and the
    perplexity [ppl]. *)
Inductive printed : Type :=
| ScoreLine (name : report_name) (avg : F) (ppl : exp_value)
| OverflowOccured
| ScoreTotal (score_total : F)
| WordsTotal (words_total : Z).

(** [x / n] for a float [x] and an integer [n] *)
Definition py_div (x : F) (n : Z) : result F :=
  if (n =? 0)%Z then Raise ZeroDivisionError else Ok (float_div x n).

(** [math.exp(x)] *)
Definition math_exp (x : F) : result exp_value :=
  if exp_overflows x then Raise OverflowError else Ok (Exp x).

(** [try: body except OverflowError: handler] *)
Definition except_OverflowError (X : Type) (body handler : result X)
  : result X :=
  match body with
  | Raise OverflowError => handler
  | r => r
  end.

Definition _report_score (name : report_name) (score_total : F)
           (words_total : Z) : result (list printed) :=
  except_OverflowError
    (avg <~ py_div score_total words_total ;;
     x <~ py_div (float_neg score_total) words_total ;;
     ppl <~ math_exp x ;;
     Ok [ScoreLine name avg ppl])%res
    (Ok [OverflowOccured; ScoreTotal score_total; WordsTotal words_total]).

(** Lines 306-309 of [translate]; [has_tgt] is [tgt_path is not None]. *)
Definition report_scores (report_score has_tgt : bool)
           (pred_score_total : F) (pred_words_total : Z)
           (gold_score_total : F) (gold_words_total : Z)
  : result (list printed) :=
  if report_score then
    (p <~ _report_score PRED pred_score_total pred_words_total ;;
     if has_tgt then
       (g <~ _report_score GOLD gold_score_total gold_words_total ;;
        Ok (p ++ g))
     else Ok p)%res
  else Ok [].

End Report.

(** *** The statistics of [Translator.translate]

    The statements of the loop over the batches that update the totals
    of the final report (lines 200-203 and 243-250); [from_batch] of the
    translation builder gives the translations of a batch. *)

Section Statistics.

Variable F : Type.
(** The integer 0 the score totals start from, and [x + y]. *)
Variable float_zero : F.
Variable float_add : F -> F -> F.
Variable Word : Type.

(** The attributes of a translation read by the statistics. *)
Record Translation : Type := {
  pred_scores : list F;
  pred_sents : list (list Word);
  gold_score : F;
  gold_sent : list Word
}.

Record statistics : Type := mkStats {
  all_scores : list F;
  pred_score_total : F;
  pred_words_total : Z;
  gold_score_total : F;
  gold_words_total : Z
}.

Definition statistics_start : statistics :=
  mkStats [] float_zero 0 float_zero 0.

(** The body of [for trans in translations]; [has_tgt] is
    [tgt_path is not None]. *)
Definition count_translation (has_tgt : bool) (st : statistics)
           (trans : Translation) : result statistics :=
  match pred_scores trans with
  | [] => Raise IndexError
  | score0 :: _ =>
      match pred_sents trans with
      | [] => Raise IndexError
      | sent0 :: _ =>
          Ok {| all_scores := all_scores st ++ [score0];
                pred_score_total := float_add (pred_score_total st) score0;
                pred_words_total :=
                  (pred_words_total st + Z.of_nat (length sent0))%Z;
                gold_score_total :=
                  if has_tgt
                  then float_add (gold_score_total st) (gold_score trans)
                  else gold_score_total st;
                gold_words_total :=
                  if has_tgt
                  then (gold_words_total st
                        + (Z.of_nat (length (gold_sent trans)) + 1))%Z
                  else gold_words_total st |}
      end
  end.

Fixpoint count_translations (has_tgt : bool) (translations : list Translation)
         (st : statistics) : result statistics :=
  match translations with
  | [] => Ok st
  | trans :: rest =>
      (st' <~ count_translation has_tgt st trans ;;
       count_translations has_tgt rest st')%res
  end.

(** [for batch in data_iter], on the translations of each batch. *)
Fixpoint count_batches (has_tgt : bool) (batches : list (list Translation))
         (st : statistics) : result statistics :=
  match batches with
  | [] => Ok st
  | translations :: rest =>
      (st' <~ count_translations has_tgt translations st ;;
       count_batches has_tgt rest st')%res
  end.

(** The reports of [translate] on the totals of the statistics. *)
Definition report_statistics (float_div : F -> Z -> F) (float_neg : F -> F)
           (exp_overflows : F -> bool) (report_score has_tgt : bool)
           (st : statistics) : result (list (printed F)) :=
  report_scores float_div float_neg exp_overflows report_score has_tgt
                (pred_score_total st) (pred_words_total st)
                (gold_score_total st) (gold_words_total st).

End Statistics.

(** *** [Translator._from_beam] *)

Section FromBeam.

(** The class [Beam] is not part of these sources: its methods are taken
    as they are called.  [has_copy_p b] is [len(b.copy_p) != 0], and
    [get_hyp] returns three values or four. *)
Variable Beam : Type.
Variables Hyp Attn Copy ContextAttn Scores : Type.

Inductive hyp_tuple : Type :=
| Hyp3 (hyp : Hyp) (att : Attn) (context_attn_p : ContextAttn)
| Hyp4 (hyp : Hyp) (att : Attn) (copy_p : Copy) (context_attn_p : ContextAttn).

Variable sort_finished : nat -> Beam -> Scores * list (nat * nat).
Variable has_copy_p : Beam -> bool.
Variable get_hyp : Beam -> nat -> nat -> hyp_tuple.

(** The lists [hyps, attn, copy, context_attn] of one beam. *)
Record beam_lists : Type := mkLists {
  hyps : list Hyp;
  attn : list Attn;
  copy : list Copy;
  context_attn : list ContextAttn
}.

(** [for i, (times, k) in enumerate(ks[:n_best])]; unpacking a tuple of
    the wrong length raises [ValueError]. *)
Fixpoint collect_hyps (b : Beam) (ks : list (nat * nat)) (acc : beam_lists)
  : result beam_lists :=
  match ks with
  | [] => Ok acc
  | (times, k) :: rest =>
      (acc' <~ (if has_copy_p b then
                  match get_hyp b times k with
                  | Hyp4 hyp att copy_p context_attn_p =>
                      Ok (mkLists (hyps acc ++ [hyp]) (attn acc ++ [att])
                                  (copy acc ++ [copy_p])
                                  (context_attn acc ++ [context_attn_p]))
                  | Hyp3 _ _ _ => Raise ValueError
                  end
                else
                  match get_hyp b times k with
                  | Hyp3 hyp att context_attn_p =>
                      Ok (mkLists (hyps acc ++ [hyp]) (attn acc ++ [att])
                                  (copy acc)
                                  (context_attn acc ++ [context_attn_p]))
                  | Hyp4 _ _ _ _ => Raise ValueError
                  end) ;;
       collect_hyps b rest acc')%res
  end.

(** The dictionary [ret]; the key ["copy"] can be removed. *)
Record from_beam_ret : Type := mkRet {
  predictions : list (list Hyp);
  scores : list Scores;
  attention : list (list Attn);
  ret_copy : option (list (list Copy));
  context_attention : list (list ContextAttn)
}.

(** [for b in beam]; the second component is the local variable [copy],
    unbound before the first beam. *)
Fixpoint from_beam_loop (n_best : nat) (beam : list Beam)
         (ret : from_beam_ret) (copy_var : option (list Copy))
  : result (from_beam_ret * option (list Copy)) :=
  match beam with
  | [] => Ok (ret, copy_var)
  | b :: rest =>
      let '(scores_b, ks) := sort_finished n_best b in
      (l <~ collect_hyps b (firstn n_best ks) (mkLists [] [] [] []) ;;
       let ret' :=
         {| predictions := predictions ret ++ [hyps l];
            scores := scores ret ++ [scores_b];
            attention := attention ret ++ [attn l];
            context_attention := context_attention ret ++ [context_attn l];
            ret_copy :=
              if negb (length (copy l) =? 0)
              then option_map (fun c => c ++ [copy l]) (ret_copy ret)
              else ret_copy ret |} in
       from_beam_loop n_best rest ret' (Some (copy l)))%res
  end.

(** What a call of [_from_beam] raises: an exception of the decoders, or
    [UnboundLocalError]. *)
Inductive from_beam_error : Type :=
| Exn (e : exn)
| UnboundLocalError.

Definition _from_beam (n_best : nat) (beam : list Beam)
  : from_beam_ret + from_beam_error :=
  match from_beam_loop n_best beam (mkRet [] [] [] (Some []) []) None with
  | Raise e => inr (Exn e)
  | Ok (ret, None) => inr UnboundLocalError
  | Ok (ret, Some copy) =>
      if length copy =? 0
      then inl {| predictions := predictions ret;
                  scores := scores ret;
                  attention := attention ret;
                  context_attention := context_attention ret;
                  ret_copy := None |}
      else inl ret
  end.

End FromBeam.

End Translator.

(** ** Observing the calls

    The state of the modules is arbitrary, so it can carry a log of the
    arguments a module was called with.  The wrappers below add such a
    log to a given decoder or model and change nothing else. *)

Section Observers.

Variables R W L : Type.

(** A call that leaves the log alone. *)
Definition keep_log (X : Type) (c : M W X) : M (W * L) X :=
  fun wl => let '(r, w') := c (fst wl) in (r, (w', snd wl)).

End Observers.

Section ObservedDecoder.

Variables R W : Type.

(** The recurrent cell, logging its input. *)
Definition logging_rnn (f : rnn_fn R W) : rnn_fn R (W * list (tensor R)) :=
  fun x h wl => let '(r, w') := f x h (fst wl) in (r, (w', snd wl ++ [x])).

Definition log_rnn_inputs (d : RNNDecoderBase R W)
  : RNNDecoderBase R (W * list (tensor R)) :=
  {| class_of := class_of d;
     bidirectional_encoder := bidirectional_encoder d;
     num_layers := num_layers d;
     hidden_size := hidden_size d;
     embeddings :=
       {| embedding_size := embedding_size (embeddings d);
          emb_call := fun t => keep_log (emb_call (embeddings d) t) |};
     dropout := fun t => keep_log (dropout d t);
     rnn := logging_rnn (rnn d);
     rnn_is_GRU := rnn_is_GRU d;
     context_gate :=
       option_map (fun g a b c => keep_log (g a b c)) (context_gate d);
     _coverage := _coverage d;
     attn := fun a b c e => keep_log (attn d a b c e);
     copy_attn :=
       option_map (fun f a b c e => keep_log (f a b c e)) (copy_attn d);
     _copy := _copy d;
     _reuse_copy_attn := _reuse_copy_attn d |}.

Variables Scores HierAttns : Type.

(** The decoder of a model, logging the tokens it is fed. *)
Definition log_decoder_inputs (m : Translator.Model R W Scores HierAttns)
  : Translator.Model R (W * list (tensor Z)) Scores HierAttns :=
  {| Translator.decoder := fun inp mb ds ml idf wl =>
       let '(r, w') := Translator.decoder m inp mb ds ml idf (fst wl) in
       (r, (w', snd wl ++ [inp]));
     Translator.hier_decoder := fun inp ds wl =>
       let '(r, w') := Translator.hier_decoder m inp ds (fst wl) in
       (r, (w', snd wl ++ [inp]));
     Translator.word_scores := fun c o a =>
       keep_log (Translator.word_scores m c o a) |}.

End ObservedDecoder.

(** ** Predicates of the statements *)

Section Shapes.

Variable R : Type.

(** [e] has rank 3 and batch dimension [n]. *)
Definition has_batch (n : nat) (e : tensor R) : bool :=
  match size e with
  | [_; b; _] => b =? n
  | _ => false
  end.

(** Every tensor of [_all] has rank 3 and batch dimension [n]. *)
Definition state_batch (n : nat) (st : RNNDecoderState R) : bool :=
  forallb (has_batch n) (_all st).

(** [e'] is [e] with the beam slots of example [idx] gathered according
    to [positions], for [B] examples: slot [k] of example [idx] sits at
    index [k * B + idx] of dimension 1. *)
Definition gathered (B idx : nat) (positions : list nat) (beam_size : nat)
           (e e' : tensor R) : Prop :=
  size e' = size e /\
  (forall l k tl, k < beam_size ->
     get e' (l :: (k * B + idx) :: tl)
     = get e (l :: (nth k positions 0 * B + idx) :: tl)) /\
  (forall l j tl, j mod B <> idx ->
     get e' (l :: j :: tl) = get e (l :: j :: tl)).

End Shapes.

Section Chains.

Variable R : Type.
Variable tensor_add : tensor R -> tensor R -> result (tensor R).

(** [covs] is the running sum of the attentions [ps] started from
    [prev]: [coverage_t = coverage_{t-1} + attention_t], the first one
    being the attention itself when there is no previous coverage. *)
Fixpoint accumulates (prev : option (tensor R)) (ps covs : list (tensor R))
  : Prop :=
  match ps, covs with
  | [], [] => True
  | p :: ps', c :: covs' =>
      match prev with
      | None => c = p
      | Some c0 => tensor_add c0 p = Ok c
      end /\ accumulates (Some c) ps' covs'
  | _, _ => False
  end.

(** [inputs] are the inputs of the recurrent cell over the steps with
    embeddings [embs] and outputs [outs]: the input of a step is its
    embedding concatenated with the input feed, which is [feed] at the
    first step and the output of the previous step afterwards. *)
Fixpoint fed_back (feed : tensor R) (embs inputs outs : list (tensor R))
  : Prop :=
  match embs, inputs, outs with
  | [], [], [] => True
  | e :: embs', x :: inputs', o :: outs' =>
      cat1 (squeeze0 e) feed = Ok x /\ fed_back o embs' inputs' outs'
  | _, _, _ => False
  end.

End Chains.

(** ** Predicates of the further statements *)

Section MoreShapes.

Variable R : Type.

(** [e'] is [e] tiled [n] times along a batch dimension of [B]: slot [k]
    of example [b] is at index [k * B + b] and is a copy of example [b]. *)
Definition tiled (B n : nat) (e e' : tensor R) : Prop :=
  (exists a c, size e = [a; B; c] /\ size e' = [a; B * n; c]) /\
  forall l k b h, b < B -> get e' [l; k * B + b; h] = get e [l; b; h].

(** [e'] is [e] with the beam slots of every example [j] gathered
    according to the [j]-th list of [origins], for [B] examples and
    [beam_size] slots. *)
Definition regathered (B beam_size : nat) (origins : list (list nat))
           (e e' : tensor R) : Prop :=
  size e' = size e /\
  forall j positions l k tl,
    nth_error origins j = Some positions -> k < beam_size ->
    get e' (l :: (k * B + j) :: tl)
    = get e (l :: (nth k positions 0 * B + j) :: tl).

End MoreShapes.

(** A tensor of integers whose entries are their row-major offsets. *)
Definition iota (sizes : list nat) : tensor Z :=
  {| size := sizes; get := fun ix => Z.of_nat (ravel sizes ix) |}.

(** ** A small model to run the definitions on

    Entries are integers, the modules keep no state.  The embedding of a
    token [t] is the vector [(t, t + 1)]; the recurrent cell returns the
    first three columns of its input and leaves the hidden state; the
    attention returns its query and the alignment that is 1 everywhere;
    dropout is the identity. *)

Module Toy.

Definition add (a b : tensor Z) : result (tensor Z) :=
  if sizes_eqb (size a) (size b)
  then Ok {| size := size a; get := fun ix => (get a ix + get b ix)%Z |}
  else Raise RuntimeError.

Definition emb : Embeddings Z unit :=
  {| embedding_size := 2;
     emb_call := fun tgt w =>
       (Ok {| size := [nth 0 (size tgt) 0; nth 1 (size tgt) 0; 2];
              get := fun ix =>
                let token := get tgt [nth 0 ix 0; nth 1 ix 0; 0] in
                let column := Z.of_nat (nth 2 ix 0) in
                (token + column)%Z |}, w) |}.

Definition cell : rnn_fn Z unit :=
  fun x h w => (Ok ({| size := [nth 0 (size x) 0; 3]; get := get x |}, h), w).

Definition attention : attn_fn Z unit :=
  fun q mb _ _ w =>
    (Ok (q, {| size := [nth 0 (size q) 0; nth 1 (size mb) 0];
               get := fun _ => 1%Z |}), w).

Definition lib : modules Z unit unit unit :=
  {| nn_rnn := fun _ _ _ _ _ => cell;
     modules_SRU := fun _ _ _ _ => cell;
     StackedLSTM := fun _ _ _ _ => cell;
     StackedGRU := fun _ _ _ _ => cell;
     context_gate_factory := fun _ _ _ _ _ _ _ o => ret o;
     GlobalAttention := fun _ _ _ => attention;
     HierarchicalAttention := fun _ _ _ => attention;
     nn_Dropout := fun _ o => ret o |}.

Definition args (copy coverage : bool) : decoder_args Z unit unit unit :=
  {| arg_rnn_type := GRU;
     arg_bidirectional_encoder := false;
     arg_num_layers := 1;
     arg_hidden_size := 3;
     arg_attn_type := tt;
     arg_coverage_attn := coverage;
     arg_context_gate := None;
     arg_copy_attn := copy;
     arg_dropout := 0%Z;
     arg_embeddings := emb;
     arg_reuse_copy_attn := true;
     arg_model_type := Some text |}.

(** The decoder [__init__] builds from these arguments. *)
Definition decoder_of (cls : decoder_class) (copy coverage : bool)
  : RNNDecoderBase Z unit :=
  {| class_of := cls;
     bidirectional_encoder := false;
     num_layers := 1;
     hidden_size := 3;
     embeddings := emb;
     dropout := fun o => ret o;
     rnn := cell;
     rnn_is_GRU := true;
     context_gate := None;
     _coverage := coverage;
     attn := attention;
     copy_attn := None;
     _copy := copy;
     _reuse_copy_attn := true |}.

(** A target of 2 steps for a batch of 2, a memory bank of 3 source
    positions, and the decoder state made from a final encoder state. *)
Definition tgt : tensor Z := iota [2; 2; 1].
Definition memory : tensor Z := iota [3; 2; 3].
Definition encoder_final : rnnstate Z := Single (iota [1; 2; 3]).

Definition state0 : RNNDecoderState Z :=
  {| hidden := [iota [1; 2; 3]];
     input_feed := unsqueeze0 (zeros 0%Z [2; 3]);
     coverage := None |}.

(** A state for 2 examples and 3 beam slots. *)
Definition beam_state : RNNDecoderState Z :=
  {| hidden := [iota [1; 6; 2]];
     input_feed := iota [1; 6; 2];
     coverage := None |}.

(** The same state with a coverage of the same entries. *)
Definition covered_beam_state : RNNDecoderState Z :=
  {| hidden := [iota [1; 6; 2]];
     input_feed := iota [1; 6; 2];
     coverage := Some (iota [1; 6; 2]) |}.

(** Beams of width 2 that hold their current tokens and count their
    steps; a beam is done after two steps. *)
Record beam : Type := { tokens : list Z; steps : nat }.

Definition beam_done (b : beam) : bool := 2 <=? steps b.

Definition current_state (b : beam) : tensor Z :=
  {| size := [length (tokens b)];
     get := fun ix => nth (nth 0 ix 0) (tokens b) 0%Z |}.

Definition current_origin (b : beam) : list nat := [1; 0].

Definition beam_advance (_ : unit) (_ : nat) (b : beam) : result beam :=
  Ok {| tokens := tokens b; steps := S (steps b) |}.

Definition translator : Translator.Translator :=
  {| Translator.beam_size := 2;
     Translator.max_length := 5;
     Translator.copy_attn := true;
     Translator.tgt_vocab_len := 10 |}.

Definition model : Translator.Model Z unit unit unit :=
  {| Translator.decoder := forward add (decoder_of InputFeedRNNDecoder true false);
     Translator.hier_decoder := fun _ _ => raise RuntimeError;
     Translator.word_scores := fun _ _ _ => ret tt |}.

Definition mem : Translator.Memory Z :=
  {| Translator.memory_bank := iota [3; 4; 3];
     Translator.memory_lengths := None;
     Translator.idf_attn_weights := None |}.

Definition beams : list beam :=
  [ {| tokens := [3; 12]%Z; steps := 0 |};
    {| tokens := [15; 7]%Z; steps := 0 |} ].

Definition finished_beams : list beam :=
  [ {| tokens := [3; 12]%Z; steps := 2 |};
    {| tokens := [15; 7]%Z; steps := 3 |} ].

(** The decoder state of the loop: 2 examples times 2 slots. *)
Definition loop_dec_state : RNNDecoderState Z :=
  {| hidden := [iota [1; 4; 3]];
     input_feed := unsqueeze0 (zeros 0%Z [4; 3]);
     coverage := None |}.

(** A stand-in for the floats of the score report: integers, with the
    integer quotient, and an exponential that overflows above 709. *)
Definition float_div (x n : Z) : Z := (x / n)%Z.
Definition float_neg (x : Z) : Z := (- x)%Z.
Definition exp_overflows (x : Z) : bool := (709 <? x)%Z.

(** For the standard decoder: a network that returns its input, and an
    attention that returns its query with the time dimension first again
    and the alignment that is 1 everywhere. *)
Definition std_cell : rnn_fn Z unit := fun x h w => (Ok (x, h), w).

Definition std_attention : attn_fn Z unit :=
  fun q mb _ _ w =>
    (Ok ({| size := [nth 1 (size q) 0; nth 0 (size q) 0; nth 2 (size q) 0];
            get := fun ix => get q [nth 1 ix 0; nth 0 ix 0; nth 2 ix 0] |},
         {| size := [nth 1 (size q) 0; nth 0 (size q) 0; nth 1 (size mb) 0];
            get := fun _ => 1%Z |}), w).

Definition std_decoder : RNNDecoderBase Z unit :=
  {| class_of := StdRNNDecoder;
     bidirectional_encoder := false;
     num_layers := 1;
     hidden_size := 2;
     embeddings := emb;
     dropout := fun o => ret o;
     rnn := std_cell;
     rnn_is_GRU := true;
     context_gate := None;
     _coverage := false;
     attn := std_attention;
     copy_attn := None;
     _copy := false;
     _reuse_copy_attn := true |}.

(** The translator without copy attention. *)
Definition translator_without_copy : Translator.Translator :=
  {| Translator.beam_size := 2;
     Translator.max_length := 5;
     Translator.copy_attn := false;
     Translator.tgt_vocab_len := 10 |}.

(** A state that carries a coverage. *)
Definition state_with_coverage : RNNDecoderState Z :=
  {| hidden := [iota [1; 2; 3]];
     input_feed := unsqueeze0 (zeros 0%Z [2; 3]);
     coverage := Some (iota [1; 2; 3]) |}.

(** A mean encoder over the same embeddings, with the integer mean; a
    source of 3 positions and a target of 3 rows for a batch of 2; the
    models made of this encoder and a decoder, whose attention keeps no
    history. *)
Definition mean_of (xs : list Z) : Z :=
  (fold_right Z.add 0 xs / Z.of_nat (length xs))%Z.

Definition mean_encoder : MeanEncoder Z unit :=
  {| enc_num_layers := 1; enc_embeddings := emb |}.

Definition src : tensor Z := iota [3; 2; 1].

Definition src_lengths : tensor Z := {| size := [2]; get := fun _ => 3%Z |}.

Definition target : tensor Z := iota [3; 2; 1].

Definition reset : M unit unit := ret tt.

Definition nmt (d : RNNDecoderBase Z unit) : NMTModel Z unit :=
  {| multigpu := false;
     model_encoder := MeanEncoder_forward mean_of mean_encoder;
     model_decoder := d |}.

(** The translations of one batch of two sentences, with words as
    numbers. *)
Definition translations : list (list (Translator.Translation Z nat)) :=
  [[ {| Translator.pred_scores := [-3]%Z;
        Translator.pred_sents := [[4; 5]];
        Translator.gold_score := (-2)%Z;
        Translator.gold_sent := [4] |};
     {| Translator.pred_scores := [-1]%Z;
        Translator.pred_sents := [[]];
        Translator.gold_score := (-4)%Z;
        Translator.gold_sent := [6; 7] |} ]].

(** Finished beams for [_from_beam]: the list of the finished
    hypotheses [(times, k)] and whether the beam has copy probabilities;
    a hypothesis is given by its numbers. *)
Definition finished_beam : Type := (list (nat * nat) * bool)%type.

Definition sort_finished (_ : nat) (b : finished_beam)
  : nat * list (nat * nat) :=
  (length (fst b), fst b).

Definition has_copy_p (b : finished_beam) : bool := snd b.

Definition get_hyp (b : finished_beam) (times k : nat)
  : Translator.hyp_tuple nat nat nat nat :=
  if snd b then Translator.Hyp4 times k k times
  else Translator.Hyp3 nat times k times.

Definition hyp_beams : list finished_beam :=
  [ ([(1, 0); (2, 1)], true); ([(3, 0)], false) ].

End Toy.

(** * Properties of the decoder state *)

Section DecoderStateFacts.

Variable R : Type.
Variable zero : R.

Lemma rmap_length (X Y : Type) (f : X -> result Y) (xs : list X) (ys : list Y) :
  rmap f xs = Ok ys -> length ys = length xs.
Proof.
  revert ys; induction xs as [|x xs IH]; intros ys H; simpl in H.
  - inversion H; reflexivity.
  - destruct (f x) as [y|e]; simpl in H; [|discriminate].
    destruct (rmap f xs) as [ys'|e]; simpl in H; [|discriminate].
    inversion H; subst; simpl; f_equal; apply IH; reflexivity.
Qed.

Lemma rmap_Forall2 (X Y : Type) (P : X -> Y -> Prop) (f : X -> result Y)
      (xs : list X) :
  (forall x, In x xs -> exists y, f x = Ok y /\ P x y) ->
  exists ys, rmap f xs = Ok ys /\ Forall2 P xs ys.
Proof.
  induction xs as [|x xs IH]; intros H; simpl.
  - exists []; split; [reflexivity|constructor].
  - destruct (H x (or_introl eq_refl)) as (y & Hy & Py).
    destruct IH as (ys & Hys & Pys); [intros; apply H; right; assumption|].
    exists (y :: ys); rewrite Hy, Hys; simpl; split; [reflexivity|].
    constructor; assumption.
Qed.

Lemma rmap_ok_Forall2 (X Y : Type) (P : X -> Y -> Prop) (f : X -> result Y)
      (xs : list X) (ys : list Y) :
  rmap f xs = Ok ys ->
  (forall x y, In x xs -> f x = Ok y -> P x y) ->
  Forall2 P xs ys.
Proof.
  revert ys; induction xs as [|x xs IH]; intros ys H HP; simpl in H.
  - inversion H; constructor.
  - destruct (f x) as [y|e] eqn:Hy; simpl in H; [|discriminate].
    destruct (rmap f xs) as [ys'|e]; simpl in H; [|discriminate].
    inversion H; subst; constructor.
    + apply HP; [left; reflexivity|assumption].
    + apply IH; [reflexivity|intros; apply HP; [right|]; assumption].
Qed.

Lemma has_batch_size (n : nat) (e : tensor R) :
  has_batch n e = true <-> exists a c, size e = [a; n; c].
Proof.
  unfold has_batch; split.
  - destruct (size e) as [|a [|b [|c [|? ?]]]]; try discriminate.
    intros H; apply Nat.eqb_eq in H; subst; eauto.
  - intros (a & c & ->); apply Nat.eqb_refl.
Qed.

Lemma repeat_1_n_1_batch (n B : nat) (e : tensor R) :
  has_batch B e = true ->
  exists e', repeat_1_n_1 n e = Ok e' /\ has_batch (B * n) e' = true.
Proof.
  intros H; apply has_batch_size in H; destruct H as (a & c & H).
  unfold repeat_1_n_1; rewrite H; eexists; split; [reflexivity|].
  unfold has_batch; simpl; apply Nat.eqb_refl.
Qed.

Lemma beam_update_tensor_size (idx : nat) (positions : list nat)
      (beam_size : nat) (e e' : tensor R) :
  beam_update_tensor idx positions beam_size e = Ok e' -> size e' = size e.
Proof.
  unfold beam_update_tensor.
  destruct (size e) as [|s0 [|br [|s2 rest]]] eqn:Hs; try discriminate.
  repeat match goal with
         | |- (if ?c then _ else _) = _ -> _ => destruct c; try discriminate
         end.
  intros H; inversion H; subst; simpl; congruence.
Qed.

Lemma beam_update_tensor_gathers (idx : nat) (positions : list nat)
      (beam_size B : nat) (e : tensor R) :
  0 < beam_size -> idx < B ->
  length positions = beam_size ->
  Forall (fun p => p < beam_size) positions ->
  has_batch (beam_size * B) e = true ->
  exists e', beam_update_tensor idx positions beam_size e = Ok e' /\
             gathered B idx positions beam_size e e'.
Proof.
  intros Hbeam Hidx Hlen Hpos Hb.
  apply has_batch_size in Hb; destruct Hb as (a & c & Hs).
  assert (Hdiv : beam_size * B / beam_size = B)
    by (rewrite Nat.mul_comm; apply Nat.div_mul; lia).
  assert (Hnum : numel [a; beam_size; B; c] = numel [a; beam_size * B; c])
    by (unfold numel; simpl; ring).
  assert (Hall : forallb (fun p => p <? beam_size) positions = true).
  { apply forallb_forall; intros p Hp; apply Nat.ltb_lt.
    rewrite Forall_forall in Hpos; auto. }
  unfold beam_update_tensor; rewrite Hs; cbv zeta.
  rewrite Hdiv, Hnum, Nat.eqb_refl, Hall, Hlen, Nat.eqb_refl.
  destruct (Nat.eqb_spec beam_size 0) as [?|_]; [lia|].
  destruct (Nat.ltb_spec idx B) as [_|?]; [|lia].
  simpl negb; cbv iota.
  eexists; split; [reflexivity|].
  unfold gathered; simpl get; simpl size; repeat split.
  - symmetry; assumption.
  - intros l k tl Hk.
    assert (Hm : (k * B + idx) mod B = idx)
      by (rewrite Nat.add_comm, Nat.Div0.mod_add; apply Nat.mod_small; lia).
    assert (Hq : (k * B + idx) / B = k)
      by (rewrite Nat.div_add_l by lia; rewrite Nat.div_small by lia; lia).
    rewrite Hm, Hq, Nat.eqb_refl; reflexivity.
  - intros l j tl Hj.
    destruct (Nat.eqb_spec (j mod B) idx); [contradiction|reflexivity].
Qed.

(** C3, as amended.  [beam_update(idx, positions, beam_size)] on a state
    whose hidden tensors and input feed have batch dimension
    [beam_size * B], for an example [idx < B] and [beam_size] parent
    slots below [beam_size]: the call returns; every tensor of the state
    keeps its size (and its entries keep their type); in every tensor of
    [_all], that is in the hidden tensors and the input feed, slot [k] of
    example [idx] now holds what slot [positions[k]] of that example held
    before, and the entries of every other example are as they were; the
    coverage is not in [_all] and stays as it is, its slots in place. *)
Theorem beam_update_is_a_gather (st : RNNDecoderState R) (idx : nat)
        (positions : list nat) (beam_size B : nat) :
  0 < beam_size -> idx < B ->
  length positions = beam_size ->
  Forall (fun p => p < beam_size) positions ->
  state_batch (beam_size * B) st = true ->
  exists st',
    beam_update idx positions beam_size st = Ok st' /\
    Forall2 (gathered B idx positions beam_size) (_all st) (_all st') /\
    coverage st' = coverage st.
Proof.
  intros Hbeam Hidx Hlen Hpos Hst.
  unfold state_batch, _all in Hst.
  rewrite forallb_app in Hst; apply andb_prop in Hst; destruct Hst as [Hh Hf].
  simpl in Hf; rewrite andb_true_r in Hf.
  destruct (@rmap_Forall2 _ _ (gathered B idx positions beam_size)
              (beam_update_tensor idx positions beam_size) (hidden st))
    as (hs' & Hhs & Fhs).
  { intros e He; apply beam_update_tensor_gathers; auto.
    rewrite forallb_forall in Hh; auto. }
  destruct (@beam_update_tensor_gathers idx positions beam_size B
              (input_feed st)) as (f' & Hf' & Gf); auto.
  unfold beam_update; rewrite Hhs; simpl; rewrite Hf'; simpl.
  eexists; split; [reflexivity|]; split; [|reflexivity].
  unfold _all; simpl; apply Forall2_app; [assumption|].
  constructor; [assumption|constructor].
Qed.

Lemma cat_even_odd_batch (B : nat) (h h' : tensor R) :
  has_batch B h = true -> cat_even_odd h = Ok h' -> has_batch B h' = true.
Proof.
  intros Hb; apply has_batch_size in Hb; destruct Hb as (a & c & Hs).
  unfold cat_even_odd; rewrite Hs.
  destruct (Nat.even a); [|discriminate].
  intros H; inversion H; subst; unfold has_batch; simpl; apply Nat.eqb_refl.
Qed.

Lemma _fix_enc_hidden_batch (bidir : bool) (B : nat) (h h' : tensor R) :
  has_batch B h = true -> _fix_enc_hidden bidir h = Ok h' ->
  has_batch B h' = true.
Proof.
  unfold _fix_enc_hidden; destruct bidir.
  - apply cat_even_odd_batch.
  - intros Hb H; inversion H; subst; assumption.
Qed.

Lemma rmap_forallb (X : Type) (P : X -> bool) (f : X -> result X)
      (xs ys : list X) :
  (forall x y, P x = true -> f x = Ok y -> P y = true) ->
  forallb P xs = true -> rmap f xs = Ok ys -> forallb P ys = true.
Proof.
  intros HP; revert ys; induction xs as [|x xs IH]; intros ys Hxs H; simpl in *.
  - inversion H; reflexivity.
  - apply andb_prop in Hxs; destruct Hxs as [Hx Hxs].
    destruct (f x) as [y|e] eqn:Hy; simpl in H; [|discriminate].
    destruct (rmap f xs) as [ys'|e]; simpl in H; [|discriminate].
    inversion H; subst; simpl.
    rewrite (HP _ _ Hx Hy), (IH ys' Hxs eq_refl); reflexivity.
Qed.

Lemma RNNDecoderState_init_batch (hidden_size B : nat) (rs : rnnstate R)
      (st : RNNDecoderState R) :
  forallb (has_batch B) (as_tuple rs) = true ->
  RNNDecoderState_init zero hidden_size rs = Ok st ->
  state_batch B st = true.
Proof.
  unfold RNNDecoderState_init, state_batch, _all.
  destruct (as_tuple rs) as [|h0 hs] eqn:Ht; [discriminate|].
  intros Hall; pose proof Hall as Hall'; simpl in Hall'.
  apply andb_prop in Hall'; destruct Hall' as [H0 _].
  apply has_batch_size in H0; destruct H0 as (a & c & Hs); rewrite Hs.
  intros H; inversion H; subst; clear H; cbn [hidden input_feed].
  rewrite forallb_app, Hall; simpl.
  unfold has_batch; simpl; rewrite Nat.eqb_refl; reflexivity.
Qed.

Lemma init_decoder_state_batch (bidir : bool) (hidden_size B : nat)
      (enc : rnnstate R) (st : RNNDecoderState R) :
  forallb (has_batch B) (as_tuple enc) = true ->
  init_decoder_state zero bidir hidden_size enc = Ok st ->
  state_batch B st = true.
Proof.
  unfold init_decoder_state; destruct enc as [h|hs]; simpl as_tuple; intros Hb.
  - destruct (_fix_enc_hidden bidir h) as [h'|e] eqn:Hh; simpl; [|discriminate].
    apply RNNDecoderState_init_batch; simpl in *.
    rewrite andb_true_r in *; eapply _fix_enc_hidden_batch; eassumption.
  - destruct (rmap (_fix_enc_hidden bidir) hs) as [hs'|e] eqn:Hh; simpl;
      [|discriminate].
    apply RNNDecoderState_init_batch; simpl.
    eapply (@rmap_forallb _ _ _ _ _); [|exact Hb|exact Hh].
    intros x y; apply _fix_enc_hidden_batch.
Qed.

Lemma forallb_removelast (X : Type) (P : X -> bool) (xs : list X) :
  forallb P xs = true -> forallb P (removelast xs) = true.
Proof.
  induction xs as [|x [|y xs] IH]; simpl; auto.
  intros H; apply andb_prop in H; destruct H as [Hx H].
  rewrite Hx; simpl; apply IH; assumption.
Qed.

Lemma forallb_last (X : Type) (P : X -> bool) (xs : list X) (d : X) :
  xs <> [] -> forallb P xs = true -> P (last xs d) = true.
Proof.
  induction xs as [|x [|y xs] IH]; simpl; intros Hne H.
  - contradiction.
  - rewrite andb_true_r in H; assumption.
  - apply andb_prop in H; destruct H as [_ H]; apply IH; [discriminate|assumption].
Qed.

Lemma repeat_beam_size_times_batch (B beam_size : nat)
      (st : RNNDecoderState R) :
  state_batch B st = true ->
  exists st', repeat_beam_size_times beam_size st = Ok st' /\
              state_batch (B * beam_size) st' = true.
Proof.
  intros Hst; unfold state_batch in Hst.
  destruct (@rmap_Forall2 _ _
              (fun _ e' => has_batch (B * beam_size) e' = true)
              (repeat_1_n_1 beam_size) (_all st)) as (vars & Hv & Fv).
  { intros e He; apply repeat_1_n_1_batch.
    rewrite forallb_forall in Hst; auto. }
  unfold repeat_beam_size_times; rewrite Hv; simpl.
  eexists; split; [reflexivity|].
  assert (Hall : forallb (has_batch (B * beam_size)) vars = true).
  { clear Hv Hst; induction Fv; simpl; [reflexivity|].
    rewrite H, IHFv; reflexivity. }
  assert (Hne : vars <> []).
  { apply rmap_length in Hv; unfold _all in Hv; rewrite length_app in Hv.
    simpl in Hv; destruct vars; [simpl in Hv; lia|discriminate]. }
  unfold state_batch, _all; simpl; rewrite forallb_app; simpl.
  rewrite (@forallb_removelast _ _ _ Hall), (@forallb_last _ _ _ _ Hne Hall).
  reflexivity.
Qed.

Lemma beam_update_batch (n idx : nat) (positions : list nat) (beam_size : nat)
      (st st' : RNNDecoderState R) :
  state_batch n st = true ->
  beam_update idx positions beam_size st = Ok st' ->
  state_batch n st' = true.
Proof.
  unfold state_batch, _all, beam_update; rewrite forallb_app; simpl.
  intros Hst; apply andb_prop in Hst; destruct Hst as [Hh Hf].
  destruct (rmap _ (hidden st)) as [hs'|e] eqn:Hhs; simpl; [|discriminate].
  destruct (beam_update_tensor _ _ _ (input_feed st)) as [f'|e] eqn:Hf';
    simpl; [|discriminate].
  intros H; inversion H; subst; clear H; simpl.
  assert (Hkeep : forall x y : tensor R, has_batch n x = true ->
            beam_update_tensor idx positions beam_size x = Ok y ->
            has_batch n y = true).
  { intros x y Hx Hy; apply beam_update_tensor_size in Hy.
    unfold has_batch in *; rewrite Hy; assumption. }
  rewrite forallb_app; simpl.
  rewrite (@rmap_forallb _ _ _ _ _ Hkeep Hh Hhs).
  rewrite andb_true_r in Hf; rewrite (Hkeep _ _ Hf Hf'); reflexivity.
Qed.

(** C2.  A decoder state created at decode start from an encoder state
    whose tensors have batch dimension [B] has, after
    [repeat_beam_size_times(beam_size)], batch dimension [B * beam_size]
    in every hidden tensor and in the input feed; [beam_update] (with any
    slot indices) and [update_state] with step outputs of batch dimension
    [n] keep the batch dimension [n] of the state. *)
Theorem batch_dimension_invariant :
  (forall bidir hidden_size (enc : rnnstate R) st B beam_size,
      forallb (has_batch B) (as_tuple enc) = true ->
      init_decoder_state zero bidir hidden_size enc = Ok st ->
      exists st', repeat_beam_size_times beam_size st = Ok st' /\
                  state_batch (B * beam_size) st' = true) /\
  (forall n idx positions beam_size (st st' : RNNDecoderState R),
      state_batch n st = true ->
      beam_update idx positions beam_size st = Ok st' ->
      state_batch n st' = true) /\
  (forall n (rnnstate : rnnstate R) input_feed coverage st,
      forallb (has_batch n) (as_tuple rnnstate) = true ->
      has_batch n input_feed = true ->
      state_batch n (update_state rnnstate input_feed coverage st) = true).
Proof.
  repeat split.
  - intros bidir hs enc st B beam_size Hb Hinit.
    apply repeat_beam_size_times_batch.
    eapply init_decoder_state_batch; eassumption.
  - intros; eapply beam_update_batch; eassumption.
  - intros n rs f c st Hrs Hf.
    unfold state_batch, _all, update_state; simpl.
    rewrite forallb_app, Hrs; simpl; rewrite Hf; reflexivity.
Qed.

End DecoderStateFacts.

(** * Properties of the forward pass *)

Section MonadFacts.

Variable W : Type.

Lemma bind_ok (X Y : Type) (c : M W X) (k : X -> M W Y) (w w' : W) (y : Y) :
  bind c k w = (Ok y, w') ->
  exists x w1, c w = (Ok x, w1) /\ k x w1 = (Ok y, w').
Proof.
  unfold bind; destruct (c w) as [[x|e] w1]; [eauto|discriminate].
Qed.

Lemma bind_raise (X Y : Type) (c : M W X) (k : X -> M W Y) (w w' : W) (e : exn) :
  c w = (Raise e, w') -> bind c k w = (Raise e, w').
Proof. unfold bind; intros ->; reflexivity. Qed.

Lemma bind_step (X Y : Type) (c : M W X) (k : X -> M W Y) (w w' : W) (x : X) :
  c w = (Ok x, w') -> bind c k w = k x w'.
Proof. unfold bind; intros ->; reflexivity. Qed.

Lemma lift_ok (X : Type) (r : result X) (w w' : W) (x : X) :
  lift r w = (Ok x, w') -> r = Ok x /\ w' = w.
Proof. unfold lift; intros H; inversion H; auto. Qed.

Lemma ret_ok (X : Type) (x y : X) (w w' : W) :
  ret x w = (Ok y, w') -> y = x /\ w' = w.
Proof. unfold ret; intros H; inversion H; auto. Qed.

Lemma keep_log_inv (L X : Type) (c : M W X) (w w' : W) (l l' : L)
      (r : result X) :
  keep_log c (w, l) = (r, (w', l')) -> c w = (r, w') /\ l' = l.
Proof.
  unfold keep_log; simpl; destruct (c w) as [r0 w0].
  intros H; inversion H; auto.
Qed.

End MonadFacts.

Tactic Notation "inv_bind" hyp(H) "as" ident(x) ident(w) ident(E) :=
  apply bind_ok in H; destruct H as (x & w & E & H).

Tactic Notation "inv_lift" hyp(H) :=
  apply lift_ok in H; destruct H as (H & ->).

Tactic Notation "inv_ret" hyp(H) :=
  apply ret_ok in H; destruct H as (H & ->).

Section ForwardFacts.

Variables R W : Type.
Variable tensor_add : tensor R -> tensor R -> result (tensor R).

Local Abbreviation step := (input_feed_step tensor_add).

(** What one iteration of the input-feeding loop leaves in the local
    variables. *)
Lemma input_feed_step_ok (d : RNNDecoderBase R W) mb ml idf e s w s' w' :
  step d mb ml idf e s w = (Ok s', w') ->
  exists x rnn_output w1 p,
    cat1 (squeeze0 e) (ps_input_feed s) = Ok x /\
    rnn d x (ps_hidden s) w = (Ok (rnn_output, ps_hidden s'), w1) /\
    ps_decoder_outputs s' = ps_decoder_outputs s ++ [ps_input_feed s'] /\
    attn_std (ps_attns s') = attn_std (ps_attns s) ++ [p] /\
    attn_copy (ps_attns s')
    = (if _copy d then Some (attn_std (ps_attns s'))
       else attn_copy (ps_attns s)) /\
    (if _coverage d then
       exists c,
         ps_coverage s' = Some c /\
         match ps_coverage s with
         | None => c = p
         | Some c0 => tensor_add c0 p = Ok c
         end /\
         attn_coverage (ps_attns s')
         = option_map (fun l => l ++ [c]) (attn_coverage (ps_attns s))
     else
       ps_coverage s' = ps_coverage s /\
       attn_coverage (ps_attns s') = attn_coverage (ps_attns s)).
Proof.
  unfold input_feed_step; intros H.
  inv_bind H as x w0 E0; inv_lift E0.
  inv_bind H as ro w1 E; destruct ro as [rnn_output hidden'].
  inv_bind H as mbt w2 E2; inv_lift E2.
  inv_bind H as op w3 E1; destruct op as [decoder_output p_attn].
  inv_bind H as o1 w4 E3.
  inv_bind H as o2 w5 E4.
  inv_bind H as x3 w6 E5.
  inv_ret H; subst s'; simpl.
  exists x, rnn_output, w1, p_attn.
  repeat (split; [assumption || reflexivity|]).
  destruct (_coverage d).
  - destruct (ps_coverage s) as [c0|].
    + inv_bind E5 as c w7 Ec; inv_lift Ec; inv_ret E5; subst x3.
      exists c; split; [reflexivity|]; split; [assumption|].
      destruct (attn_coverage (ps_attns s)); reflexivity.
    + inv_ret E5; subst x3.
      exists p_attn; split; [reflexivity|]; split; [reflexivity|].
      destruct (attn_coverage (ps_attns s)); reflexivity.
  - inv_ret E5; subst x3; split; reflexivity.
Qed.

(** A call of [forward] on an input-feeding decoder that returns is a
    call of the embeddings followed by the loop over the time steps; the
    new state is built from the local variables the loop leaves. *)
Lemma InputFeed_forward_ok (d : RNNDecoderBase R W) tgt mb st ml idf w
      outs st' a w' :
  class_of d = InputFeedRNNDecoder ->
  forward tensor_add d tgt mb st ml idf w = (Ok (outs, st', a), w') ->
  exists emb w1 s o_last,
    emb_call (embeddings d) tgt w = (Ok emb, w1) /\
    foldM (step d mb ml idf) (split1 emb) (pass_start d st) w1 = (Ok s, w') /\
    py_last (PyList (ps_decoder_outputs s)) = Ok o_last /\
    stack (ps_decoder_outputs s) = Ok outs /\
    stack_attns (wrap_lists (ps_attns s)) = Ok a /\
    input_feed st' = unsqueeze0 o_last /\
    hidden st' = as_tuple (ps_hidden s) /\
    match attn_coverage (ps_attns s) with
    | Some l => exists c, py_last (PyList l) = Ok c /\
                          coverage st' = Some (unsqueeze0 c)
    | None => coverage st' = None
    end.
Proof.
  intros Hcls H; unfold forward in H.
  destruct (size tgt) as [|tl [|tb [|k [|? ?]]]] eqn:Htgt;
    try (unfold raise in H; discriminate).
  destruct (size mb) as [|m0 [|mbb [|m2 [|? ?]]]] eqn:Hmb;
    try (unfold raise in H; discriminate).
  inv_bind H as u w0 E; inv_lift E.
  inv_bind H as r w1 E1; destruct r as [[decoder_final decoder_outputs] attns'].
  unfold _run_forward_pass in E1; rewrite Hcls in E1.
  unfold InputFeed_run_forward_pass in E1; rewrite Htgt in E1.
  destruct (size (squeeze0 (input_feed st))) as [|fb [|fh [|? ?]]] eqn:Hfeed;
    try (unfold raise in E1; discriminate).
  inv_bind E1 as u1 w2 E2; inv_lift E2.
  inv_bind E1 as emb w3 E3.
  inv_bind E1 as u2 w4 E4; inv_lift E4.
  inv_bind E1 as s w5 E5.
  inv_ret E1; inversion E1; subst decoder_final decoder_outputs attns'.
  inv_bind H as o_last w6 E6; inv_lift E6.
  inv_bind H as cov w7 E7.
  inv_bind H as so w8 E8; inv_lift E8.
  inv_bind H as sa w9 E9; inv_lift E9.
  inv_ret H; inversion H; subst.
  simpl in E7.
  destruct (attn_coverage (ps_attns s)) as [l|] eqn:Hcov; simpl in E7.
  - inv_bind E7 as c w10 Ec; inv_lift Ec; inv_ret E7; subst cov.
    exists emb, w3, s, o_last.
    split; [exact E3|]. split; [exact E5|]. split; [exact E6|].
    split; [exact E8|]. split; [exact E9|].
    split; [reflexivity|]. split; [reflexivity|].
    rewrite Hcov; exists c; split; [exact Ec|reflexivity].
  - inv_ret E7; subst cov.
    exists emb, w3, s, o_last.
    split; [exact E3|]. split; [exact E5|]. split; [exact E6|].
    split; [exact E8|]. split; [exact E9|].
    split; [reflexivity|]. split; [reflexivity|].
    rewrite Hcov; reflexivity.
Qed.

Lemma last_cons (X : Type) (x d : X) (l : list X) :
  last (x :: l) d = last l x.
Proof.
  revert x d; induction l as [|y l IH]; intros x d; [reflexivity|].
  change (last (x :: y :: l) d) with (last (y :: l) d).
  rewrite (IH y d), (IH y x); reflexivity.
Qed.

(** The coverage over the loop: the trace is extended by the running
    sums of the attentions of the steps. *)
Lemma coverage_loop (d : RNNDecoderBase R W) mb ml idf embs :
  _coverage d = true ->
  forall s w s' w',
    foldM (step d mb ml idf) embs s w = (Ok s', w') ->
    exists ps covs,
      attn_std (ps_attns s') = attn_std (ps_attns s) ++ ps /\
      attn_coverage (ps_attns s')
      = option_map (fun l => l ++ covs) (attn_coverage (ps_attns s)) /\
      accumulates tensor_add (ps_coverage s) ps covs /\
      length covs = length embs /\
      ps_coverage s' = last (map Some covs) (ps_coverage s).
Proof.
  intros Hcov; induction embs as [|e embs IH]; intros s w s' w' H; simpl in H.
  - inv_ret H; subst s'; exists [], []; simpl; rewrite app_nil_r.
    repeat split; destruct (attn_coverage (ps_attns s)); simpl;
      rewrite ?app_nil_r; reflexivity.
  - inv_bind H as s1 w1 E.
    apply input_feed_step_ok in E.
    destruct E as (x & ro & w2 & p & _ & _ & _ & Hstd & _ & Hc).
    rewrite Hcov in Hc; destruct Hc as (c & Hc1 & Hadd & Hc2).
    destruct (IH _ _ _ _ H) as (ps & covs & Hs & Ha & Hacc & Hlen & Hlast).
    exists (p :: ps), (c :: covs).
    split; [rewrite Hs, Hstd, <- app_assoc; reflexivity|].
    split.
    { rewrite Ha, Hc2; destruct (attn_coverage (ps_attns s)); simpl;
        [rewrite <- app_assoc|]; reflexivity. }
    split; [simpl; split; [exact Hadd|rewrite <- Hc1; exact Hacc]|].
    split; [simpl; rewrite Hlen; reflexivity|].
    rewrite Hlast, Hc1; simpl map; rewrite last_cons; reflexivity.
Qed.

Lemma stack_attns_ok (x : attns (tensors R)) (a : attns (tensor R)) :
  stack_attns x = Ok a ->
  py_stack (attn_std x) = Ok (attn_std a) /\
  match attn_coverage x with
  | Some t => exists trace, py_stack t = Ok trace /\
                            attn_coverage a = Some trace
  | None => attn_coverage a = None
  end.
Proof.
  unfold stack_attns; intros H.
  destruct (py_stack (attn_std x)) as [s0|?]; simpl in H; [|discriminate].
  destruct (attn_copy x) as [c0|]; simpl in H.
  - destruct (py_stack c0); simpl in H; [|discriminate].
    destruct (attn_coverage x) as [v0|]; simpl in H.
    + destruct (py_stack v0); simpl in H; [|discriminate].
      inversion H; subst; simpl; eauto.
    + inversion H; subst; simpl; eauto.
  - destruct (attn_coverage x) as [v0|]; simpl in H.
    + destruct (py_stack v0); simpl in H; [|discriminate].
      inversion H; subst; simpl; eauto.
    + inversion H; subst; simpl; eauto.
Qed.

(** C5.  In a call of [forward] on an input-feeding decoder with coverage
    attention that returns, the coverage trace [attns["coverage"]] is the
    stack of tensors [covs] that satisfy
    [coverage_t = coverage_{t-1} + attention_t] over the attentions of the
    steps, started from the coverage of the incoming state and from the
    first attention itself when that state carries none; the coverage
    written into the decoder state is the last of them. *)
Theorem coverage_trace_accumulates (d : RNNDecoderBase R W) tgt mb st ml idf
        w outs st' a w' :
  class_of d = InputFeedRNNDecoder ->
  _coverage d = true ->
  forward tensor_add d tgt mb st ml idf w = (Ok (outs, st', a), w') ->
  exists ps covs trace c_last,
    stack ps = Ok (attn_std a) /\
    stack covs = Ok trace /\ attn_coverage a = Some trace /\
    accumulates tensor_add (option_map (@squeeze0 R) (coverage st)) ps covs /\
    last (map Some covs) None = Some c_last /\
    coverage st' = Some (unsqueeze0 c_last).
Proof.
  intros Hcls Hcov H.
  apply InputFeed_forward_ok in H; [|exact Hcls].
  destruct H as (emb & w1 & s & o_last & _ & Hloop & _ & _ & Hst & _ & _ & Hc).
  destruct (@coverage_loop d mb ml idf (split1 emb) Hcov _ _ _ _ Hloop)
    as (ps & covs & Hs & Ha & Hacc & _ & _).
  unfold pass_start in Hs, Ha, Hacc; simpl in Hs, Ha, Hacc.
  rewrite Hcov in Ha; simpl in Ha.
  rewrite Ha in Hc; destruct Hc as (c & Hlast & Hc).
  apply stack_attns_ok in Hst; destruct Hst as (Hstd & Htr).
  unfold wrap_lists in Hstd, Htr; simpl in Hstd, Htr.
  rewrite Ha in Htr; simpl in Htr; destruct Htr as (trace & Htr & Hatr).
  rewrite Hs in Hstd.
  exists ps, covs, trace, c.
  repeat (split; [assumption|]).
  split; [|assumption].
  destruct covs as [|c0 covs]; simpl in Hlast; [discriminate|].
  inversion Hlast; subst c.
  change (map Some (c0 :: covs)) with (Some c0 :: map Some covs).
  clear; revert c0; induction covs as [|c1 covs IH]; intros c0; [reflexivity|].
  change (last (Some c0 :: map Some (c1 :: covs)) None)
    with (last (map Some (c1 :: covs)) None).
  change (last (c0 :: c1 :: covs) c0) with (last (c1 :: covs) c0).
  rewrite (last_cons c1 c0 covs), <- (last_cons c1 c1 covs); apply IH.
Qed.

End ForwardFacts.

Section InputFeedFacts.

Variables R W : Type.
Variable tensor_add : tensor R -> tensor R -> result (tensor R).

Local Abbreviation step := (input_feed_step tensor_add).

Lemma logging_rnn_inv (f : rnn_fn R W) x h w log r w' log' :
  logging_rnn f x h (w, log) = (r, (w', log')) ->
  f x h w = (r, w') /\ log' = log ++ [x].
Proof.
  unfold logging_rnn; simpl; destruct (f x h w) as [r0 w0].
  intros H; inversion H; auto.
Qed.

(** One iteration with the logging cell: the cell is called once, on the
    embedding of the step concatenated with the current input feed, and
    the output appended to [decoder_outputs] is the next input feed. *)
Lemma logged_step (d : RNNDecoderBase R W) mb ml idf e s w log s' w' log' :
  step (log_rnn_inputs d) mb ml idf e s (w, log) = (Ok s', (w', log')) ->
  exists x,
    cat1 (squeeze0 e) (ps_input_feed s) = Ok x /\
    log' = log ++ [x] /\
    ps_decoder_outputs s' = ps_decoder_outputs s ++ [ps_input_feed s'].
Proof.
  unfold input_feed_step; intros H.
  inv_bind H as x w0 E0; inv_lift E0.
  inv_bind H as ro w1 E; destruct ro as [rnn_output hidden'].
  destruct w1 as [w1 l1]; apply logging_rnn_inv in E; destruct E as (E & ->).
  inv_bind H as mbt w2 E2; inv_lift E2.
  inv_bind H as op w3 E1; destruct op as [decoder_output p_attn].
  destruct w3 as [w3 l3]; apply keep_log_inv in E1; destruct E1 as (E1 & ->).
  inv_bind H as o1 w4 E3; destruct w4 as [w4 l4].
  assert (l4 = log ++ [x]) as ->.
  { simpl in E3; destruct (context_gate d) as [g|]; simpl in E3.
    - apply keep_log_inv in E3; destruct E3 as (_ & ->); reflexivity.
    - apply ret_ok in E3; destruct E3 as (_ & E3); inversion E3; reflexivity. }
  inv_bind H as o2 w5 E4; destruct w5 as [w5 l5].
  apply keep_log_inv in E4; destruct E4 as (E4 & ->).
  inv_bind H as x3 w6 E5.
  assert (w6 = (w5, log ++ [x])) as ->.
  { simpl in E5; destruct (_coverage d).
    - destruct (ps_coverage s).
      + inv_bind E5 as c w7 Ec; inv_lift Ec; inv_ret E5; reflexivity.
      + inv_ret E5; reflexivity.
    - inv_ret E5; reflexivity. }
  apply ret_ok in H; destruct H as (-> & Hw); inversion Hw; subst; simpl.
  exists x; repeat split; assumption.
Qed.

(** The loop with the logging cell. *)
Lemma fed_back_loop (d : RNNDecoderBase R W) mb ml idf embs :
  forall s w log s' w' log',
    foldM (step (log_rnn_inputs d) mb ml idf) embs s (w, log)
    = (Ok s', (w', log')) ->
    exists inputs outs,
      log' = log ++ inputs /\
      fed_back (ps_input_feed s) embs inputs outs /\
      ps_decoder_outputs s' = ps_decoder_outputs s ++ outs /\
      ps_input_feed s' = last outs (ps_input_feed s).
Proof.
  induction embs as [|e embs IH]; intros s w log s' w' log' H; simpl in H.
  - apply ret_ok in H; destruct H as (-> & H); inversion H; subst.
    exists [], []; simpl; rewrite !app_nil_r; auto.
  - inv_bind H as s1 w1 E; destruct w1 as [w1 l1].
    apply logged_step in E; destruct E as (x & Hx & -> & Ho).
    destruct (IH _ _ _ _ _ _ H) as (inputs & outs & -> & Hfb & Hos & Hlast).
    exists (x :: inputs), (ps_input_feed s1 :: outs).
    split; [rewrite <- app_assoc; reflexivity|].
    split; [simpl; split; assumption|].
    split; [rewrite Hos, Ho, <- app_assoc; reflexivity|].
    rewrite Hlast, last_cons; reflexivity.
Qed.

(** A call of [forward] on an input-feeding decoder with the logging
    cell. *)
Lemma forward_feeds_back (d : RNNDecoderBase R W) tgt mb st ml idf
      w log dec_outs st' a w' log' :
  class_of d = InputFeedRNNDecoder ->
  forward tensor_add (log_rnn_inputs d) tgt mb st ml idf (w, log)
  = (Ok (dec_outs, st', a), (w', log')) ->
  exists emb inputs outs,
    log' = log ++ inputs /\
    fed_back (squeeze0 (input_feed st)) (split1 emb) inputs outs /\
    stack outs = Ok dec_outs /\
    outs <> [] /\
    input_feed st' = unsqueeze0 (last outs (squeeze0 (input_feed st))).
Proof.
  intros Hcls H.
  apply InputFeed_forward_ok in H; [|exact Hcls].
  destruct H as (emb & w1 & s & o_last & He & Hloop & Hlast & Hst & _ & Hf & _).
  destruct w1 as [w1 l1]; simpl in He.
  apply keep_log_inv in He; destruct He as (_ & ->).
  apply fed_back_loop in Hloop.
  destruct Hloop as (inputs & outs & -> & Hfb & Hos & Hfeed).
  simpl in Hos, Hfb; rewrite Hos in Hst, Hlast.
  exists emb, inputs, outs.
  simpl in Hlast; destruct outs as [|o outs]; [discriminate|].
  split; [reflexivity|]. split; [assumption|]. split; [assumption|].
  split; [discriminate|].
  assert (Ho : o_last = last (o :: outs) o) by congruence.
  rewrite Hf, Ho, !last_cons; reflexivity.
Qed.

Lemma fed_back_length (feed : tensor R) (embs inputs outs : list (tensor R)) :
  fed_back feed embs inputs outs ->
  length inputs = length embs /\ length outs = length embs.
Proof.
  revert feed inputs outs; induction embs as [|e embs IH];
    intros feed [|x inputs] [|o outs] H; simpl in H; try contradiction.
  - split; reflexivity.
  - destruct H as (_ & H); destruct (IH _ _ _ H) as (Hi & Ho).
    simpl; rewrite Hi, Ho; split; reflexivity.
Qed.

(** C8.  Run on an input-feeding decoder whose recurrent cell logs its
    inputs, a call of [forward] that returns has called the cell once per
    time step; the input of the cell at a step is the embedding of the
    step concatenated with the input feed of the incoming state at the
    first step and with the output emitted for the previous step at every
    later step ([fed_back]); the outputs returned are the stack of the
    emitted outputs, one per step, and the input feed of the decoder
    state after the pass is the output emitted for the last step. *)
Theorem emitted_output_is_next_input_feed (d : RNNDecoderBase R W)
        tgt mb st ml idf w log dec_outs st' a w' log' :
  class_of d = InputFeedRNNDecoder ->
  forward tensor_add (log_rnn_inputs d) tgt mb st ml idf (w, log)
  = (Ok (dec_outs, st', a), (w', log')) ->
  exists emb inputs outs,
    log' = log ++ inputs /\
    fed_back (squeeze0 (input_feed st)) (split1 emb) inputs outs /\
    length inputs = length (split1 emb) /\
    length outs = length (split1 emb) /\
    stack outs = Ok dec_outs /\
    size dec_outs = length (split1 emb) :: size (hd (input_feed st) outs) /\
    outs <> [] /\
    input_feed st' = unsqueeze0 (last outs (squeeze0 (input_feed st))).
Proof.
  intros Hcls H.
  destruct (forward_feeds_back d _ _ _ _ _ _ _ Hcls H)
    as (emb & inputs & outs & Hlog & Hfb & Hstack & Hne & Hfeed).
  destruct (fed_back_length _ _ _ _ Hfb) as (Hli & Hlo).
  exists emb, inputs, outs.
  split; [exact Hlog|]. split; [exact Hfb|].
  split; [exact Hli|]. split; [exact Hlo|].
  split; [exact Hstack|]. split; [|split; [exact Hne|exact Hfeed]].
  destruct outs as [|o outs]; [contradiction Hne; reflexivity|].
  unfold stack in Hstack.
  destruct (forallb _ (o :: outs)); [|discriminate].
  assert (Hd : dec_outs
               = {| size := length (o :: outs) :: size o;
                    get := fun ix => get (nth (hd 0 ix) (o :: outs) o) (tl ix) |})
    by congruence.
  rewrite Hd, <- Hlo; reflexivity.
Qed.

End InputFeedFacts.

Section ForwardErrors.

Variables R W : Type.
Variable tensor_add : tensor R -> tensor R -> result (tensor R).

Lemma aeq_refl (n : nat) : aeq n n = Ok tt.
Proof. unfold aeq; rewrite Nat.eqb_refl; reflexivity. Qed.

Lemma aeq_neq (a b : nat) : a <> b -> aeq a b = Raise AssertionError.
Proof.
  unfold aeq; intros H; destruct (Nat.eqb_spec a b); [contradiction|reflexivity].
Qed.

(** C7.  A call of [forward] whose target tensor and memory bank differ
    in their batch dimension raises the assertion error of [aeq] and
    leaves the modules as they were (none of them has been called); so
    does a call on an input-feeding decoder whose target tensor and input
    feed differ in their batch dimension.  When the three batch
    dimensions agree the checks pass, [aeq] returns, and the call goes on
    to the embeddings: whatever the embeddings raise is what the call
    raises. *)
Theorem batch_mismatch_aborts (d : RNNDecoderBase R W) tgt mb st ml idf w
        tgt_len tgt_batch k m0 memory_batch m2 :
  size tgt = [tgt_len; tgt_batch; k] ->
  size mb = [m0; memory_batch; m2] ->
  (tgt_batch <> memory_batch ->
   forward tensor_add d tgt mb st ml idf w = (Raise AssertionError, w)) /\
  (forall input_feed_batch h,
      class_of d = InputFeedRNNDecoder ->
      size (squeeze0 (input_feed st)) = [input_feed_batch; h] ->
      (tgt_batch <> input_feed_batch ->
       forward tensor_add d tgt mb st ml idf w = (Raise AssertionError, w)) /\
      (tgt_batch = memory_batch -> tgt_batch = input_feed_batch ->
       aeq tgt_batch memory_batch = Ok tt /\
       aeq tgt_batch input_feed_batch = Ok tt /\
       forall e w1,
         emb_call (embeddings d) tgt w = (Raise e, w1) ->
         forward tensor_add d tgt mb st ml idf w = (Raise e, w1))).
Proof.
  intros Htgt Hmb; split.
  - intros Hne; unfold forward; rewrite Htgt, Hmb.
    rewrite (aeq_neq Hne); reflexivity.
  - intros fb h Hcls Hfeed; split.
    + intros Hne; unfold forward; rewrite Htgt, Hmb.
      destruct (Nat.eq_dec tgt_batch memory_batch) as [->|Hm].
      * rewrite aeq_refl.
        unfold _run_forward_pass; rewrite Hcls.
        unfold InputFeed_run_forward_pass; rewrite Hfeed, Htgt.
        rewrite (aeq_neq Hne); reflexivity.
      * rewrite (aeq_neq Hm); reflexivity.
    + intros <- <-; rewrite aeq_refl; repeat split.
      intros e w1 He; unfold forward; rewrite Htgt, Hmb, aeq_refl.
      unfold _run_forward_pass; rewrite Hcls.
      unfold InputFeed_run_forward_pass; rewrite Hfeed, Htgt, aeq_refl.
      unfold bind at 1; unfold lift at 1.
      unfold bind at 1; unfold bind at 1; unfold lift at 1.
      unfold bind at 1; rewrite He; reflexivity.
Qed.

(** [StdRNNDecoder.__init__] never refuses its arguments: the flags for
    copy and coverage attention are stored as they are given. *)
Lemma Std_init_accepts (attn_type gate_type : Type)
      (lib : modules R W attn_type gate_type)
      (a : decoder_args R W attn_type gate_type) :
  exists d, RNNDecoderBase_init StdRNNDecoder lib a = Ok d /\
            class_of d = StdRNNDecoder /\
            _copy d = arg_copy_attn a /\
            _coverage d = arg_coverage_attn a.
Proof.
  unfold RNNDecoderBase_init; simpl.
  eexists; split; [reflexivity|]; simpl; repeat split.
  destruct (arg_copy_attn a); reflexivity.
Qed.

(** C6, as amended.  A standard (non-input-feeding) decoder is
    constructed whatever its flags for copy and coverage attention; when
    one of them is set, every call of its [_run_forward_pass] fails with
    an assertion error, and every call of [forward] fails, before the
    embeddings, the recurrent cell or the attention are called: the
    state of the modules is as it was and no output is produced. *)
Theorem Std_decoder_rejects_copy_and_coverage_in_forward :
  (forall (attn_type gate_type : Type)
          (lib : modules R W attn_type gate_type)
          (a : decoder_args R W attn_type gate_type),
      exists d, RNNDecoderBase_init StdRNNDecoder lib a = Ok d /\
                class_of d = StdRNNDecoder /\
                _copy d = arg_copy_attn a /\
                _coverage d = arg_coverage_attn a) /\
  (forall (d : RNNDecoderBase R W) tgt mb st ml idf w,
      class_of d = StdRNNDecoder ->
      _copy d || _coverage d = true ->
      _run_forward_pass tensor_add d tgt mb st ml idf w
      = (Raise AssertionError, w) /\
      exists e, forward tensor_add d tgt mb st ml idf w = (Raise e, w)).
Proof.
  split; [intros; apply Std_init_accepts|].
  intros d tgt mb st ml idf w Hcls Hflags.
  assert (Hpass : _run_forward_pass tensor_add d tgt mb st ml idf w
                  = (Raise AssertionError, w)).
  { unfold _run_forward_pass; rewrite Hcls; unfold Std_run_forward_pass.
    destruct (_copy d); [reflexivity|].
    destruct (_coverage d); [reflexivity|discriminate]. }
  split; [exact Hpass|].
  unfold forward.
  destruct (size tgt) as [|tl [|tb [|k [|? ?]]]];
    try (eexists; reflexivity).
  destruct (size mb) as [|m0 [|mbb [|m2 [|? ?]]]];
    try (eexists; reflexivity).
  destruct (Nat.eq_dec tb mbb) as [->|Hne].
  - rewrite aeq_refl; exists AssertionError.
    unfold bind at 1; unfold lift at 1.
    unfold bind at 1; rewrite Hpass; reflexivity.
  - rewrite (aeq_neq Hne); eexists; reflexivity.
Qed.

End ForwardErrors.

Section FreshState.

Variable R : Type.
Variable zero : R.

(** C10.  [RNNDecoderState(hidden_size, rnnstate)] on a final encoder
    state whose first tensor has batch dimension [b]: the hidden state is
    the tuple of the tensors given (a single tensor becomes a tuple of
    one), the coverage is [None], and the input feed has size
    [(1, b, hidden_size)] and is zero everywhere.  Hence the first step
    of an input-feeding decoder run from that state, when [forward]
    returns, gives its recurrent cell the first embedding concatenated
    with a zero matrix of size [(b, hidden_size)]. *)
Theorem fresh_decoder_state (hidden_size : nat) (rs : rnnstate R)
        (h0 : tensor R) (rest : list (tensor R)) (s0 b : nat)
        (srest : list nat) :
  as_tuple rs = h0 :: rest ->
  size h0 = s0 :: b :: srest ->
  exists st,
    RNNDecoderState_init zero hidden_size rs = Ok st /\
    hidden st = h0 :: rest /\
    (forall h, rs = Single h -> hidden st = [h]) /\
    coverage st = None /\
    size (input_feed st) = [1; b; hidden_size] /\
    (forall ix, get (input_feed st) ix = zero) /\
    (forall (W : Type) tensor_add (d : RNNDecoderBase R W)
            tgt mb ml idf w log r w' log',
        class_of d = InputFeedRNNDecoder ->
        forward tensor_add (log_rnn_inputs d) tgt mb st ml idf (w, log)
        = (Ok r, (w', log')) ->
        exists emb e0 embs x inputs,
          split1 emb = e0 :: embs /\
          log' = log ++ x :: inputs /\
          cat1 (squeeze0 e0) (zeros zero [b; hidden_size]) = Ok x).
Proof.
  intros Ht Hs; unfold RNNDecoderState_init; rewrite Ht, Hs.
  eexists; split; [reflexivity|]; simpl.
  split; [reflexivity|].
  split; [intros h ->; simpl in Ht; inversion Ht; reflexivity|].
  split; [reflexivity|]. split; [reflexivity|]. split; [reflexivity|].
  intros W tensor_add d tgt mb ml idf w log [[outs st'] a] w' log' Hcls H.
  apply forward_feeds_back in H; [|exact Hcls].
  destruct H as (emb & inputs & outs' & -> & Hfb & _ & Hne & _).
  cbn [input_feed] in Hfb.
  destruct (split1 emb) as [|e0 embs] eqn:Hsplit;
    destruct inputs as [|x inputs];
    destruct outs' as [|o outs']; simpl in Hfb; try contradiction.
  destruct Hfb as (Hx & _).
  exists emb, e0, embs, x, inputs.
  split; [exact Hsplit|]. split; [reflexivity|exact Hx].
Qed.

End FreshState.

(** * Properties of the score report *)

Section ReportFacts.

Variable F : Type.
Variable float_div : F -> Z -> F.
Variable float_neg : F -> F.
Variable exp_overflows : F -> bool.

Local Abbreviation report :=
  (Translator._report_score float_div float_neg exp_overflows).

(** With no word at all the division raises, and the handler of
    [_report_score] is for [OverflowError] only. *)
Lemma _report_score_zero_words (name : Translator.report_name) (s : F) :
  report name s 0%Z = Raise ZeroDivisionError.
Proof. reflexivity. Qed.

(** C9, as amended.  For a nonzero number of words [_report_score]
    returns: it prints the score line, or, when [math.exp] overflows, it
    catches the [OverflowError] and prints the three lines of its
    handler; and the reports at the end of [translate] return as soon as
    the word totals they divide by are nonzero. *)
Theorem report_score_catches_overflow :
  (forall name (score_total : F) (words_total : Z),
      words_total <> 0%Z ->
      report name score_total words_total
      = Ok (if exp_overflows (float_div (float_neg score_total) words_total)
            then [Translator.OverflowOccured F;
                  Translator.ScoreTotal score_total;
                  Translator.WordsTotal F words_total]
            else [Translator.ScoreLine name
                    (float_div score_total words_total)
                    (Translator.Exp
                       (float_div (float_neg score_total) words_total))])) /\
  (forall report_score has_tgt pred_score pred_words gold_score gold_words,
      pred_words <> 0%Z ->
      (has_tgt = true -> gold_words <> 0%Z) ->
      exists lines,
        Translator.report_scores float_div float_neg exp_overflows
          report_score has_tgt pred_score pred_words gold_score gold_words
        = Ok lines).
Proof.
  assert (Hone : forall name (s : F) (n : Z), n <> 0%Z ->
            report name s n
            = Ok (if exp_overflows (float_div (float_neg s) n)
                  then [Translator.OverflowOccured F;
                        Translator.ScoreTotal s;
                        Translator.WordsTotal F n]
                  else [Translator.ScoreLine name (float_div s n)
                          (Translator.Exp (float_div (float_neg s) n))])).
  { intros name s n Hn.
    unfold Translator._report_score, Translator.py_div, Translator.math_exp.
    destruct (Z.eqb_spec n 0) as [?|_]; [contradiction|]; simpl.
    destruct (exp_overflows (float_div (float_neg s) n)); reflexivity. }
  split; [exact Hone|].
  intros rs has_tgt ps pw gs gw Hp Hg.
  unfold Translator.report_scores.
  destruct rs; [|eexists; reflexivity].
  rewrite (Hone _ _ _ Hp); simpl.
  destruct has_tgt; [|eexists; reflexivity].
  rewrite (Hone _ _ _ (Hg eq_refl)); simpl; eexists; reflexivity.
Qed.

End ReportFacts.

(** * Properties of the decoding loop *)

Section LoopFacts.

Variables R W : Type.
Variable Beam : Type.
Variable done : Beam -> bool.
Variable get_current_state : Beam -> tensor Z.
Variable get_current_origin : Beam -> list nat.
Variables Scores HierAttns : Type.
Variable advance : Scores -> nat -> Beam -> result Beam.

Local Abbreviation observed_step tr model :=
  (Translator.decode_step get_current_state get_current_origin advance tr
     (log_decoder_inputs model)).

Local Abbreviation observed_loop tr model :=
  (Translator.decode_loop done get_current_state get_current_origin advance tr
     (log_decoder_inputs model)).

(** One step of the loop calls the decoder at most once: exactly once,
    on the current tokens, when those can be built. *)
Lemma decode_step_log (tr : Translator.Translator)
      (model : Translator.Model R W Scores HierAttns) mt mem st w log :
  exists r w',
    observed_step tr model mt mem st (w, log)
    = (r, (w', match Translator.current_inp get_current_state tr
                       (Translator.beam st) with
               | Ok inp => log ++ [inp]
               | Raise _ => log
               end)).
Proof.
  unfold Translator.decode_step.
  destruct (Translator.current_inp get_current_state tr (Translator.beam st))
    as [inp|e]; [|eexists; eexists; reflexivity].
  unfold bind, lift, ret, keep_log; destruct mt; simpl.
  - match goal with
    | |- context [Translator.decoder ?m ?a ?b ?c ?d ?e ?v] =>
        destruct (Translator.decoder m a b c d e v) as [[[[o ds] a0]|e0] w1]
    end; simpl; [|eexists; eexists; reflexivity].
    unfold keep_log; simpl.
    match goal with
    | |- context [Translator.word_scores ?m ?a ?b ?c ?v] =>
        destruct (Translator.word_scores m a b c v) as [[out|e0] w2]
    end; simpl; [|eexists; eexists; reflexivity].
    match goal with
    | |- context [Translator.advance_beams ?a ?b ?c ?d ?e ?f ?g ?h] =>
        destruct (Translator.advance_beams a b c d e f g h)
    end; eexists; eexists; reflexivity.
  - match goal with
    | |- context [Translator.hier_decoder ?m ?a ?b ?v] =>
        destruct (Translator.hier_decoder m a b v) as [[[[o ds] a0]|e0] w1]
    end; simpl; [|eexists; eexists; reflexivity].
    unfold keep_log; simpl.
    match goal with
    | |- context [Translator.word_scores ?m ?a ?b ?c ?v] =>
        destruct (Translator.word_scores m a b c v) as [[out|e0] w2]
    end; simpl; [|eexists; eexists; reflexivity].
    match goal with
    | |- context [Translator.advance_beams ?a ?b ?c ?d ?e ?f ?g ?h] =>
        destruct (Translator.advance_beams a b c d e f g h)
    end; eexists; eexists; reflexivity.
Qed.

Lemma decode_step_log_ok (tr : Translator.Translator)
      (model : Translator.Model R W Scores HierAttns) mt mem st w log
      st' w' log' :
  observed_step tr model mt mem st (w, log) = (Ok st', (w', log')) ->
  exists inp,
    Translator.current_inp get_current_state tr (Translator.beam st) = Ok inp /\
    log' = log ++ [inp].
Proof.
  intros H.
  destruct (decode_step_log tr model mt mem st w log) as (r & w1 & H1).
  rewrite H1 in H.
  destruct (Translator.current_inp get_current_state tr (Translator.beam st))
    as [inp|e] eqn:Hinp.
  - exists inp; split; [reflexivity|]; inversion H; reflexivity.
  - exfalso; inversion H; subst.
    unfold Translator.decode_step in H1; rewrite Hinp in H1.
    discriminate.
Qed.

(** The loop over any range. *)
Lemma decode_loop_log (tr : Translator.Translator)
      (model : Translator.Model R W Scores HierAttns) mt mem rng :
  forall st w log,
  exists r w' fed,
    observed_loop tr model mt mem rng st (w, log) = (r, (w', log ++ fed)) /\
    length fed <= length rng /\
    (forall st', r = Ok st' -> length fed < length rng ->
                 forallb done (Translator.beam st') = true).
Proof.
  induction rng as [|i rng IH]; intros st w log; simpl.
  - exists (Ok st), w, []; rewrite app_nil_r; repeat split; simpl; lia.
  - destruct (forallb done (Translator.beam st)) eqn:Hdone.
    + exists (Ok st), w, []; rewrite app_nil_r.
      repeat split; simpl; [lia|].
      intros st' H _; inversion H; subst; assumption.
    + destruct (decode_step_log tr model mt mem st w log) as (r & w1 & H1).
      unfold bind; rewrite H1.
      destruct r as [st1|e].
      * destruct (decode_step_log_ok _ _ _ _ _ _ _ H1) as (inp & Hinp & Hlog).
        rewrite Hinp in H1.
        destruct (IH st1 w1 (log ++ [inp])) as (r & w2 & fed & H2 & Hlen & Hd).
        rewrite Hinp.
        exists r, w2, (inp :: fed).
        rewrite H2, <- app_assoc; simpl.
        repeat split; [lia|].
        intros st' Hr Hlt; apply Hd; [assumption|lia].
      * destruct (Translator.current_inp get_current_state tr
                    (Translator.beam st)) as [inp|e0].
        -- exists (Raise e), w1, [inp].
           repeat split; [simpl; lia|discriminate].
        -- exists (Raise e), w1, []; rewrite app_nil_r.
           repeat split; [simpl; lia|discriminate].
Qed.

Lemma length_range (n : Z) :
  Z.of_nat (length (Translator.range n)) = Z.max 0 n.
Proof. unfold Translator.range; rewrite length_seq; lia. Qed.

(** C1.  The decoding loop of [translate_batch], run with a decoder that
    logs the tokens it is fed: from any state it calls the decoder at
    most [max_length] times; when it returns after fewer calls every
    beam is done; and entered with every beam done it calls nothing and
    leaves the beams, the decoder state and the modules as they are,
    whatever is left of the range. *)
Theorem decoding_loop_is_bounded (tr : Translator.Translator)
        (model : Translator.Model R W Scores HierAttns) mt mem :
  (forall st w log,
      exists r w' fed,
        observed_loop tr model mt mem
          (Translator.range (Translator.max_length tr)) st (w, log)
        = (r, (w', log ++ fed)) /\
        (Z.of_nat (length fed) <= Z.max 0 (Translator.max_length tr))%Z /\
        (forall st', r = Ok st' ->
           (Z.of_nat (length fed) < Z.max 0 (Translator.max_length tr))%Z ->
           forallb done (Translator.beam st') = true)) /\
  (forall rng st wl,
      forallb done (Translator.beam st) = true ->
      observed_loop tr model mt mem rng st wl = (Ok st, wl)).
Proof.
  split.
  - intros st w log.
    destruct (decode_loop_log tr model mt mem
                (Translator.range (Translator.max_length tr)) st w log)
      as (r & w' & fed & H & Hlen & Hd).
    exists r, w', fed; rewrite <- length_range.
    split; [exact H|]. split; [lia|].
    intros st' Hr Hlt; apply Hd; [assumption|lia].
  - intros rng st wl Hdone; destruct rng as [|i rng]; simpl; [reflexivity|].
    rewrite Hdone; reflexivity.
Qed.

Lemma sizes_eqb_eq (a b : list nat) : sizes_eqb a b = true -> a = b.
Proof.
  revert b; induction a as [|x a IH]; destruct b as [|y b]; simpl;
    try discriminate; [reflexivity|].
  intros H; apply andb_prop in H; destruct H as [Hx Hab].
  apply Nat.eqb_eq in Hx; subst; f_equal; apply IH; assumption.
Qed.

Lemma stack_ok (X : Type) (ts : list (tensor X)) (s : tensor X) :
  stack ts = Ok s ->
  exists t0, hd_error ts = Some t0 /\
             (forall t, In t ts -> size t = size t0) /\
             size s = length ts :: size t0 /\
             (forall i ix, get s (i :: ix) = get (nth i ts t0) ix).
Proof.
  unfold stack; destruct ts as [|t0 ts']; [discriminate|].
  destruct (forallb _ _) eqn:Hall; [|discriminate].
  intros H; inversion H; subst; clear H; exists t0.
  split; [reflexivity|]. split.
  - intros t Ht; rewrite forallb_forall in Hall.
    apply sizes_eqb_eq; apply Hall; assumption.
  - split; reflexivity.
Qed.

Lemma get_Tensor (X : Type) (s : list nat) (g : list nat -> X) (ix : list nat) :
  get {| size := s; get := g |} ix = g ix.
Proof. reflexivity. Qed.

Lemma view_row_ok (X : Type) (t : tensor X) :
  view_row t
  = Ok {| size := [1; numel (size t)];
          get := fun ix =>
                   get t (unravel (size t) (ravel [1; numel (size t)] ix)) |}.
Proof.
  unfold view_row, view.
  replace (numel [1; numel (size t)]) with (numel (size t))
    by (unfold numel at 2; simpl; lia).
  rewrite Nat.eqb_refl; reflexivity.
Qed.

(** The offset [k * n + j] of a row of [w * n] entries is the entry
    [(k, j)] of a [w] by [n] matrix. *)
Lemma unravel_row (w n k j : nat) :
  j < n ->
  unravel [w; n] (ravel [1; numel [w; n]] [0; k * n + j]) = [k; j].
Proof.
  intros Hj; unfold ravel, unravel, numel; simpl fold_right.
  rewrite !Nat.mul_1_r, Nat.mul_0_l, !Nat.add_0_l, Nat.add_0_r, Nat.div_1_r.
  rewrite Nat.div_add_l by lia.
  rewrite (Nat.div_small j n) by lia.
  rewrite (Nat.add_comm (k * n) j), Nat.Div0.mod_add, Nat.mod_small by lia.
  rewrite Nat.add_0_r; reflexivity.
Qed.

(** C4.  With copy attention, for every beam [j] (of frontier width
    [width]) and slot [k] the token fed to the decoder at position
    [k * batch + j] is the unknown-token id 0 when the frontier token of
    that slot exceeds the size of the target vocabulary, and the frontier
    token itself when it is at most the last id of the vocabulary. *)
Theorem copied_tokens_are_fed_as_unk (tr : Translator.Translator)
        (beams : list Beam) (inp : tensor Z) (j k : nat) (b : Beam)
        (width : nat) :
  Translator.copy_attn tr = true ->
  Translator.current_inp get_current_state tr beams = Ok inp ->
  nth_error beams j = Some b ->
  size (get_current_state b) = [width] ->
  k < width ->
  (size inp = [1; width * length beams; 1]) /\
  (let t := get (get_current_state b) [k] in
   let fed := get inp [0; k * length beams + j; 0] in
   ((Z.of_nat (Translator.tgt_vocab_len tr) < t -> fed = 0) /\
    (t <= Z.of_nat (Translator.tgt_vocab_len tr) - 1 -> fed = t))%Z).
Proof.
  intros Hcopy H Hb Hwidth Hk.
  unfold Translator.current_inp in H; rewrite Hcopy in H.
  destruct (stack (map get_current_state beams)) as [stacked|e] eqn:Hstack;
    simpl in H; [|discriminate].
  apply stack_ok in Hstack.
  destruct Hstack as (t0 & Hhd & Hsizes & Hsize & Hget).
  rewrite length_map in Hsize.
  assert (Ht0 : size t0 = [width]).
  { rewrite <- Hwidth; symmetry; apply Hsizes.
    apply in_map; eapply nth_error_In; exact Hb. }
  rewrite Ht0 in Hsize.
  unfold Translator.t_ in H; rewrite Hsize in H.
  unfold transpose01 in H; rewrite Hsize in H; cbn [rbind] in H.
  rewrite view_row_ok in H; cbn [rbind] in H.
  apply (f_equal (fun r => match r with Ok x => x | Raise _ => inp end)) in H.
  cbv beta iota in H; subst inp.
  set (tr0 := {| size := [width; length beams]; get := _ |}).
  change (size tr0) with [width; length beams].
  split.
  - unfold Translator.unsqueeze2, Translator.masked_fill_gt.
    cbn [size firstn skipn app].
    unfold numel; simpl fold_right; rewrite !Nat.mul_1_r; reflexivity.
  - intros t fed; subst t fed.
    assert (Hj : j < length beams) by (apply nth_error_Some; congruence).
    assert (Hnth : nth j (map get_current_state beams) t0 = get_current_state b).
    { apply nth_error_nth; rewrite nth_error_map, Hb; reflexivity. }
    assert (Hfed : get tr0 [k; j] = get (get_current_state b) [k]).
    { subst tr0; cbn [get]; rewrite Hget, Hnth; reflexivity. }
    unfold Translator.unsqueeze2, Translator.masked_fill_gt.
    rewrite !get_Tensor; cbn [firstn skipn app].
    rewrite unravel_row by exact Hj.
    rewrite Hfed, Z.gtb_ltb.
    destruct (Z.ltb_spec (Z.of_nat (Translator.tgt_vocab_len tr) - 1)
                         (get (get_current_state b) [k])); split; lia.
Qed.

End LoopFacts.

(** * The statements at work on the small model *)

(** The loop of [Toy.translator] from fresh beams: both beams are done
    after two steps, and the decoder has been fed twice; the copied
    tokens 12 and 15 (the vocabulary has 10 words) were fed as 0. *)
Example loop_runs_two_steps :
  let run :=
    Translator.decode_loop Toy.beam_done Toy.current_state
      Toy.current_origin Toy.beam_advance Toy.translator
      (log_decoder_inputs Toy.model) text Toy.mem
      (Translator.range 5)
      (Translator.mkLoop Toy.beams Toy.loop_dec_state) (tt, []) in
  match run with
  | (Ok st, (_, fed)) =>
      map Toy.steps (Translator.beam st) = [2; 2] /\
      map (fun inp => map (fun i => get inp [0; i; 0]) (seq 0 4)) fed
      = [[3; 0; 0; 7]; [3; 0; 0; 7]]%Z
  | _ => False
  end.
Proof. vm_compute. split; reflexivity. Qed.

Example gather_moves_slots :
  match beam_update 1 [2; 0; 0] 3 Toy.beam_state with
  | Ok st =>
      map (fun j => get (input_feed st) [0; j; 1]) (seq 0 6)
      = [1; 11; 5; 3; 9; 3]%Z
  | Raise _ => False
  end.
Proof. vm_compute. reflexivity. Qed.

(** Two steps of the input-feeding decoder with coverage on a batch of 2:
    the second step is fed the output of the first, and the coverage is
    the sum of the two attentions. *)
Example forward_runs_two_steps :
  match forward Toy.add (Toy.decoder_of InputFeedRNNDecoder false true)
                Toy.tgt Toy.memory Toy.state0 None None tt with
  | (Ok (outs, st', a), _) =>
      size outs = [2; 2; 3] /\
      map (fun h => get (input_feed st') [0; 1; h]) (seq 0 3) = [3; 4; 1]%Z /\
      option_map (fun c => (size c, get c [0; 1; 2])) (coverage st')
      = Some ([1; 2; 3], 2%Z)
  | _ => False
  end.
Proof. vm_compute. repeat split; reflexivity. Qed.

Lemma decoding_loop_is_bounded_witness :
  Translator.decode_loop Toy.beam_done Toy.current_state
    Toy.current_origin Toy.beam_advance Toy.translator
    (log_decoder_inputs Toy.model) text Toy.mem
    (Translator.range 5)
    (Translator.mkLoop Toy.finished_beams Toy.loop_dec_state) (tt, [])
  = (Ok (Translator.mkLoop Toy.finished_beams Toy.loop_dec_state),
     (tt, [])).
Proof.
  apply (proj2 (decoding_loop_is_bounded Toy.beam_done
                  Toy.current_state Toy.current_origin
                  Toy.beam_advance Toy.translator Toy.model
                  text Toy.mem)).
  reflexivity.
Defined.

Lemma batch_dimension_invariant_witness :
  (exists st', repeat_beam_size_times 3 Toy.state0 = Ok st' /\
               state_batch (2 * 3) st' = true) /\
  (forall st', beam_update 1 [2; 0; 0] 3 Toy.beam_state = Ok st' ->
               state_batch 6 st' = true) /\
  state_batch 6 (update_state (Single (iota [1; 6; 2])) (iota [1; 6; 2]) None
                              Toy.beam_state) = true.
Proof.
  destruct (batch_dimension_invariant 0%Z) as (H1 & H2 & H3).
  split; [|split].
  - apply (H1 false 3 Toy.encoder_final Toy.state0 2 3); reflexivity.
  - intros st'; apply (H2 6 1 [2; 0; 0] 3 Toy.beam_state st'); reflexivity.
  - apply (H3 6); reflexivity.
Defined.

Lemma beam_update_is_a_gather_witness :
  exists st',
    beam_update 1 [2; 0; 0] 3 Toy.covered_beam_state = Ok st' /\
    Forall2 (gathered 2 1 [2; 0; 0] 3)
            (_all Toy.covered_beam_state) (_all st') /\
    coverage st' = coverage Toy.covered_beam_state.
Proof.
  apply (@beam_update_is_a_gather Z Toy.covered_beam_state 1 [2; 0; 0] 3 2);
    [lia | lia | reflexivity | repeat constructor | reflexivity].
Defined.

(** On a state that carries a coverage the re-indexing returns and moves
    the slots of the input feed, but the coverage, a tensor of the state
    with the same entries, is not gathered: slot 0 of example 1 still
    holds its own entries, not those of its parent slot 2. *)
Lemma beam_update_leaves_coverage_in_place :
  exists st' c,
    beam_update 1 [2; 0; 0] 3 Toy.covered_beam_state = Ok st' /\
    map (fun j => get (input_feed st') [0; j; 1]) (seq 0 6)
    = [1; 11; 5; 3; 9; 3]%Z /\
    coverage st' = Some c /\
    map (fun j => get c [0; j; 1]) (seq 0 6) = [1; 3; 5; 7; 9; 11]%Z /\
    ~ gathered 2 1 [2; 0; 0] 3 (iota [1; 6; 2]) c.
Proof.
  eexists; eexists; split; [reflexivity|].
  split; [reflexivity|]. split; [reflexivity|]. split; [reflexivity|].
  intros (_ & Hg & _).
  specialize (Hg 0 0 [1]); cbv in Hg.
  assert (H : 0 < 3) by lia; specialize (Hg H); discriminate.
Qed.

Lemma copied_tokens_are_fed_as_unk_witness :
  exists inp,
    Translator.current_inp Toy.current_state Toy.translator
      Toy.beams = Ok inp /\
    size inp = [1; 2 * 2; 1] /\
    get inp [0; 0 * 2 + 1; 0] = 0%Z /\
    get inp [0; 1 * 2 + 1; 0] = 7%Z.
Proof.
  eexists; split; [reflexivity|].
  pose proof (@copied_tokens_are_fed_as_unk _ Toy.current_state
                Toy.translator Toy.beams _ 1 0
                {| Toy.tokens := [15; 7]%Z; Toy.steps := 0 |} 2
                eq_refl eq_refl eq_refl eq_refl) as H0.
  pose proof (@copied_tokens_are_fed_as_unk _ Toy.current_state
                Toy.translator Toy.beams _ 1 1
                {| Toy.tokens := [15; 7]%Z; Toy.steps := 0 |} 2
                eq_refl eq_refl eq_refl eq_refl) as H1.
  destruct H0 as (Hsize & Hunk & _); [lia|].
  destruct H1 as (_ & _ & Hkeep); [lia|].
  split; [exact Hsize|]. split.
  - apply Hunk; simpl; lia.
  - apply Hkeep; simpl; lia.
Defined.

Lemma coverage_trace_accumulates_witness :
  exists outs st' a w',
    forward Toy.add (Toy.decoder_of InputFeedRNNDecoder false true)
            Toy.tgt Toy.memory Toy.state0 None None tt
    = (Ok (outs, st', a), w') /\
    exists ps covs trace c_last,
      stack ps = Ok (attn_std a) /\
      stack covs = Ok trace /\ attn_coverage a = Some trace /\
      accumulates Toy.add
        (option_map (@squeeze0 Z) (coverage Toy.state0)) ps covs /\
      last (map Some covs) None = Some c_last /\
      coverage st' = Some (unsqueeze0 c_last).
Proof.
  do 4 eexists; split; [reflexivity|].
  eapply (@coverage_trace_accumulates Z unit Toy.add
            (Toy.decoder_of InputFeedRNNDecoder false true)
            Toy.tgt Toy.memory Toy.state0 None None tt);
    reflexivity.
Defined.

Lemma batch_mismatch_aborts_witness :
  forward Toy.add (Toy.decoder_of InputFeedRNNDecoder false false)
          Toy.tgt (iota [3; 5; 3]) Toy.state0 None None tt
  = (Raise AssertionError, tt) /\
  forward Toy.add (Toy.decoder_of InputFeedRNNDecoder false false)
          (iota [2; 5; 1]) (iota [3; 5; 3]) Toy.state0 None None tt
  = (Raise AssertionError, tt) /\
  aeq 2 2 = Ok tt.
Proof.
  split; [|split].
  - apply (proj1 (@batch_mismatch_aborts Z unit Toy.add
                    (Toy.decoder_of InputFeedRNNDecoder false false)
                    Toy.tgt (iota [3; 5; 3]) Toy.state0 None None tt
                    2 2 1 3 5 3 eq_refl eq_refl)).
    lia.
  - apply (proj1 (proj2 (@batch_mismatch_aborts Z unit Toy.add
                           (Toy.decoder_of InputFeedRNNDecoder false false)
                           (iota [2; 5; 1]) (iota [3; 5; 3]) Toy.state0
                           None None tt 2 5 1 3 5 3 eq_refl eq_refl)
                        2 3 eq_refl eq_refl)).
    lia.
  - apply (proj2 (proj2 (@batch_mismatch_aborts Z unit Toy.add
                           (Toy.decoder_of InputFeedRNNDecoder false false)
                           Toy.tgt Toy.memory Toy.state0
                           None None tt 2 2 1 3 2 3 eq_refl eq_refl)
                        2 3 eq_refl eq_refl));
      reflexivity.
Defined.

Lemma emitted_output_is_next_input_feed_witness :
  exists dec_outs st' a w' log',
    forward Toy.add
            (log_rnn_inputs (Toy.decoder_of InputFeedRNNDecoder true false))
            Toy.tgt Toy.memory Toy.state0 None None (tt, [])
    = (Ok (dec_outs, st', a), (w', log')) /\
    exists emb inputs outs,
      log' = [] ++ inputs /\
      fed_back (squeeze0 (input_feed Toy.state0)) (split1 emb) inputs outs /\
      length inputs = length (split1 emb) /\
      length outs = length (split1 emb) /\
      stack outs = Ok dec_outs /\
      size dec_outs
      = length (split1 emb) :: size (hd (input_feed Toy.state0) outs) /\
      outs <> [] /\
      input_feed st'
      = unsqueeze0 (last outs (squeeze0 (input_feed Toy.state0))).
Proof.
  do 5 eexists; split; [reflexivity|].
  eapply (@emitted_output_is_next_input_feed Z unit Toy.add
            (Toy.decoder_of InputFeedRNNDecoder true false)
            Toy.tgt Toy.memory Toy.state0 None None tt []);
    reflexivity.
Defined.

Lemma fresh_decoder_state_witness :
  exists st,
    RNNDecoderState_init 0%Z 3 Toy.encoder_final = Ok st /\
    hidden st = [iota [1; 2; 3]] /\
    coverage st = None /\
    size (input_feed st) = [1; 2; 3] /\
    get (input_feed st) [0; 1; 2] = 0%Z.
Proof.
  destruct (@fresh_decoder_state Z 0%Z 3 Toy.encoder_final
              (iota [1; 2; 3]) [] 1 2 [3] eq_refl eq_refl)
    as (st & Hinit & Hh & _ & Hc & Hs & Hz & _).
  exists st; repeat split; auto.
Defined.

(** The standard decoder asked for with copy and coverage attention is
    built by [__init__]: nothing is rejected at setup. *)
Lemma Std_decoder_with_copy_is_constructed :
  RNNDecoderBase_init StdRNNDecoder Toy.lib (Toy.args true true)
  = Ok (Toy.decoder_of StdRNNDecoder true true).
Proof. reflexivity. Qed.

Lemma Std_decoder_rejects_copy_and_coverage_in_forward_witness :
  (exists d, RNNDecoderBase_init StdRNNDecoder Toy.lib
               (Toy.args true false) = Ok d /\
             class_of d = StdRNNDecoder /\ _copy d = true /\
             _coverage d = false) /\
  _run_forward_pass Toy.add (Toy.decoder_of StdRNNDecoder true false)
    Toy.tgt Toy.memory Toy.state0 None None tt
  = (Raise AssertionError, tt) /\
  exists e,
    forward Toy.add (Toy.decoder_of StdRNNDecoder true false)
            Toy.tgt Toy.memory Toy.state0 None None tt
    = (Raise e, tt).
Proof.
  destruct (@Std_decoder_rejects_copy_and_coverage_in_forward Z unit
              Toy.add) as (Hinit & Hfwd).
  split.
  - apply (Hinit unit unit Toy.lib (Toy.args true false)).
  - apply (Hfwd (Toy.decoder_of StdRNNDecoder true false)); reflexivity.
Defined.

(** With no word translated the report divides by zero, and the error
    leaves [_report_score] and the reports of [translate]. *)
Lemma report_score_zero_division_propagates :
  Translator._report_score Toy.float_div Toy.float_neg
    Toy.exp_overflows Translator.PRED 0%Z 0%Z
  = Raise ZeroDivisionError /\
  Translator.report_scores Toy.float_div Toy.float_neg
    Toy.exp_overflows true false 0%Z 0%Z 0%Z 0%Z
  = Raise ZeroDivisionError.
Proof. split; reflexivity. Qed.

Lemma report_score_catches_overflow_witness :
  Translator._report_score Toy.float_div Toy.float_neg
    Toy.exp_overflows Translator.PRED (-4000)%Z 5%Z
  = Ok [Translator.OverflowOccured Z; Translator.ScoreTotal (-4000)%Z;
        Translator.WordsTotal Z 5%Z] /\
  Translator._report_score Toy.float_div Toy.float_neg
    Toy.exp_overflows Translator.PRED (-40)%Z 5%Z
  = Ok [Translator.ScoreLine Translator.PRED (-8)%Z (Translator.Exp 8%Z)].
Proof.
  destruct (report_score_catches_overflow Toy.float_div Toy.float_neg
              Toy.exp_overflows) as (H & _).
  split.
  - apply (H Translator.PRED (-4000)%Z 5%Z); lia.
  - apply (H Translator.PRED (-40)%Z 5%Z); lia.
Defined.

(** * Further properties of the decoder state *)

Section DecoderStateMore.

Variable R : Type.
Variable zero : R.

Lemma rmap_raise_all (X Y : Type) (f : X -> result Y) (xs : list X) (e : exn) :
  xs <> [] -> (forall x, In x xs -> f x = Raise e) -> rmap f xs = Raise e.
Proof.
  destruct xs as [|x xs]; [contradiction|].
  intros _ H; simpl; rewrite (H x (or_introl eq_refl)); reflexivity.
Qed.

Lemma Forall2_compose (X : Type) (P Q S : X -> X -> Prop) (xs ys zs : list X) :
  (forall x y z, P x y -> Q y z -> S x z) ->
  Forall2 P xs ys -> Forall2 Q ys zs -> Forall2 S xs zs.
Proof.
  intros H HP; revert zs; induction HP; intros zs HQ; inversion HQ; subst;
    constructor; eauto.
Qed.

Lemma all_removelast_last (st : RNNDecoderState R) (vars : list (tensor R)) :
  length vars = length (_all st) ->
  removelast vars ++ [last vars (input_feed st)] = vars.
Proof.
  intros Hlen; symmetry; apply app_removelast_last.
  intros ->; unfold _all in Hlen; rewrite length_app in Hlen; simpl in Hlen; lia.
Qed.

Lemma repeat_1_n_1_tiles (B n : nat) (e : tensor R) :
  has_batch B e = true ->
  exists e', repeat_1_n_1 n e = Ok e' /\ tiled B n e e'.
Proof.
  intros H; apply has_batch_size in H; destruct H as (a & c & Hs).
  unfold repeat_1_n_1; rewrite Hs; eexists; split; [reflexivity|].
  split; [exists a, c; split; [assumption|reflexivity]|].
  intros l k b h Hb; simpl.
  rewrite Nat.add_comm, Nat.Div0.mod_add, Nat.mod_small by lia; reflexivity.
Qed.

(** X1.  [repeat_beam_size_times(beam_size)] on a state whose tensors
    have batch dimension [B] returns; in every hidden tensor and in the
    input feed the entries at batch index [k * B + b] are those of
    example [b] before the call, for every slot [k]; the number of hidden
    tensors is kept and the coverage is left as it is (it is not
    repeated). *)
Theorem repeat_beam_size_times_tiles (B beam_size : nat)
        (st : RNNDecoderState R) :
  state_batch B st = true ->
  exists st',
    repeat_beam_size_times beam_size st = Ok st' /\
    Forall2 (tiled B beam_size) (_all st) (_all st') /\
    length (hidden st') = length (hidden st) /\
    coverage st' = coverage st.
Proof.
  intros Hst; unfold state_batch in Hst.
  destruct (@rmap_Forall2 _ _ (tiled B beam_size)
              (repeat_1_n_1 beam_size) (_all st)) as (vars & Hv & Fv).
  { intros e He; apply repeat_1_n_1_tiles.
    rewrite forallb_forall in Hst; auto. }
  unfold repeat_beam_size_times; rewrite Hv; simpl.
  eexists; split; [reflexivity|].
  pose proof (rmap_length _ _ Hv) as Hlen.
  unfold _all at 2; cbn [hidden input_feed coverage].
  rewrite (all_removelast_last st vars Hlen).
  split; [exact Fv|]. split; [|reflexivity].
  rewrite removelast_firstn_len, length_firstn, Hlen.
  unfold _all; rewrite length_app; simpl; lia.
Qed.

(** The effect of [beam_update] on every tensor of [_all]. *)
Lemma beam_update_ok (st : RNNDecoderState R) (idx : nat)
      (positions : list nat) (beam_size B : nat) :
  0 < beam_size -> idx < B ->
  length positions = beam_size ->
  Forall (fun p => p < beam_size) positions ->
  state_batch (beam_size * B) st = true ->
  exists st',
    beam_update idx positions beam_size st = Ok st' /\
    Forall2 (gathered B idx positions beam_size) (_all st) (_all st') /\
    state_batch (beam_size * B) st' = true.
Proof.
  intros Hbeam Hidx Hlen Hpos Hst; pose proof Hst as Hst0.
  unfold state_batch, _all in Hst.
  rewrite forallb_app in Hst; apply andb_prop in Hst; destruct Hst as [Hh Hf].
  simpl in Hf; rewrite andb_true_r in Hf.
  destruct (@rmap_Forall2 _ _ (gathered B idx positions beam_size)
              (beam_update_tensor idx positions beam_size) (hidden st))
    as (hs' & Hhs & Fhs).
  { intros e He; apply beam_update_tensor_gathers; auto.
    rewrite forallb_forall in Hh; auto. }
  destruct (@beam_update_tensor_gathers R idx positions beam_size B
              (input_feed st)) as (f' & Hf' & Gf); auto.
  assert (Hup : beam_update idx positions beam_size st
                = Ok {| hidden := hs'; input_feed := f';
                        coverage := coverage st |}).
  { unfold beam_update; rewrite Hhs; simpl; rewrite Hf'; reflexivity. }
  eexists; split; [exact Hup|]; split.
  - unfold _all; simpl; apply Forall2_app; [assumption|].
    constructor; [assumption|constructor].
  - eapply beam_update_batch; [exact Hst0|exact Hup].
Qed.

(** X2.  Re-indexing with the identity positions [0, 1, ..., beam_size-1]
    changes no entry of the state. *)
Theorem beam_update_identity (st : RNNDecoderState R) (idx beam_size B : nat) :
  0 < beam_size -> idx < B ->
  state_batch (beam_size * B) st = true ->
  exists st',
    beam_update idx (seq 0 beam_size) beam_size st = Ok st' /\
    Forall2 (fun e e' =>
               size e' = size e /\
               forall l j tl, j < beam_size * B ->
                              get e' (l :: j :: tl) = get e (l :: j :: tl))
            (_all st) (_all st').
Proof.
  intros Hbeam Hidx Hst.
  destruct (@beam_update_ok st idx (seq 0 beam_size) beam_size B)
    as (st' & Hup & Hg & _); auto.
  - apply length_seq.
  - apply Forall_forall; intros p Hp; apply in_seq in Hp; lia.
  - exists st'; split; [exact Hup|].
    eapply Forall2_impl; [|exact Hg].
    intros e e' (Hsize & Hslot & Hother); split; [exact Hsize|].
    intros l j tl Hj.
    destruct (Nat.eq_dec (j mod B) idx) as [Hm|Hm]; [|apply Hother; exact Hm].
    assert (Hk : j / B < beam_size)
      by (apply Nat.Div0.div_lt_upper_bound; lia).
    assert (Hjd : j = j / B * B + idx)
      by (rewrite <- Hm, Nat.mul_comm; apply Nat.div_mod_eq).
    rewrite Hjd at 1; rewrite (Hslot l (j / B) tl Hk).
    rewrite seq_nth by exact Hk; simpl; rewrite <- Hjd; reflexivity.
Qed.

Lemma gathered_compose (B idx beam_size : nat) (p q : list nat)
      (e e1 e2 : tensor R) :
  length q = beam_size ->
  Forall (fun i => i < beam_size) q ->
  gathered B idx p beam_size e e1 ->
  gathered B idx q beam_size e1 e2 ->
  gathered B idx (map (fun i => nth i p 0) q) beam_size e e2.
Proof.
  intros Hlen Hq (Hs1 & Hslot1 & Ho1) (Hs2 & Hslot2 & Ho2).
  split; [congruence|]; split.
  - intros l k tl Hk.
    assert (Hqk : nth k q 0 < beam_size).
    { rewrite Forall_forall in Hq; apply Hq, nth_In; lia. }
    rewrite (Hslot2 l k tl Hk), (Hslot1 l _ tl Hqk).
    assert (Hn : nth k (map (fun i => nth i p 0) q) 0 = nth (nth k q 0) p 0).
    { rewrite (@nth_indep _ (map (fun i => nth i p 0) q) k 0 (nth 0 p 0))
        by (rewrite length_map; lia).
      apply (map_nth (fun i => nth i p 0) q 0 k). }
    rewrite Hn; reflexivity.
  - intros l j tl Hj; rewrite (Ho2 l j tl Hj); apply Ho1; exact Hj.
Qed.

(** A re-indexing that returns leaves the coverage as it is. *)
Lemma beam_update_coverage (st st' : RNNDecoderState R) (idx : nat)
      (positions : list nat) (beam_size : nat) :
  beam_update idx positions beam_size st = Ok st' ->
  coverage st' = coverage st.
Proof.
  unfold beam_update.
  destruct (rmap _ (hidden st)) as [hs'|e]; cbn [rbind]; [|discriminate].
  destruct (beam_update_tensor _ _ _ (input_feed st)) as [f'|e];
    cbn [rbind]; [|discriminate].
  intros H; inversion H; reflexivity.
Qed.

(** X3.  Two successive re-indexings of an example, by [p] and then by
    [q], leave in slot [k] of every tensor of [_all] (the hidden tensors
    and the input feed) what slot [p[q[k]]] held at the start: on these
    tensors they amount to one re-indexing by the composed positions.
    The coverage is moved by neither call: its slots stay in place and
    do not follow their ancestors. *)
Theorem beam_update_composes (st : RNNDecoderState R) (idx : nat)
        (p q : list nat) (beam_size B : nat) :
  0 < beam_size -> idx < B ->
  length p = beam_size -> length q = beam_size ->
  Forall (fun i => i < beam_size) p ->
  Forall (fun i => i < beam_size) q ->
  state_batch (beam_size * B) st = true ->
  exists st1 st2,
    beam_update idx p beam_size st = Ok st1 /\
    beam_update idx q beam_size st1 = Ok st2 /\
    Forall2 (gathered B idx (map (fun i => nth i p 0) q) beam_size)
            (_all st) (_all st2) /\
    coverage st1 = coverage st /\
    coverage st2 = coverage st.
Proof.
  intros Hbeam Hidx Hlp Hlq Hp Hq Hst.
  destruct (@beam_update_ok st idx p beam_size B) as (st1 & H1 & G1 & Hst1);
    auto.
  destruct (@beam_update_ok st1 idx q beam_size B) as (st2 & H2 & G2 & _);
    auto.
  pose proof (beam_update_coverage _ _ _ _ H1) as C1.
  pose proof (beam_update_coverage _ _ _ _ H2) as C2.
  exists st1, st2; split; [exact H1|]; split; [exact H2|].
  split; [|split; congruence].
  eapply Forall2_compose; [|exact G1|exact G2].
  intros x y z; apply gathered_compose; assumption.
Qed.

Lemma beam_update_raises (idx : nat) (positions : list nat) (beam_size : nat)
      (st : RNNDecoderState R) (e : exn) :
  (forall t, In t (_all st) ->
             beam_update_tensor idx positions beam_size t = Raise e) ->
  beam_update idx positions beam_size st = Raise e.
Proof.
  intros H; unfold beam_update.
  destruct (hidden st) as [|h hs] eqn:Hh.
  - simpl; rewrite H; [reflexivity|].
    unfold _all; rewrite Hh; left; reflexivity.
  - rewrite (@rmap_raise_all _ _ _ (h :: hs) e); [reflexivity|discriminate|].
    intros t Ht; apply H; unfold _all; rewrite Hh.
    apply in_or_app; left; exact Ht.
Qed.

Lemma beam_update_tensor_rejects (idx : nat) (positions : list nat)
      (beam_size n : nat) (e : tensor R) :
  has_batch n e = true ->
  (beam_size = 0 ->
   beam_update_tensor idx positions beam_size e = Raise ZeroDivisionError) /\
  (forall B, 0 < beam_size -> n = beam_size * B -> B <= idx ->
             beam_update_tensor idx positions beam_size e = Raise IndexError) /\
  (forall B p, 0 < beam_size -> n = beam_size * B -> idx < B ->
               In p positions -> beam_size <= p ->
               beam_update_tensor idx positions beam_size e
               = Raise RuntimeError).
Proof.
  intros Hb; apply has_batch_size in Hb; destruct Hb as (a & c & Hs).
  unfold beam_update_tensor; rewrite Hs; cbv zeta.
  split; [intros ->; reflexivity|].
  assert (Hpre : forall B, 0 < beam_size -> n = beam_size * B ->
            (beam_size =? 0) = false /\ n / beam_size = B /\
            numel [a; beam_size; B; c] = numel [a; n; c]).
  { intros B Hbeam ->; repeat split.
    - apply Nat.eqb_neq; lia.
    - rewrite Nat.mul_comm; apply Nat.div_mul; lia.
    - unfold numel; simpl; ring. }
  split.
  - intros B Hbeam Hn Hidx; destruct (Hpre B Hbeam Hn) as (-> & -> & ->).
    rewrite Nat.eqb_refl; simpl negb; cbv iota.
    destruct (Nat.ltb_spec idx B); [lia|reflexivity].
  - intros B p Hbeam Hn Hidx Hp Hbig.
    destruct (Hpre B Hbeam Hn) as (-> & -> & ->).
    rewrite Nat.eqb_refl; simpl negb; cbv iota.
    destruct (Nat.ltb_spec idx B); [|lia]; simpl negb; cbv iota.
    destruct (forallb (fun p0 => p0 <? beam_size) positions) eqn:Hall;
      [|reflexivity].
    rewrite forallb_forall in Hall; apply Hall in Hp.
    apply Nat.ltb_lt in Hp; lia.
Qed.

(** X4.  On a state whose tensors have batch dimension [n], [beam_update]
    raises: [ZeroDivisionError] for a beam size of 0; [IndexError] for an
    example index that is not below [n / beam_size]; and a runtime error
    of [index_select] when one of the positions is not below the beam
    size. *)
Theorem beam_update_rejects (idx : nat) (positions : list nat)
        (beam_size n : nat) (st : RNNDecoderState R) :
  state_batch n st = true ->
  (beam_size = 0 ->
   beam_update idx positions beam_size st = Raise ZeroDivisionError) /\
  (forall B, 0 < beam_size -> n = beam_size * B -> B <= idx ->
             beam_update idx positions beam_size st = Raise IndexError) /\
  (forall B p, 0 < beam_size -> n = beam_size * B -> idx < B ->
               In p positions -> beam_size <= p ->
               beam_update idx positions beam_size st = Raise RuntimeError).
Proof.
  intros Hst; unfold state_batch in Hst; rewrite forallb_forall in Hst.
  split; [|split].
  - intros H0; apply beam_update_raises; intros t Ht.
    apply (@beam_update_tensor_rejects idx positions beam_size n t (Hst t Ht));
      exact H0.
  - intros B Hbeam Hn Hidx; apply beam_update_raises; intros t Ht.
    eapply (@beam_update_tensor_rejects idx positions beam_size n t (Hst t Ht));
      eassumption.
  - intros B p Hbeam Hn Hidx Hp Hbig; apply beam_update_raises; intros t Ht.
    eapply (@beam_update_tensor_rejects idx positions beam_size n t (Hst t Ht));
      eassumption.
Qed.

Lemma cat_even_odd_ok (L B D : nat) (h : tensor R) :
  size h = [2 * L; B; D] ->
  exists h', cat_even_odd h = Ok h' /\
             size h' = [L; B; D + D] /\
             forall l j k,
               (k < D -> get h' [l; j; k] = get h [2 * l; j; k]) /\
               (D <= k -> get h' [l; j; k] = get h [2 * l + 1; j; k - D]).
Proof.
  intros Hs; unfold cat_even_odd; rewrite Hs.
  assert (He : Nat.even (2 * L) = true)
    by (rewrite Nat.even_mul; reflexivity).
  rewrite He; eexists; split; [reflexivity|]; split.
  - cbn [size]; rewrite Nat.mul_comm, Nat.div_mul by lia; reflexivity.
  - intros l j k; cbn [get nth]; split; intros Hk.
    + destruct (Nat.ltb_spec k D); [reflexivity|lia].
    + destruct (Nat.ltb_spec k D); [lia|reflexivity].
Qed.

(** X5.  [init_decoder_state] for a bidirectional encoder whose final
    state tensors have size [(2 L, B, D)] (layers times directions first)
    returns a state with as many hidden tensors, each of size
    [(L, B, 2 D)], whose layer [l] holds the forward direction (row
    [2 l]) in its first [D] columns and the backward direction (row
    [2 l + 1]) in the last [D]; the input feed has size
    [(1, B, hidden_size)]. *)
Theorem init_decoder_state_bidirectional (hidden_size L B D : nat)
        (enc : rnnstate R) :
  as_tuple enc <> [] ->
  Forall (fun h => size h = [2 * L; B; D]) (as_tuple enc) ->
  exists st,
    init_decoder_state zero true hidden_size enc = Ok st /\
    Forall2 (fun h h' =>
               size h' = [L; B; D + D] /\
               forall l j k,
                 (k < D -> get h' [l; j; k] = get h [2 * l; j; k]) /\
                 (D <= k -> get h' [l; j; k] = get h [2 * l + 1; j; k - D]))
            (as_tuple enc) (hidden st) /\
    size (input_feed st) = [1; B; hidden_size] /\
    coverage st = None.
Proof.
  intros Hne Hall.
  set (P := fun h h' : tensor R =>
              size h' = [L; B; D + D] /\
              forall l j k,
                (k < D -> get h' [l; j; k] = get h [2 * l; j; k]) /\
                (D <= k -> get h' [l; j; k] = get h [2 * l + 1; j; k - D])).
  destruct (@rmap_Forall2 _ _ P (_fix_enc_hidden true) (as_tuple enc))
    as (hs' & Hhs & Fhs).
  { intros h Hh; rewrite Forall_forall in Hall.
    apply (@cat_even_odd_ok L B D h (Hall h Hh)). }
  assert (Hinit : forall rs, as_tuple rs = hs' ->
            exists st, RNNDecoderState_init zero hidden_size rs = Ok st /\
                       hidden st = hs' /\
                       size (input_feed st) = [1; B; hidden_size] /\
                       coverage st = None).
  { intros rs Hrs; unfold RNNDecoderState_init; rewrite Hrs.
    destruct Fhs as [|h h' hs hs'' (Hs & _) _]; [contradiction|].
    rewrite Hs; eexists; repeat split. }
  destruct enc as [h|hs]; simpl as_tuple in *; unfold init_decoder_state.
  - cbn [rmap] in Hhs.
    destruct (_fix_enc_hidden true h) as [h'|e] eqn:Hh; cbn [rbind] in Hhs;
      [|discriminate].
    inversion Hhs; subst hs'; cbn [rbind].
    destruct (Hinit (Single h') eq_refl) as (st & Hst & Hhid & Hf & Hc).
    exists st; rewrite Hhid; repeat split; assumption.
  - rewrite Hhs; simpl.
    destruct (Hinit (Tuple hs') eq_refl) as (st & Hst & Hhid & Hf & Hc).
    exists st; rewrite Hhid; repeat split; assumption.
Qed.

End DecoderStateMore.

Lemma repeat_beam_size_times_tiles_witness :
  exists st',
    repeat_beam_size_times 3 Toy.state0 = Ok st' /\
    Forall2 (tiled 2 3) (_all Toy.state0) (_all st') /\
    length (hidden st') = length (hidden Toy.state0) /\
    coverage st' = coverage Toy.state0.
Proof.
  apply (@repeat_beam_size_times_tiles Z 2 3 Toy.state0); reflexivity.
Defined.

Lemma beam_update_identity_witness :
  exists st',
    beam_update 1 (seq 0 3) 3 Toy.beam_state = Ok st' /\
    Forall2 (fun e e' =>
               size e' = size e /\
               forall l j tl, j < 3 * 2 ->
                              get e' (l :: j :: tl) = get e (l :: j :: tl))
            (_all Toy.beam_state) (_all st').
Proof.
  apply (@beam_update_identity Z Toy.beam_state 1 3 2); [lia|lia|reflexivity].
Defined.

Lemma beam_update_composes_witness :
  exists st1 st2,
    beam_update 1 [2; 0; 0] 3 Toy.covered_beam_state = Ok st1 /\
    beam_update 1 [1; 1; 2] 3 st1 = Ok st2 /\
    Forall2 (gathered 2 1 (map (fun i => nth i [2; 0; 0] 0) [1; 1; 2]) 3)
            (_all Toy.covered_beam_state) (_all st2) /\
    coverage st1 = coverage Toy.covered_beam_state /\
    coverage st2 = coverage Toy.covered_beam_state.
Proof.
  apply (@beam_update_composes Z Toy.covered_beam_state 1
           [2; 0; 0] [1; 1; 2] 3 2);
    [lia | lia | reflexivity | reflexivity
     | repeat constructor | repeat constructor | reflexivity].
Defined.

Lemma beam_update_rejects_witness :
  beam_update 1 [2; 0; 0] 0 Toy.beam_state = Raise ZeroDivisionError /\
  beam_update 2 [2; 0; 0] 3 Toy.beam_state = Raise IndexError /\
  beam_update 1 [2; 3; 0] 3 Toy.beam_state = Raise RuntimeError.
Proof.
  split; [|split].
  - apply (proj1 (@beam_update_rejects Z 1 [2; 0; 0] 0 6 Toy.beam_state
                    eq_refl)); reflexivity.
  - apply (proj1 (proj2 (@beam_update_rejects Z 2 [2; 0; 0] 3 6 Toy.beam_state
                           eq_refl)) 2); [lia|reflexivity|lia].
  - apply (proj2 (proj2 (@beam_update_rejects Z 1 [2; 3; 0] 3 6 Toy.beam_state
                           eq_refl)) 2 3); [lia|reflexivity|lia|simpl; auto|lia].
Defined.

Lemma init_decoder_state_bidirectional_witness :
  exists st,
    init_decoder_state 0%Z true 3 (Tuple [iota [4; 2; 5]; iota [4; 2; 5]])
    = Ok st /\
    Forall2 (fun h h' =>
               size h' = [2; 2; 5 + 5] /\
               forall l j k,
                 (k < 5 -> get h' [l; j; k] = get h [2 * l; j; k]) /\
                 (5 <= k -> get h' [l; j; k] = get h [2 * l + 1; j; k - 5]))
            [iota [4; 2; 5]; iota [4; 2; 5]] (hidden st) /\
    size (input_feed st) = [1; 2; 3] /\
    coverage st = None.
Proof.
  apply (@init_decoder_state_bidirectional Z 0%Z 3 2 2 5
           (Tuple [iota [4; 2; 5]; iota [4; 2; 5]]));
    [discriminate | repeat constructor].
Defined.

(** * Further properties of the forward pass *)

Section ForwardMore.

Variables R W : Type.
Variable tensor_add : tensor R -> tensor R -> result (tensor R).

Local Abbreviation step := (input_feed_step tensor_add).

(** What the loop of the input-feeding decoder does to the attention
    dictionary and to the output list. *)
Lemma attns_loop (d : RNNDecoderBase R W) mb ml idf embs :
  forall s w s' w',
    foldM (step d mb ml idf) embs s w = (Ok s', w') ->
    (_coverage d = false ->
     ps_coverage s' = ps_coverage s /\
     attn_coverage (ps_attns s') = attn_coverage (ps_attns s)) /\
    (_copy d = true -> embs <> [] ->
     attn_copy (ps_attns s') = Some (attn_std (ps_attns s'))) /\
    (_copy d = false ->
     attn_copy (ps_attns s') = attn_copy (ps_attns s)) /\
    length (attn_std (ps_attns s'))
    = length (attn_std (ps_attns s)) + length embs /\
    length (ps_decoder_outputs s')
    = length (ps_decoder_outputs s) + length embs.
Proof.
  induction embs as [|e embs IH]; intros s w s' w' H; simpl in H.
  - inv_ret H; subst s'; simpl; repeat split; try lia.
    intros _ Hne; contradiction Hne; reflexivity.
  - inv_bind H as s1 w1 E.
    apply input_feed_step_ok in E.
    destruct E as (x & ro & w2 & p & _ & _ & Hout & Hstd & Hcopy & Hcov).
    destruct (IH _ _ _ _ H) as (IHcov & IHcopy & IHnocopy & IHstd & IHout).
    split; [|split; [|split; [|split]]].
    + intros Hc; rewrite Hc in Hcov; destruct Hcov as (Hc1 & Hc2).
      destruct (IHcov Hc) as (Hc3 & Hc4); split; congruence.
    + intros Hc _; destruct embs as [|e' embs'].
      * simpl in H; inv_ret H; subst s'; rewrite Hcopy, Hc; reflexivity.
      * apply IHcopy; [exact Hc|discriminate].
    + intros Hc; rewrite (IHnocopy Hc), Hcopy, Hc; reflexivity.
    + rewrite IHstd, Hstd, length_app; simpl; lia.
    + rewrite IHout, Hout, length_app; simpl; lia.
Qed.

Lemma stack_attns_copy (x : attns (tensors R)) (a : attns (tensor R)) :
  stack_attns x = Ok a ->
  match attn_copy x with
  | Some t => exists c, py_stack t = Ok c /\ attn_copy a = Some c
  | None => attn_copy a = None
  end.
Proof.
  unfold stack_attns; intros H.
  destruct (py_stack (attn_std x)) as [s0|?]; simpl in H; [|discriminate].
  destruct (attn_copy x) as [c0|]; simpl in H.
  - destruct (py_stack c0) as [c1|?]; simpl in H; [|discriminate].
    destruct (attn_coverage x) as [v0|]; simpl in H.
    + destruct (py_stack v0); simpl in H; [|discriminate].
      inversion H; subst; simpl; eauto.
    + inversion H; subst; simpl; eauto.
  - destruct (attn_coverage x) as [v0|]; simpl in H.
    + destruct (py_stack v0); simpl in H; [|discriminate].
      inversion H; subst; simpl; eauto.
    + inversion H; subst; simpl; eauto.
Qed.

(** X6.  A call of [forward] on an input-feeding decoder set up with copy
    attention that returns gives the same tensor under the keys ["copy"]
    and ["std"] of the attentions: the copy attention is the standard
    attention; without copy attention there is no key ["copy"].  In both
    cases ["std"] holds one attention per time step of the embedded
    target. *)
Theorem copy_attention_is_std_attention (d : RNNDecoderBase R W)
        tgt mb st ml idf w outs st' a w' :
  class_of d = InputFeedRNNDecoder ->
  forward tensor_add d tgt mb st ml idf w = (Ok (outs, st', a), w') ->
  attn_copy a = (if _copy d then Some (attn_std a) else None) /\
  exists emb w1 ps,
    emb_call (embeddings d) tgt w = (Ok emb, w1) /\
    stack ps = Ok (attn_std a) /\
    length ps = length (split1 emb).
Proof.
  intros Hcls H.
  apply InputFeed_forward_ok in H; [|exact Hcls].
  destruct H as (emb & w1 & s & o_last & He & Hloop & Hlast & _ & Hst & _).
  destruct (attns_loop _ _ _ _ _ _ _ Hloop)
    as (_ & Hcopy & Hnocopy & Hlen & Hout).
  pose proof (stack_attns_ok _ Hst) as (Hstd & _).
  pose proof (stack_attns_copy _ Hst) as Hc.
  unfold wrap_lists in Hstd, Hc; simpl in Hstd, Hc.
  split.
  - destruct (_copy d) eqn:Hcp.
    + assert (Hne : split1 emb <> []).
      { intros Hnil; rewrite Hnil in Hout; simpl in Hout, Hlast.
        destruct (ps_decoder_outputs s); [discriminate|simpl in Hout; lia]. }
      rewrite (Hcopy eq_refl Hne) in Hc; simpl in Hc.
      destruct Hc as (c & Hc1 & Hc2); congruence.
    + rewrite (Hnocopy eq_refl) in Hc; unfold pass_start in Hc; simpl in Hc.
      rewrite Hcp in Hc; exact Hc.
  - exists emb, w1, (attn_std (ps_attns s)).
    split; [exact He|]. split; [exact Hstd|].
    rewrite Hlen; reflexivity.
Qed.

(** A call of [forward] on a standard decoder that returns. *)
Lemma Std_forward_ok (d : RNNDecoderBase R W) tgt mb st ml idf w
      outs st' a w' :
  class_of d = StdRNNDecoder ->
  forward tensor_add d tgt mb st ml idf w = (Ok (outs, st', a), w') ->
  _copy d = false /\ _coverage d = false /\
  exists tgt_len tgt_batch k (rnn_output : tensor R)
         (decoder_final : rnnstate R) n rest (p : tensor R),
    size tgt = [tgt_len; tgt_batch; k] /\
    (exists c, size rnn_output = [tgt_len; tgt_batch; c]) /\
    (exists emb w1 w2 h,
        emb_call (embeddings d) tgt w = (Ok emb, w1) /\
        rnn d emb h w1 = (Ok (rnn_output, decoder_final), w2) /\
        if rnn_is_GRU d
        then exists h0 t, hidden st = h0 :: t /\ h = Single h0
        else h = Tuple (hidden st)) /\
    size outs = S n :: rest /\
    hidden st' = as_tuple decoder_final /\
    input_feed st' = unsqueeze0 (select0 n outs) /\
    coverage st' = None /\
    a = mkAttns p None None.
Proof.
  intros Hcls H; unfold forward in H.
  destruct (size tgt) as [|tl [|tb [|k [|? ?]]]] eqn:Htgt;
    try (unfold raise in H; discriminate).
  destruct (size mb) as [|m0 [|mbb [|m2 [|? ?]]]] eqn:Hmb;
    try (unfold raise in H; discriminate).
  inv_bind H as u w0 E; inv_lift E.
  inv_bind H as r w1 E1; destruct r as [[decoder_final decoder_outputs] attns'].
  unfold _run_forward_pass in E1; rewrite Hcls in E1.
  unfold Std_run_forward_pass in E1.
  inv_bind E1 as u1 w2 E2; inv_lift E2.
  inv_bind E1 as u2 w3 E3; inv_lift E3.
  inv_bind E1 as emb w4 E4.
  inv_bind E1 as ro w5 E5; destruct ro as [rnn_output dfinal].
  rewrite Htgt in E1.
  destruct (size rnn_output) as [|ol [|ob [|oc [|? ?]]]] eqn:Hro;
    try (unfold raise in E1; discriminate).
  inv_bind E1 as u3 w6 E6; inv_lift E6.
  inv_bind E1 as u4 w7 E7; inv_lift E7.
  inv_bind E1 as rot w8 E8; inv_lift E8.
  inv_bind E1 as mbt w9 E9; inv_lift E9.
  inv_bind E1 as op w10 E10; destruct op as [douts p_attn].
  inv_bind E1 as g w11 E11.
  inv_bind E1 as o w12 E12.
  inv_ret E1; inversion E1; subst decoder_final decoder_outputs attns'.
  inv_bind H as o_last w13 E13; inv_lift E13.
  inv_bind H as cov w14 E14; simpl in E14; inv_ret E14; subst cov.
  inv_bind H as so w15 E15; inv_lift E15.
  inv_bind H as sa w16 E16; inv_lift E16.
  inv_ret H; inversion H; subst outs st' a.
  assert (Hcp : _copy d = false)
    by (destruct (_copy d); [discriminate|reflexivity]).
  assert (Hcv : _coverage d = false)
    by (destruct (_coverage d); [discriminate|reflexivity]).
  assert (Hol : tl = ol)
    by (unfold aeq in E6; destruct (Nat.eqb_spec tl ol); [assumption|discriminate]).
  assert (Hob : tb = ob)
    by (unfold aeq in E7; destruct (Nat.eqb_spec tb ob); [assumption|discriminate]).
  simpl in E13, E15, E16.
  destruct (size o) as [|[|n] rest] eqn:Ho; try discriminate.
  unfold stack_attns in E16; simpl in E16.
  destruct (size p_attn) as [|[|m] prest]; try discriminate.
  simpl in E16.
  assert (o_last = select0 n o) by congruence.
  assert (so = o) by congruence.
  assert (sa = mkAttns p_attn None None) by congruence.
  subst o_last so sa tl tb.
  split; [exact Hcp|]. split; [exact Hcv|].
  exists ol, ob, k, rnn_output, dfinal, n, rest, p_attn.
  split; [reflexivity|]. split; [exists oc; exact Hro|].
  split.
  { destruct (rnn_is_GRU d).
    - destruct (hidden st) as [|h0 t] eqn:Hh;
        [unfold raise in E5; discriminate|].
      exists emb, w4, w5, (Single h0).
      split; [exact E4|]. split; [exact E5|].
      exists h0, t; split; reflexivity.
    - exists emb, w4, w5, (Tuple (hidden st)).
      split; [exact E4|]. split; [exact E5|reflexivity]. }
  split; [exact Ho|]. repeat split; reflexivity.
Qed.

(** X7.  A call of [forward] on a decoder set up without coverage
    attention that returns leaves no coverage in the decoder state,
    whatever coverage the incoming state carried, and no key
    ["coverage"] in the attentions. *)
Theorem forward_without_coverage_clears_it (d : RNNDecoderBase R W)
        tgt mb st ml idf w outs st' a w' :
  _coverage d = false ->
  forward tensor_add d tgt mb st ml idf w = (Ok (outs, st', a), w') ->
  coverage st' = None /\ attn_coverage a = None.
Proof.
  intros Hcov H; destruct (class_of d) eqn:Hcls.
  - destruct (Std_forward_ok _ _ _ _ _ _ _ Hcls H)
      as (_ & _ & tl & tb & k & ro & df & n & rest & p & _ & _ & _ & _ & _
          & _ & Hc & ->).
    split; [exact Hc|reflexivity].
  - apply InputFeed_forward_ok in H; [|exact Hcls].
    destruct H as (emb & w1 & s & o_last & _ & Hloop & _ & _ & Hst & _ & _ & Hc).
    destruct (attns_loop _ _ _ _ _ _ _ Hloop) as (Hkeep & _).
    destruct (Hkeep Hcov) as (_ & Hattn).
    unfold pass_start in Hattn; simpl in Hattn; rewrite Hcov in Hattn.
    rewrite Hattn in Hc; split; [exact Hc|].
    pose proof (stack_attns_ok _ Hst) as (_ & Ha).
    unfold wrap_lists in Ha; simpl in Ha; rewrite Hattn in Ha; exact Ha.
Qed.

(** X8.  A call of [forward] on a standard decoder that returns: the
    decoder was set up without copy and coverage attention; the recurrent
    network was called once, on the embeddings of the whole target (with
    the first hidden tensor for a GRU, the tuple of hidden tensors
    otherwise), and its output has the length and the batch dimension of
    the target; the hidden state of the new state is the final state of
    that call as a tuple, its input feed is the last time step of the
    outputs returned, and it has no coverage; the attentions hold the key
    ["std"] only. *)
Theorem Std_forward_returns (d : RNNDecoderBase R W) tgt mb st ml idf w
        outs st' a w' :
  class_of d = StdRNNDecoder ->
  forward tensor_add d tgt mb st ml idf w = (Ok (outs, st', a), w') ->
  _copy d = false /\ _coverage d = false /\
  (exists emb w1 h rnn_output decoder_final w2 tgt_len tgt_batch k c,
      emb_call (embeddings d) tgt w = (Ok emb, w1) /\
      rnn d emb h w1 = (Ok (rnn_output, decoder_final), w2) /\
      (if rnn_is_GRU d
       then exists h0 t, hidden st = h0 :: t /\ h = Single h0
       else h = Tuple (hidden st)) /\
      size tgt = [tgt_len; tgt_batch; k] /\
      size rnn_output = [tgt_len; tgt_batch; c] /\
      hidden st' = as_tuple decoder_final) /\
  (exists n rest,
      size outs = S n :: rest /\
      size (input_feed st') = 1 :: rest /\
      forall ix, get (input_feed st') (0 :: ix) = get outs (n :: ix)) /\
  coverage st' = None /\
  attn_copy a = None /\ attn_coverage a = None.
Proof.
  intros Hcls H.
  destruct (Std_forward_ok _ _ _ _ _ _ _ Hcls H)
    as (Hcp & Hcv & tlen & tb & k & ro & df & n & rest & p & Htgt & (c & Hro)
        & (emb & w1 & w2 & h & He & Hr & Hh) & Hsize & Hhid & Hfeed & Hc & ->).
  split; [exact Hcp|]. split; [exact Hcv|].
  split; [exists emb, w1, h, ro, df, w2, tlen, tb, k, c;
          repeat (split; [assumption|]); assumption|].
  split.
  - exists n, rest; split; [exact Hsize|].
    rewrite Hfeed; unfold unsqueeze0, select0; cbn [size get tl].
    rewrite Hsize; split; reflexivity.
  - repeat split; assumption || reflexivity.
Qed.


End ForwardMore.

Section InputFeedSetup.

Variables R W : Type.
Variable zero : R.
Variable tensor_add : tensor R -> tensor R -> result (tensor R).

Lemma split1_size (X : Type) (t e : tensor X) :
  In e (split1 t) -> size e = 1 :: tl (size t).
Proof.
  unfold split1; intros H; apply in_map_iff in H.
  destruct H as (i & <- & _); reflexivity.
Qed.

(** X10.  From a freshly constructed decoder state, when the embeddings
    return vectors of width [embedding_size], the first input given to
    the recurrent cell of an input-feeding decoder has the batch
    dimension of the state and the width [_input_size] the cell was
    built for, [embedding_size + hidden_size]. *)
Theorem first_input_has_declared_width (d : RNNDecoderBase R W)
        (rs : rnnstate R) (st : RNNDecoderState R)
        tgt mb ml idf w log r w' log' :
  class_of d = InputFeedRNNDecoder ->
  RNNDecoderState_init zero (hidden_size d) rs = Ok st ->
  (forall emb w1, emb_call (embeddings d) tgt w = (Ok emb, w1) ->
                  nth 2 (size emb) 0 = embedding_size (embeddings d)) ->
  forward tensor_add (log_rnn_inputs d) tgt mb st ml idf (w, log)
  = (Ok r, (w', log')) ->
  exists x rest b,
    log' = log ++ x :: rest /\
    size (input_feed st) = [1; b; hidden_size d] /\
    size x = [b; _input_size InputFeedRNNDecoder (embeddings d)
                             (hidden_size d)].
Proof.
  intros Hcls Hinit Hemb H; destruct r as [[outs st'] a].
  apply InputFeed_forward_ok in H; [|exact Hcls].
  destruct H as (emb & w1 & s & o_last & He & Hloop & Hlast & _).
  destruct w1 as [w1 l1]; simpl in He.
  apply keep_log_inv in He; destruct He as (He & ->).
  apply fed_back_loop in Hloop.
  destruct Hloop as (inputs & outs' & -> & Hfb & Hos & _).
  simpl in Hos, Hfb; rewrite Hos in Hlast.
  unfold RNNDecoderState_init in Hinit.
  destruct (as_tuple rs) as [|h0 hs]; [discriminate|].
  destruct (size h0) as [|s0 [|b srest]]; try discriminate.
  inversion Hinit; subst st; clear Hinit; cbn [input_feed] in *.
  destruct (split1 emb) as [|e0 embs] eqn:Hsplit;
    destruct inputs as [|x inputs]; destruct outs' as [|o outs'];
    simpl in Hfb; try contradiction; [discriminate|].
  destruct Hfb as (Hx & _).
  assert (He0 : size e0 = 1 :: tl (size emb))
    by (apply split1_size; rewrite Hsplit; left; reflexivity).
  exists x, inputs, b; split; [reflexivity|]. split; [reflexivity|].
  specialize (Hemb emb w1 He).
  unfold cat1, squeeze0 in Hx; rewrite He0 in Hx; cbn [size] in Hx.
  destruct (size emb) as [|t0 [|b' [|E erest]]]; simpl in Hx; try discriminate.
  simpl in Hemb; subst E.
  destruct (Nat.eqb_spec b' b) as [->|]; simpl in Hx; [|discriminate].
  destruct erest; simpl in Hx; [|discriminate].
  inversion Hx; subst x; reflexivity.
Qed.

End InputFeedSetup.

Lemma copy_attention_is_std_attention_witness :
  exists outs st' a w',
    forward Toy.add (Toy.decoder_of InputFeedRNNDecoder true false)
            Toy.tgt Toy.memory Toy.state0 None None tt
    = (Ok (outs, st', a), w') /\
    attn_copy a = Some (attn_std a) /\
    exists emb w1 ps,
      emb_call Toy.emb Toy.tgt tt = (Ok emb, w1) /\
      stack ps = Ok (attn_std a) /\
      length ps = length (split1 emb).
Proof.
  do 4 eexists; split; [reflexivity|].
  apply (@copy_attention_is_std_attention Z unit Toy.add
           (Toy.decoder_of InputFeedRNNDecoder true false)
           Toy.tgt Toy.memory Toy.state0 None None tt _ _ _ _
           eq_refl eq_refl).
Defined.

Lemma forward_without_coverage_clears_it_witness :
  exists outs st' a w',
    forward Toy.add (Toy.decoder_of InputFeedRNNDecoder false false)
            Toy.tgt Toy.memory Toy.state_with_coverage None None tt
    = (Ok (outs, st', a), w') /\
    coverage st' = None /\ attn_coverage a = None.
Proof.
  do 4 eexists; split; [reflexivity|].
  apply (@forward_without_coverage_clears_it Z unit Toy.add
           (Toy.decoder_of InputFeedRNNDecoder false false)
           Toy.tgt Toy.memory Toy.state_with_coverage None None tt _ _ _ _
           eq_refl eq_refl).
Defined.

Lemma Std_forward_returns_witness :
  exists outs st' a w',
    forward Toy.add Toy.std_decoder Toy.tgt Toy.memory Toy.state0 None None tt
    = (Ok (outs, st', a), w') /\
    (exists n rest,
        size outs = S n :: rest /\
        size (input_feed st') = 1 :: rest /\
        forall ix, get (input_feed st') (0 :: ix) = get outs (n :: ix)) /\
    coverage st' = None.
Proof.
  do 4 eexists; split; [reflexivity|].
  destruct (@Std_forward_returns Z unit Toy.add Toy.std_decoder
              Toy.tgt Toy.memory Toy.state0 None None tt _ _ _ _
              eq_refl eq_refl)
    as (_ & _ & _ & Hfeed & Hc & _).
  split; [exact Hfeed|exact Hc].
Defined.

Lemma first_input_has_declared_width_witness :
  exists r w' log',
    forward Toy.add
            (log_rnn_inputs (Toy.decoder_of InputFeedRNNDecoder true false))
            Toy.tgt Toy.memory Toy.state0 None None (tt, [])
    = (Ok r, (w', log')) /\
    exists x rest b,
      log' = [] ++ x :: rest /\
      size (input_feed Toy.state0) = [1; b; 3] /\
      size x = [b; 2 + 3].
Proof.
  do 3 eexists; split; [reflexivity|].
  refine (@first_input_has_declared_width Z unit 0%Z Toy.add
            (Toy.decoder_of InputFeedRNNDecoder true false)
            Toy.encoder_final Toy.state0
            Toy.tgt Toy.memory None None tt [] _ _ _ eq_refl eq_refl _
            eq_refl).
  intros emb w1 H; inversion H; reflexivity.
Defined.

(** * Further properties of the decoding loop *)

Section TranslatorMore.

Variables R W : Type.
Variable Beam : Type.
Variable done : Beam -> bool.
Variable get_current_state : Beam -> tensor Z.
Variable get_current_origin : Beam -> list nat.
Variables Scores HierAttns : Type.
Variable advance : Scores -> nat -> Beam -> result Beam.

Local Abbreviation current_inp :=
  (Translator.current_inp get_current_state).
Local Abbreviation advance_beams :=
  (@Translator.advance_beams R Beam get_current_origin Scores advance).
Local Abbreviation decode_step :=
  (@Translator.decode_step R W Beam get_current_state get_current_origin
     Scores HierAttns advance).
Local Abbreviation decode_loop :=
  (@Translator.decode_loop R W Beam done get_current_state get_current_origin
     Scores HierAttns advance).

(** Part (c) of a step of a text model without copy attention. *)
Lemma advance_beams_text_no_copy (tr : Translator.Translator) out j beams ds :
  Translator.copy_attn tr = false -> beams <> [] ->
  advance_beams tr text out j beams ds = Raise AttributeError.
Proof.
  intros Hc Hb; destruct beams as [|b rest]; [contradiction|].
  simpl; rewrite Hc; reflexivity.
Qed.

(** X11.  For a text model translated without copy attention, a step of
    the decoding loop on a non-empty list of beams never returns: when
    the tokens can be built and the decoder and the generator return, it
    raises [AttributeError] before any beam is advanced; hence the loop
    returns only when it makes no step at all. *)
Theorem text_without_copy_attention_cannot_step
        (tr : Translator.Translator)
        (model : Translator.Model R W Scores HierAttns) mem :
  Translator.copy_attn tr = false ->
  (forall st w st' w',
      Translator.beam st <> [] ->
      decode_step tr model text mem st w <> (Ok st', w')) /\
  (forall st w inp o ds a w1 out w2,
      Translator.beam st <> [] ->
      current_inp tr (Translator.beam st) = Ok inp ->
      Translator.decoder model inp (Translator.memory_bank mem)
        (Translator.dec_states st) (Translator.memory_lengths mem)
        (Translator.idf_attn_weights mem) w = (Ok (o, ds, a), w1) ->
      Translator.word_scores model false (squeeze0 o)
        (@Translator.TextAttn R HierAttns a) w1 = (Ok out, w2) ->
      decode_step tr model text mem st w = (Raise AttributeError, w2)) /\
  (forall rng st w st' w',
      decode_loop tr model text mem rng st w = (Ok st', w') ->
      st' = st /\ w' = w /\
      (rng = [] \/ forallb done (Translator.beam st) = true)).
Proof.
  intros Hc.
  assert (Hstep : forall st w st' w',
             Translator.beam st <> [] ->
             decode_step tr model text mem st w <> (Ok st', w')).
  { intros st w st' w' Hb H.
    unfold Translator.decode_step in H.
    inv_bind H as inp w0 E; inv_lift E.
    inv_bind H as r w1 E1; destruct r as [[dec_out ds] attn].
    inv_bind H as out w2 E2.
    inv_bind H as r w3 E3; inv_lift E3.
    rewrite (advance_beams_text_no_copy _ _ _ _ Hc Hb) in E3.
    discriminate. }
  split; [exact Hstep|]. split.
  - intros st w inp o ds a w1 out w2 Hb Hinp Hdec Hws.
    unfold Translator.decode_step, bind, lift, ret.
    rewrite Hinp, Hdec, Hc, Hws.
    rewrite (advance_beams_text_no_copy _ _ _ _ Hc Hb); reflexivity.
  - intros rng st w st' w' H.
    destruct rng as [|i rng]; simpl in H.
    + inversion H; auto.
    + destruct (forallb done (Translator.beam st)) eqn:Hd.
      * inversion H; auto.
      * exfalso.
        inv_bind H as st1 w1 E.
        apply Hstep in E; [exact E|].
        intros Hnil; rewrite Hnil in Hd; discriminate.
Qed.

Lemma stack_raises (X : Type) (ts : list (tensor X)) (e : exn) :
  stack ts = Raise e -> e = RuntimeError.
Proof.
  unfold stack; destruct ts as [|t0 ts]; [congruence|].
  destruct (forallb _ _); [discriminate|congruence].
Qed.

Lemma stack_same_sizes (X : Type) (ts : list (tensor X)) (t0 : tensor X)
      (s : list nat) :
  (forall t, In t (t0 :: ts) -> size t = s) ->
  exists st, stack (t0 :: ts) = Ok st /\ size st = S (length ts) :: s.
Proof.
  intros H; unfold stack.
  replace (forallb (fun t => sizes_eqb (size t) (size t0)) (t0 :: ts))
    with true.
  - eexists; split; [reflexivity|]; simpl.
    rewrite (H t0) by (left; reflexivity); reflexivity.
  - symmetry; apply forallb_forall; intros t Ht.
    rewrite (H t Ht), (H t0) by (left; reflexivity).
    clear; induction s as [|x s IH]; simpl; [reflexivity|].
    rewrite Nat.eqb_refl, IH; reflexivity.
Qed.

(** The tokens of a step before the unknown-word mask. *)
Lemma current_inp_ok (tr : Translator.Translator) (beams : list Beam)
      (inp : tensor Z) :
  current_inp tr beams = Ok inp ->
  exists b0 rest width,
    beams = b0 :: rest /\
    (forall b, In b beams -> size (get_current_state b) = [width]) /\
    size inp = [1; width * length beams; 1].
Proof.
  intros H; unfold Translator.current_inp in H.
  destruct (stack (map get_current_state beams)) as [stacked|e] eqn:Hstack;
    simpl in H; [|discriminate].
  apply stack_ok in Hstack.
  destruct Hstack as (t0 & Hhd & Hsizes & Hsize & Hget).
  rewrite length_map in Hsize.
  destruct beams as [|b0 rest]; [discriminate|].
  unfold Translator.t_ in H; rewrite Hsize in H.
  destruct (size t0) as [|width [|? ?]] eqn:Ht0; try discriminate.
  unfold transpose01 in H; rewrite Hsize in H; cbn [rbind] in H.
  rewrite view_row_ok in H; cbn [rbind] in H.
  apply (f_equal (fun r => match r with Ok x => x | Raise _ => inp end)) in H.
  cbv beta iota in H; subst inp.
  exists b0, rest, width; split; [reflexivity|]. split.
  - intros b Hb; apply Hsizes; apply in_map; exact Hb.
  - destruct (Translator.copy_attn tr);
      unfold Translator.unsqueeze2, Translator.masked_fill_gt;
      cbn [size firstn skipn app];
      unfold numel; simpl fold_right; rewrite !Nat.mul_1_r; reflexivity.
Qed.

(** X12.  The tokens of a step can be built exactly from a non-empty
    list of beams whose frontiers are vectors of one width: the call
    raises nothing but a runtime error (from [torch.stack] on no beam or
    on frontiers of different sizes, or from [t()] on frontiers that are
    not vectors); when it returns, the tensor has size
    [1 x width * len(beam) x 1]. *)
Theorem current_inp_needs_equal_frontiers (tr : Translator.Translator)
        (beams : list Beam) :
  (forall e, current_inp tr beams = Raise e -> e = RuntimeError) /\
  (forall inp, current_inp tr beams = Ok inp ->
     exists b0 rest width,
       beams = b0 :: rest /\
       (forall b, In b beams -> size (get_current_state b) = [width]) /\
       size inp = [1; width * length beams; 1]) /\
  (forall width,
     beams <> [] -> 0 < width ->
     (forall b, In b beams -> size (get_current_state b) = [width]) ->
     exists inp, current_inp tr beams = Ok inp).
Proof.
  split; [|split].
  - intros e H; unfold Translator.current_inp in H.
    destruct (stack (map get_current_state beams)) as [stacked|e0] eqn:Hstack;
      simpl in H.
    + unfold Translator.t_, transpose01 in H.
      destruct (size stacked) as [|a [|b0 [|? ?]]];
        cbn [rbind] in H; try congruence.
      rewrite view_row_ok in H; cbn [rbind] in H; discriminate.
    + apply stack_raises in Hstack; congruence.
  - intros inp H; apply (@current_inp_ok tr); exact H.
  - intros width Hne Hpos Hall.
    destruct beams as [|b0 rest]; [contradiction|].
    destruct (@stack_same_sizes Z (map get_current_state rest)
                (get_current_state b0) [width])
      as (st & Hst & Hsize).
    { intros t Ht; change (In t (map get_current_state (b0 :: rest))) in Ht.
      apply in_map_iff in Ht; destruct Ht as (b & <- & Hb); auto. }
    unfold Translator.current_inp.
    change (map get_current_state (b0 :: rest))
      with (get_current_state b0 :: map get_current_state rest).
    rewrite Hst; cbn [rbind].
    unfold Translator.t_, transpose01; rewrite Hsize; cbn [rbind].
    rewrite view_row_ok; cbn [rbind].
    eexists; reflexivity.
Qed.

(** X13.  Without copy attention the tokens are fed as they are: for
    every beam [j] (of frontier width [width]) and slot [k] the token at
    position [k * len(beam) + j] of the decoder input is the frontier
    token of that slot, whatever its value, so that the input follows
    the layout of the decoder state. *)
Theorem tokens_are_fed_unchanged_without_copy (tr : Translator.Translator)
        (beams : list Beam) (inp : tensor Z) (j k : nat) (b : Beam)
        (width : nat) :
  Translator.copy_attn tr = false ->
  current_inp tr beams = Ok inp ->
  nth_error beams j = Some b ->
  size (get_current_state b) = [width] ->
  k < width ->
  get inp [0; k * length beams + j; 0] = get (get_current_state b) [k].
Proof.
  intros Hcopy H Hb Hwidth Hk.
  unfold Translator.current_inp in H; rewrite Hcopy in H.
  destruct (stack (map get_current_state beams)) as [stacked|e] eqn:Hstack;
    simpl in H; [|discriminate].
  apply stack_ok in Hstack.
  destruct Hstack as (t0 & Hhd & Hsizes & Hsize & Hget).
  rewrite length_map in Hsize.
  assert (Ht0 : size t0 = [width]).
  { rewrite <- Hwidth; symmetry; apply Hsizes.
    apply in_map; eapply nth_error_In; exact Hb. }
  rewrite Ht0 in Hsize.
  unfold Translator.t_ in H; rewrite Hsize in H.
  unfold transpose01 in H; rewrite Hsize in H; cbn [rbind] in H.
  rewrite view_row_ok in H; cbn [rbind] in H.
  apply (f_equal (fun r => match r with Ok x => x | Raise _ => inp end)) in H.
  cbv beta iota in H; subst inp.
  set (tr0 := {| size := [width; length beams]; get := _ |}).
  change (size tr0) with [width; length beams].
  assert (Hj : j < length beams) by (apply nth_error_Some; congruence).
  assert (Hnth : nth j (map get_current_state beams) t0 = get_current_state b).
  { apply nth_error_nth; rewrite nth_error_map, Hb; reflexivity. }
  assert (Hfed : get tr0 [k; j] = get (get_current_state b) [k]).
  { subst tr0; cbn [get]; rewrite Hget, Hnth; reflexivity. }
  unfold Translator.unsqueeze2.
  rewrite !get_Tensor; cbn [firstn skipn app].
  rewrite unravel_row by exact Hj.
  exact Hfed.
Qed.

(** The entries of [e'] against those of [e] after the examples
    [j0, j0 + 1, ...] were re-indexed by the lists of [origins]: the
    slots of these examples are gathered, every other example is as it
    was. *)
Local Abbreviation moved B j0 origins :=
  (fun e e' : tensor R =>
     size e' = size e /\
     (forall i positions l k tl,
         nth_error origins i = Some positions ->
         get e' (l :: (k * B + (j0 + i)) :: tl)
         = get e (l :: (nth k positions 0 * B + (j0 + i)) :: tl)) /\
     (forall l m tl,
         m mod B < j0 \/ j0 + length origins <= m mod B ->
         get e' (l :: m :: tl) = get e (l :: m :: tl))).

Lemma mod_slot (k B j : nat) : j < B -> (k * B + j) mod B = j.
Proof.
  intros H; rewrite Nat.add_comm, Nat.Div0.mod_add; apply Nat.mod_small; lia.
Qed.

Lemma beam_update_tensor_effect (idx : nat) (positions : list nat)
      (beam_size B : nat) (e e' : tensor R) :
  has_batch (beam_size * B) e = true ->
  beam_update_tensor idx positions beam_size e = Ok e' ->
  idx < B /\ moved B idx [positions] e e'.
Proof.
  intros Hb H.
  apply has_batch_size in Hb; destruct Hb as (a & c & Hs).
  unfold beam_update_tensor in H; rewrite Hs in H; cbv zeta in H.
  destruct (Nat.eqb_spec beam_size 0) as [?|Hbs]; [discriminate|].
  assert (Hdiv : beam_size * B / beam_size = B)
    by (rewrite Nat.mul_comm; apply Nat.div_mul; lia).
  rewrite Hdiv in H.
  match type of H with
  | (if ?c then _ else _) = _ => destruct c; [discriminate|]
  end.
  destruct (Nat.ltb_spec idx B) as [Hidx|?]; [|discriminate].
  cbn [negb] in H.
  match type of H with
  | (if ?c then _ else _) = _ => destruct c; [discriminate|]
  end.
  match type of H with
  | (if ?c then _ else _) = _ => destruct c; [discriminate|]
  end.
  apply (f_equal (fun r => match r with Ok x => x | Raise _ => e end)) in H.
  cbv beta iota in H; subst e'.
  split; [exact Hidx|].
  split; [cbn [size]; symmetry; exact Hs|]. split.
  - intros i pos l k tl Hi.
    destruct i as [|i]; [|destruct i; discriminate].
    cbn [nth_error] in Hi; inversion Hi; subst pos.
    rewrite Nat.add_0_r, get_Tensor.
    assert (Hm : (k * B + idx) mod B = idx)
      by (rewrite Nat.add_comm, Nat.Div0.mod_add; apply Nat.mod_small; lia).
    assert (Hq : (k * B + idx) / B = k)
      by (rewrite Nat.div_add_l by lia; rewrite Nat.div_small by lia; lia).
    rewrite Hm, Hq, Nat.eqb_refl; reflexivity.
  - intros l m tl Hm; rewrite get_Tensor.
    cbn [length] in Hm.
    destruct (Nat.eqb_spec (m mod B) idx); [lia|reflexivity].
Qed.

Lemma beam_update_effect (idx : nat) (positions : list nat)
      (beam_size B : nat) (st st' : RNNDecoderState R) :
  state_batch (beam_size * B) st = true ->
  beam_update idx positions beam_size st = Ok st' ->
  idx < B /\ coverage st' = coverage st /\
  Forall2 (moved B idx [positions]) (_all st) (_all st').
Proof.
  intros Hst H.
  unfold state_batch, _all in Hst.
  rewrite forallb_app in Hst; apply andb_prop in Hst; destruct Hst as [Hh Hf].
  simpl in Hf; rewrite andb_true_r in Hf.
  unfold beam_update in H.
  destruct (rmap _ (hidden st)) as [hs'|e] eqn:Hhs; cbn [rbind] in H;
    [|discriminate].
  destruct (beam_update_tensor _ _ _ (input_feed st)) as [f'|e] eqn:Hf';
    cbn [rbind] in H; [|discriminate].
  inversion H; subst st'; clear H.
  destruct (@beam_update_tensor_effect _ _ _ _ _ _ Hf Hf') as (Hidx & Hm).
  split; [exact Hidx|]. split; [reflexivity|].
  unfold _all; cbn [hidden input_feed].
  apply Forall2_app.
  - apply (@rmap_ok_Forall2 _ _ _ _ _ _ Hhs).
    intros x y Hx Hy; rewrite forallb_forall in Hh.
    apply (@beam_update_tensor_effect _ _ _ _ _ _ (Hh x Hx) Hy).
  - constructor; [exact Hm|constructor].
Qed.

(** Part (c) of a step, from beam number [j0] on. *)
Lemma advance_beams_effect (tr : Translator.Translator) mt out (B : nat) :
  forall beams j0 ds beams' ds',
    j0 + length beams <= B ->
    state_batch (Translator.beam_size tr * B) ds = true ->
    advance_beams tr mt out j0 beams ds = Ok (beams', ds') ->
    Forall2 (fun b b' => exists j, advance out j b = Ok b') beams beams' /\
    (forall i b, nth_error beams i = Some b ->
       exists b', nth_error beams' i = Some b' /\
                  advance out (j0 + i) b = Ok b') /\
    coverage ds' = coverage ds /\
    state_batch (Translator.beam_size tr * B) ds' = true /\
    Forall2 (moved B j0 (map get_current_origin beams')) (_all ds) (_all ds').
Proof.
  induction beams as [|b rest IH]; intros j0 ds beams' ds' Hlen Hst H.
  - cbn [Translator.advance_beams] in H; inversion H; subst beams' ds'.
    split; [constructor|]. split; [intros [|i] b0 Hb0; discriminate|].
    split; [reflexivity|]. split; [exact Hst|].
    clear; induction (_all ds) as [|e es IHes]; constructor; [|exact IHes].
    split; [reflexivity|]. split; [|reflexivity].
    intros [|i] pos l k tl Hi; discriminate.
  - cbn [Translator.advance_beams] in H.
    match type of H with
    | rbind ?g _ = _ => destruct g as [u|e]; cbn [rbind] in H; [|discriminate]
    end.
    destruct (advance out j0 b) as [b1|e] eqn:Hadv; cbn [rbind] in H;
      [|discriminate].
    destruct (beam_update j0 (get_current_origin b1)
                          (Translator.beam_size tr) ds)
      as [ds1|e] eqn:Hup; cbn [rbind] in H; [|discriminate].
    destruct (Translator.advance_beams get_current_origin advance tr mt out
                (S j0) rest ds1) as [[rest' ds2]|e] eqn:Hrest;
      cbn [rbind fst snd] in H; [|discriminate].
    inversion H; subst beams' ds'; clear H.
    cbn [length] in Hlen.
    destruct (@beam_update_effect _ _ _ _ _ _ Hst Hup) as (Hj0 & Hcov1 & Hm1).
    assert (Hst1 : state_batch (Translator.beam_size tr * B) ds1 = true)
      by (eapply beam_update_batch; [exact Hst|exact Hup]).
    destruct (IH (S j0) ds1 rest' ds2) as (Hadvs & Hnth & Hcov2 & Hst2 & Hm2);
      [lia|exact Hst1|exact Hrest|].
    split; [constructor; [exists j0; exact Hadv|exact Hadvs]|].
    split.
    { intros [|i] b0 Hb0; cbn [nth_error] in Hb0.
      - inversion Hb0; subst b0; exists b1; split; [reflexivity|].
        rewrite Nat.add_0_r; exact Hadv.
      - destruct (Hnth i b0 Hb0) as (b' & Hb' & Ha).
        exists b'; split; [exact Hb'|].
        replace (j0 + S i) with (S j0 + i) by lia; exact Ha. }
    split; [congruence|]. split; [exact Hst2|].
    assert (Hlen' : length rest' = length rest)
      by (symmetry; eapply Forall2_length; exact Hadvs).
    refine (@Forall2_compose _ _ _ _ _ _ _ _ Hm1 Hm2).
    intros x y z (Hs1 & Hg1 & Hu1) (Hs2 & Hg2 & Hu2).
    split; [congruence|]. split.
    + intros [|i] pos l k tl Hi; cbn [map nth_error] in Hi.
      * inversion Hi; subst pos.
        rewrite Hu2.
        -- apply (Hg1 0); reflexivity.
        -- left; rewrite Nat.add_0_r, mod_slot by lia; lia.
      * assert (Hi' : i < length rest).
        { rewrite <- Hlen', <- (length_map get_current_origin).
          apply nth_error_Some; congruence. }
        replace (j0 + S i) with (S j0 + i) by lia.
        rewrite (Hg2 i pos l k tl Hi).
        apply Hu1.
        right; cbn [length]; rewrite mod_slot by lia; lia.
    + intros l m tl Hm; cbn [map length] in Hm.
      rewrite length_map, Hlen' in Hm.
      rewrite Hu2 by (rewrite length_map, Hlen'; lia).
      apply Hu1; cbn [length]; lia.
Qed.

(** X14.  Part (c) of a step that returns, for [B] beams and a decoder
    state of batch dimension [beam_size * B]: every beam was advanced
    once, with its own number; the state keeps its batch dimension and
    its coverage; and in every tensor of the state slot [k] of every
    example [j] holds what slot [origin_j[k]] of that example held in
    the state returned by the decoder, [origin_j] being the origins of
    beam [j] after its advance: the re-indexings of the examples do not
    interfere. *)
Theorem step_regathers_every_example (tr : Translator.Translator) mt out
        (beams beams' : list Beam) (ds ds' : RNNDecoderState R) :
  state_batch (Translator.beam_size tr * length beams) ds = true ->
  advance_beams tr mt out 0 beams ds = Ok (beams', ds') ->
  length beams' = length beams /\
  (forall j b, nth_error beams j = Some b ->
     exists b', nth_error beams' j = Some b' /\ advance out j b = Ok b') /\
  state_batch (Translator.beam_size tr * length beams) ds' = true /\
  coverage ds' = coverage ds /\
  Forall2 (regathered (length beams) (Translator.beam_size tr)
             (map get_current_origin beams'))
          (_all ds) (_all ds').
Proof.
  intros Hst H.
  destruct (@advance_beams_effect tr mt out (length beams) beams 0 ds
              beams' ds') as (Hadvs & Hnth & Hcov & Hst' & Hm);
    [simpl; lia|exact Hst|exact H|].
  split; [symmetry; eapply Forall2_length; exact Hadvs|].
  split; [exact Hnth|]. split; [exact Hst'|]. split; [exact Hcov|].
  eapply Forall2_impl; [|exact Hm].
  intros e e' (Hs & Hg & _); split; [exact Hs|].
  intros j pos l k tl Hj _; exact (Hg j pos l k tl Hj).
Qed.

End TranslatorMore.

Lemma text_without_copy_attention_cannot_step_witness :
  Translator.decode_step Toy.current_state Toy.current_origin Toy.beam_advance
    Toy.translator_without_copy Toy.model text Toy.mem
    (Translator.mkLoop Toy.beams Toy.loop_dec_state) tt
  = (Raise AttributeError, tt).
Proof.
  refine (proj1 (proj2
            (@text_without_copy_attention_cannot_step Z unit Toy.beam
               Toy.beam_done Toy.current_state Toy.current_origin unit unit
               Toy.beam_advance Toy.translator_without_copy Toy.model Toy.mem
               eq_refl))
            (Translator.mkLoop Toy.beams Toy.loop_dec_state) tt
            _ _ _ _ _ _ _ _ eq_refl eq_refl eq_refl).
  discriminate.
Defined.

Lemma current_inp_needs_equal_frontiers_witness :
  exists inp,
    Translator.current_inp Toy.current_state Toy.translator Toy.beams = Ok inp.
Proof.
  refine (proj2 (proj2
            (@current_inp_needs_equal_frontiers Toy.beam Toy.current_state
               Toy.translator Toy.beams)) 2 _ _ _).
  - discriminate.
  - lia.
  - intros b [<-|[<-|[]]]; reflexivity.
Defined.

Lemma tokens_are_fed_unchanged_without_copy_witness :
  exists inp,
    Translator.current_inp Toy.current_state Toy.translator_without_copy
      Toy.beams = Ok inp /\
    get inp [0; 1 * 2 + 1; 0] = 7%Z.
Proof.
  eexists; split; [reflexivity|].
  refine (@tokens_are_fed_unchanged_without_copy Toy.beam Toy.current_state
            Toy.translator_without_copy Toy.beams _ 1 1
            {| Toy.tokens := [15; 7]%Z; Toy.steps := 0 |} 2
            eq_refl eq_refl eq_refl eq_refl _).
  lia.
Defined.

Lemma step_regathers_every_example_witness :
  exists beams' ds',
    Translator.advance_beams Toy.current_origin Toy.beam_advance
      Toy.translator text tt 0 Toy.beams Toy.loop_dec_state
    = Ok (beams', ds') /\
    length beams' = 2 /\
    state_batch (2 * 2) ds' = true /\
    Forall2 (regathered 2 2 (map Toy.current_origin beams'))
            (_all Toy.loop_dec_state) (_all ds').
Proof.
  do 2 eexists; split; [reflexivity|].
  destruct (@step_regathers_every_example Z Toy.beam Toy.current_origin unit
              Toy.beam_advance Toy.translator text tt Toy.beams _
              Toy.loop_dec_state _ eq_refl eq_refl)
    as (Hlen & _ & Hst & _ & Hg).
  split; [exact Hlen|]. split; [exact Hst|exact Hg].
Defined.

(** * The mean encoder and the forward pass of the model *)

Section ModelFacts.

Variables R W : Type.
Variable zero : R.
Variable tensor_add : tensor R -> tensor R -> result (tensor R).
Variable mean_of : list R -> R.
Variables init_attn_outputs init_decoder_outputs : M W unit.

Local Abbreviation model_forward :=
  (@NMTModel_forward R W zero tensor_add init_attn_outputs
     init_decoder_outputs).

(** X15.  The forward pass of a model whose decoder is a standard
    decoder never returns: the class has no method [init_attn_history],
    so that, once the encoder has run and the decoder state is made, the
    call raises [AttributeError] and the decoder is not reached. *)
Theorem NMTModel_forward_rejects_standard_decoder (m : NMTModel R W)
        src tgt lengths dec_state w :
  class_of (model_decoder m) = StdRNNDecoder ->
  (forall r w', model_forward m src tgt lengths dec_state w <> (Ok r, w')) /\
  (forall enc_final memory_bank w1 st,
      size tgt <> [] ->
      model_encoder m src lengths w = (Ok (enc_final, memory_bank), w1) ->
      init_decoder_state zero (bidirectional_encoder (model_decoder m))
                         (hidden_size (model_decoder m)) enc_final = Ok st ->
      model_forward m src tgt lengths dec_state w
      = (Raise AttributeError, w1)).
Proof.
  intros Hcls; split.
  - intros r w' H; unfold NMTModel_forward in H.
    inv_bind H as tgt' w0 E0; inv_lift E0.
    inv_bind H as r1 w1 E1; destruct r1 as [enc_final memory_bank].
    inv_bind H as enc_state w2 E2; inv_lift E2.
    inv_bind H as u w3 E3.
    unfold init_attn_history in E3; rewrite Hcls in E3; discriminate.
  - intros enc_final memory_bank w1 st Htgt Henc Hinit.
    unfold NMTModel_forward, drop_last_row, bind, lift.
    destruct (size tgt) as [|n rest]; [contradiction|].
    rewrite Henc, Hinit.
    unfold init_attn_history; rewrite Hcls; reflexivity.
Qed.

Lemma length_split1 (X : Type) (t : tensor X) :
  length (split1 t) = hd 0 (size t).
Proof. unfold split1; rewrite length_map, length_seq; reflexivity. Qed.

(** X16.  The forward pass of a model with an input-feeding decoder,
    whose embeddings keep the length of their input, returns only for a
    target of at least two rows, and the decoder outputs and the
    attention it returns have one row less than the target: the last
    target row is never an input.  With [multigpu] the attentions and
    the state returned are [None]. *)
Theorem NMTModel_forward_drops_last_target_row (m : NMTModel R W)
        src tgt lengths dec_state w outs a st w' :
  class_of (model_decoder m) = InputFeedRNNDecoder ->
  (forall t emb w0 w1,
      emb_call (embeddings (model_decoder m)) t w0 = (Ok emb, w1) ->
      hd 0 (size emb) = hd 0 (size t)) ->
  model_forward m src tgt lengths dec_state w = (Ok (outs, a, st), w') ->
  exists n batch k rest,
    size tgt = [S (S n); batch; k] /\
    size outs = S n :: rest /\
    if multigpu m then a = None /\ st = None
    else exists a' st' arest,
        a = Some a' /\ st = Some st' /\ size (attn_std a') = S n :: arest.
Proof.
  intros Hcls Hemb H; unfold NMTModel_forward in H.
  inv_bind H as tgt' w0 E0; inv_lift E0.
  inv_bind H as r1 w1 E1; destruct r1 as [enc_final memory_bank].
  inv_bind H as enc_state w2 E2; inv_lift E2.
  inv_bind H as u w3 E3.
  inv_bind H as r2 w4 E4; destruct r2 as [[douts dst] dattns].
  pose proof E4 as Hfw.
  apply InputFeed_forward_ok in E4; [|exact Hcls].
  destruct E4 as (emb & w5 & s & o_last & He & Hloop & Hlast & Hstack
                  & Hattns & _).
  destruct (@attns_loop _ _ _ _ _ _ _ _ _ _ _ _ Hloop)
    as (_ & _ & _ & Hlstd & Hlout).
  unfold pass_start in Hlstd, Hlout; cbn [ps_attns ps_decoder_outputs
    attn_std length Nat.add] in Hlstd, Hlout.
  rewrite length_split1, (Hemb _ _ _ _ He) in Hlstd, Hlout.
  apply stack_ok in Hstack.
  destruct Hstack as (t0 & _ & _ & Hsize & _).
  pose proof (@stack_attns_ok _ _ _ Hattns) as (Hstd & _).
  unfold wrap_lists in Hstd; cbn [attn_std py_stack] in Hstd.
  apply stack_ok in Hstd.
  destruct Hstd as (p0 & _ & _ & Hpsize & _).
  unfold drop_last_row in E0.
  destruct (size tgt) as [|n0 trest] eqn:Htgt; [discriminate|].
  apply (f_equal (fun r => match r with Ok x => size x | Raise _ => [] end))
    in E0; cbn [size] in E0.
  unfold forward in Hfw.
  destruct (size tgt') as [|tl' [|tb [|k [|? ?]]]] eqn:Htgt';
    try (unfold raise in Hfw; discriminate).
  inversion E0; subst tl' trest; clear E0.
  cbn [hd] in Hlstd, Hlout.
  destruct (ps_decoder_outputs s) as [|o os] eqn:Houts; [discriminate|].
  cbn [length] in Hlout.
  destruct n0 as [|[|n]]; try discriminate.
  exists n, tb, k, (size t0).
  split; [reflexivity|].
  assert (Hdone :
    (outs, a, st)
    = (if multigpu m then (douts, None, None)
       else (douts, Some dattns, Some dst)) /\ w' = w4).
  { destruct (multigpu m); apply ret_ok in H; destruct H as (H & ->);
      split; congruence. }
  destruct Hdone as (Hdone & _).
  cbn [pred] in Hlout, Hlstd.
  split.
  - assert (outs = douts) by (destruct (multigpu m); congruence).
    subst outs; rewrite Hsize; cbn [length]; rewrite Hlout; reflexivity.
  - destruct (multigpu m).
    + split; congruence.
    + exists dattns, dst, (size p0).
      split; [congruence|]. split; [congruence|].
      rewrite Hpsize, Hlstd; reflexivity.
Qed.

(** X17.  A mean encoder refuses source lengths that do not match the
    batch of the source, with an assertion error, before it calls its
    embeddings.  When it returns, the memory bank is the embedded
    source, of size [s_len x batch x emb_dim]; the final state is twice
    the same tensor of size [num_layers x batch x emb_dim], every layer
    of which holds the means of the embeddings over the source
    positions; and [init_decoder_state] of a decoder without
    bidirectional encoder accepts it and gives a state of two hidden
    tensors and batch dimension [batch]. *)
Theorem MeanEncoder_forward_feeds_decoder_state (self : MeanEncoder R W)
        (src : tensor Z) (lengths : option (tensor Z)) (w : W) :
  (forall l s_len n_batch n_feats n,
      lengths = Some l -> size src = [s_len; n_batch; n_feats] ->
      size l = [n] -> n <> n_batch ->
      MeanEncoder_forward mean_of self src lengths w
      = (Raise AssertionError, w)) /\
  (forall encoder_final memory_bank w' hidden_size,
      MeanEncoder_forward mean_of self src lengths w
      = (Ok (encoder_final, memory_bank), w') ->
      exists s_len batch emb_dim mean st,
        emb_call (enc_embeddings self) src w = (Ok memory_bank, w') /\
        size memory_bank = [s_len; batch; emb_dim] /\
        encoder_final = Tuple [mean; mean] /\
        size mean = [enc_num_layers self; batch; emb_dim] /\
        (forall l b k,
            get mean [l; b; k]
            = mean_of (map (fun i => get memory_bank [i; b; k])
                           (seq 0 s_len))) /\
        init_decoder_state zero false hidden_size encoder_final = Ok st /\
        hidden st = [mean; mean] /\
        size (input_feed st) = [1; batch; hidden_size] /\
        state_batch batch st = true).
Proof.
  split.
  - intros l s_len n_batch n_feats n -> Hsrc Hl Hn.
    unfold MeanEncoder_forward, _check_args, bind, lift.
    rewrite Hsrc, Hl, aeq_neq by congruence; reflexivity.
  - intros encoder_final memory_bank w' hidden_size H.
    unfold MeanEncoder_forward in H.
    inv_bind H as u w0 E0; inv_lift E0.
    inv_bind H as emb w1 E1.
    destruct (size emb) as [|s_len [|batch [|emb_dim [|? ?]]]] eqn:Hemb;
      try (unfold raise in H; discriminate).
    apply ret_ok in H; destruct H as (H & ->).
    inversion H; subst encoder_final memory_bank; clear H.
    set (mean := expand_layers (enc_num_layers self) (mean0 mean_of emb)).
    assert (Hmean : size mean = [enc_num_layers self; batch; emb_dim])
      by (unfold mean, expand_layers, mean0; cbn [size]; rewrite Hemb;
          reflexivity).
    assert (Hinit :
      init_decoder_state zero false hidden_size (Tuple [mean; mean])
      = Ok {| hidden := [mean; mean];
              input_feed := unsqueeze0 (zeros zero [batch; hidden_size]);
              coverage := None |}).
    { unfold init_decoder_state, _fix_enc_hidden; cbn [rmap rbind].
      unfold RNNDecoderState_init; cbn [as_tuple]; rewrite Hmean.
      reflexivity. }
    exists s_len, batch, emb_dim, mean; eexists.
    split; [exact E1|]. split; [exact Hemb|]. split; [reflexivity|].
    split; [exact Hmean|]. split.
    { intros l b k; unfold mean, expand_layers, mean0.
      rewrite !get_Tensor; cbn [tl]; rewrite Hemb; reflexivity. }
    split; [exact Hinit|]. split; [reflexivity|]. split; [reflexivity|].
    unfold state_batch, _all; cbn [hidden input_feed app forallb].
    unfold has_batch; rewrite Hmean; cbn [unsqueeze0 zeros size].
    rewrite !Nat.eqb_refl; reflexivity.
Qed.

End ModelFacts.

Lemma NMTModel_forward_rejects_standard_decoder_witness :
  NMTModel_forward 0%Z Toy.add Toy.reset Toy.reset (Toy.nmt Toy.std_decoder)
    Toy.src Toy.target (Some Toy.src_lengths) None tt
  = (Raise AttributeError, tt).
Proof.
  refine (proj2 (@NMTModel_forward_rejects_standard_decoder Z unit 0%Z
                   Toy.add Toy.reset Toy.reset (Toy.nmt Toy.std_decoder)
                   Toy.src Toy.target (Some Toy.src_lengths) None tt eq_refl)
                _ _ tt _ _ eq_refl eq_refl).
  discriminate.
Defined.

Lemma NMTModel_forward_drops_last_target_row_witness :
  exists outs a st w',
    NMTModel_forward 0%Z Toy.add Toy.reset Toy.reset
      (Toy.nmt (Toy.decoder_of InputFeedRNNDecoder true false))
      Toy.src Toy.target (Some Toy.src_lengths) None tt
    = (Ok (outs, a, st), w') /\
    exists n batch k rest,
      size Toy.target = [S (S n); batch; k] /\
      size outs = S n :: rest /\
      exists a' st' arest,
        a = Some a' /\ st = Some st' /\ size (attn_std a') = S n :: arest.
Proof.
  do 4 eexists; split; [reflexivity|].
  refine (@NMTModel_forward_drops_last_target_row Z unit 0%Z Toy.add
            Toy.reset Toy.reset
            (Toy.nmt (Toy.decoder_of InputFeedRNNDecoder true false))
            Toy.src Toy.target (Some Toy.src_lengths) None tt _ _ _ _
            eq_refl _ eq_refl).
  intros t emb w0 w1 H; inversion H; cbn [size].
  destruct (size t); reflexivity.
Defined.

Lemma MeanEncoder_forward_feeds_decoder_state_witness :
  exists encoder_final memory_bank st,
    MeanEncoder_forward Toy.mean_of Toy.mean_encoder Toy.src
      (Some Toy.src_lengths) tt = (Ok (encoder_final, memory_bank), tt) /\
    init_decoder_state 0%Z false 3 encoder_final = Ok st /\
    state_batch 2 st = true.
Proof.
  destruct (proj2 (@MeanEncoder_forward_feeds_decoder_state Z unit 0%Z
                     Toy.mean_of Toy.mean_encoder Toy.src
                     (Some Toy.src_lengths) tt)
                  _ _ tt 3 eq_refl)
    as (s_len & batch & emb_dim & mean & st & He & Hs & Hf & Hm & _ & Hi
        & _ & _ & Hb).
  do 2 eexists; exists st; split; [reflexivity|].
  split; [exact Hi|].
  cbv [size Toy.src iota nth] in Hs.
  injection Hs as _ Hbatch _; rewrite Hbatch; exact Hb.
Defined.

(** * The statistics and the report of [translate] *)

Section StatisticsFacts.

Variable F : Type.
Variable float_zero : F.
Variable float_add : F -> F -> F.
Variable Word : Type.
Variable float_div : F -> Z -> F.
Variable float_neg : F -> F.
Variable exp_overflows : F -> bool.

Local Abbreviation count_batches :=
  (@Translator.count_batches F float_add Word).
Local Abbreviation count_translations :=
  (@Translator.count_translations F float_add Word).
Local Abbreviation report_statistics :=
  (@Translator.report_statistics F float_div float_neg exp_overflows).

(** The words of the first prediction of each translation, and the words
    of each reference with its end token. *)
Local Abbreviation predicted_words ts :=
  (list_sum
     (map (fun t : Translator.Translation F Word =>
             length (hd [] (Translator.pred_sents t))) ts)).
Local Abbreviation reference_words ts :=
  (list_sum
     (map (fun t : Translator.Translation F Word =>
             S (length (Translator.gold_sent t))) ts)).

Lemma _report_score_returns (name : Translator.report_name) (s : F) (n : Z) :
  n <> 0%Z ->
  exists lines,
    Translator._report_score float_div float_neg exp_overflows name s n
    = Ok lines.
Proof.
  intros Hn.
  unfold Translator._report_score, Translator.py_div, Translator.math_exp.
  destruct (Z.eqb_spec n 0) as [?|_]; [contradiction|]; simpl.
  destruct (exp_overflows (float_div (float_neg s) n));
    eexists; reflexivity.
Qed.

Lemma list_sum_cons (x : nat) (l : list nat) :
  list_sum (x :: l) = x + list_sum l.
Proof. reflexivity. Qed.

Lemma count_translations_totals (has_tgt : bool) ts :
  forall st st',
    count_translations has_tgt ts st = Ok st' ->
    length (Translator.all_scores st')
    = length (Translator.all_scores st) + length ts /\
    Translator.pred_words_total st'
    = (Translator.pred_words_total st + Z.of_nat (predicted_words ts))%Z /\
    Translator.gold_words_total st'
    = (Translator.gold_words_total st
       + if has_tgt then Z.of_nat (reference_words ts) else 0)%Z.
Proof.
  induction ts as [|t ts IH]; intros st st' H; simpl in H.
  - inversion H; subst; simpl; repeat split; try lia.
    destruct has_tgt; lia.
  - destruct (Translator.count_translation float_add has_tgt st t)
      as [st1|e] eqn:H1; cbn [rbind] in H; [|discriminate].
    destruct (IH _ _ H) as (Ha & Hp & Hg).
    unfold Translator.count_translation in H1.
    destruct (Translator.pred_scores t) as [|s0 ?]; [discriminate|].
    destruct (Translator.pred_sents t) as [|p0 ?] eqn:Hps; [discriminate|].
    inversion H1; subst st1; clear H1.
    cbn [Translator.all_scores Translator.pred_words_total
         Translator.gold_words_total] in Ha, Hp, Hg.
    rewrite length_app in Ha; cbn [length] in Ha.
    cbn [map length]; rewrite !list_sum_cons, Hps; cbn [hd].
    repeat split; [lia|lia|].
    destruct has_tgt; lia.
Qed.

Lemma count_batches_totals (has_tgt : bool) batches :
  forall st st',
    count_batches has_tgt batches st = Ok st' ->
    length (Translator.all_scores st')
    = length (Translator.all_scores st) + length (concat batches) /\
    Translator.pred_words_total st'
    = (Translator.pred_words_total st
       + Z.of_nat (predicted_words (concat batches)))%Z /\
    Translator.gold_words_total st'
    = (Translator.gold_words_total st
       + if has_tgt then Z.of_nat (reference_words (concat batches))
         else 0)%Z.
Proof.
  induction batches as [|ts batches IH]; intros st st' H; simpl in H.
  - inversion H; subst; simpl; repeat split; try lia.
    destruct has_tgt; lia.
  - destruct (Translator.count_translations float_add has_tgt ts st)
      as [st1|e] eqn:H1; cbn [rbind] in H; [|discriminate].
    destruct (count_translations_totals _ _ _ H1) as (Ha1 & Hp1 & Hg1).
    destruct (IH _ _ H) as (Ha & Hp & Hg).
    cbn [concat]; rewrite !map_app, !list_sum_app, length_app.
    repeat split; [lia|lia|].
    destruct has_tgt; lia.
Qed.

Lemma reference_words_bound (ts : list (Translator.Translation F Word)) :
  length ts <= reference_words ts.
Proof. induction ts as [|t ts IH]; simpl; lia. Qed.

Lemma predicted_words_none (ts : list (Translator.Translation F Word)) :
  predicted_words ts = 0 -> ts = [] \/ reference_words ts <> 0.
Proof. destruct ts; [left; reflexivity|right; simpl; lia]. Qed.

(** X18.  The totals of [translate] after all batches were counted: one
    score per translation; the predicted words are those of the first
    prediction of every translation, the reference words, counted only
    with a target file, those of every reference plus one.  On these
    totals the final report raises nothing but [ZeroDivisionError], and
    it raises it exactly when no word was predicted at all: the report
    of the references never fails on its own. *)
Theorem report_fails_exactly_without_predicted_words (has_tgt : bool)
        (batches : list (list (Translator.Translation F Word)))
        (st : Translator.statistics F) :
  count_batches has_tgt batches (Translator.statistics_start float_zero)
  = Ok st ->
  length (Translator.all_scores st) = length (concat batches) /\
  Translator.pred_words_total st
  = Z.of_nat (predicted_words (concat batches)) /\
  Translator.gold_words_total st
  = (if has_tgt then Z.of_nat (reference_words (concat batches)) else 0%Z) /\
  (forall e, report_statistics true has_tgt st = Raise e ->
             e = ZeroDivisionError) /\
  (report_statistics true has_tgt st = Raise ZeroDivisionError
   <-> predicted_words (concat batches) = 0).
Proof.
  intros H.
  destruct (count_batches_totals _ _ _ H) as (Ha & Hp & Hg).
  cbn [Translator.statistics_start Translator.all_scores
       Translator.pred_words_total Translator.gold_words_total length] in *.
  rewrite Z.add_0_l in Hp, Hg.
  split; [lia|]. split; [exact Hp|]. split; [exact Hg|].
  assert (Hzero : predicted_words (concat batches) = 0 ->
                  report_statistics true has_tgt st = Raise ZeroDivisionError).
  { intros Hz; unfold Translator.report_statistics, Translator.report_scores.
    rewrite Hp, Hz; reflexivity. }
  assert (Hpos : predicted_words (concat batches) <> 0 ->
                 exists lines, report_statistics true has_tgt st = Ok lines).
  { intros Hnz; unfold Translator.report_statistics, Translator.report_scores.
    destruct (@_report_score_returns Translator.PRED
                (Translator.pred_score_total st)
                (Translator.pred_words_total st)) as (p & Hpr); [lia|].
    rewrite Hpr; cbn [rbind].
    destruct has_tgt; [|eexists; reflexivity].
    destruct (@_report_score_returns Translator.GOLD
                (Translator.gold_score_total st)
                (Translator.gold_words_total st)) as (g & Hgr).
    { rewrite Hg.
      pose proof (reference_words_bound (concat batches)).
      destruct (concat batches); [simpl in Hnz; contradiction|].
      cbn [length] in *; lia. }
    rewrite Hgr; cbn [rbind]; eexists; reflexivity. }
  split.
  - intros e He.
    destruct (Nat.eq_dec (predicted_words (concat batches)) 0) as [Hz|Hnz].
    + rewrite (Hzero Hz) in He; congruence.
    + destruct (Hpos Hnz) as (lines & Hl); congruence.
  - split; [|exact Hzero].
    intros He.
    destruct (Nat.eq_dec (predicted_words (concat batches)) 0) as [Hz|Hnz];
      [exact Hz|].
    destruct (Hpos Hnz) as (lines & Hl); congruence.
Qed.

End StatisticsFacts.

Lemma report_fails_exactly_without_predicted_words_witness :
  exists st,
    Translator.count_batches Z.add true Toy.translations
      (Translator.statistics_start 0%Z) = Ok st /\
    Translator.pred_words_total st = 2%Z /\
    Translator.gold_words_total st = 5%Z /\
    (Translator.report_statistics Toy.float_div Toy.float_neg
       Toy.exp_overflows true true st = Raise ZeroDivisionError
     <-> 2 = 0).
Proof.
  eexists; split; [reflexivity|].
  destruct (@report_fails_exactly_without_predicted_words Z 0%Z Z.add nat
              Toy.float_div Toy.float_neg Toy.exp_overflows true
              Toy.translations _ eq_refl)
    as (_ & Hp & Hg & _ & Hz).
  split; [exact Hp|]. split; [exact Hg|exact Hz].
Defined.

(** * The extraction of the hypotheses from the beams *)

Section FromBeamFacts.

Variable Beam : Type.
Variables Hyp Attn Copy ContextAttn Scores : Type.
Variable sort_finished : nat -> Beam -> Scores * list (nat * nat).
Variable has_copy_p : Beam -> bool.
Variable get_hyp : Beam -> nat -> nat -> Translator.hyp_tuple Hyp Attn Copy ContextAttn.

Local Abbreviation collect_hyps :=
  (@Translator.collect_hyps Beam Hyp Attn Copy ContextAttn has_copy_p get_hyp).
Local Abbreviation from_beam_loop :=
  (@Translator.from_beam_loop Beam Hyp Attn Copy ContextAttn Scores
     sort_finished has_copy_p get_hyp).
Local Abbreviation _from_beam :=
  (@Translator._from_beam Beam Hyp Attn Copy ContextAttn Scores
     sort_finished has_copy_p get_hyp).

(** The number of hypotheses taken from a beam, and the number of its
    copy entries. *)
Local Abbreviation taken n_best b :=
  (length (firstn n_best (snd (sort_finished n_best b)))).
Local Abbreviation copies n_best b :=
  (if has_copy_p b then taken n_best b else 0).

Lemma collect_hyps_lengths (b : Beam) ks :
  forall acc l,
    collect_hyps b ks acc = Ok l ->
    length (Translator.hyps l) = length (Translator.hyps acc) + length ks /\
    length (Translator.attn l) = length (Translator.attn acc) + length ks /\
    length (Translator.context_attn l)
    = length (Translator.context_attn acc) + length ks /\
    length (Translator.copy l)
    = length (Translator.copy acc)
      + (if has_copy_p b then length ks else 0).
Proof.
  induction ks as [|[times k] ks IH]; intros acc l H; simpl in H.
  - inversion H; subst; destruct (has_copy_p b); simpl; lia.
  - destruct (has_copy_p b) eqn:Hc;
      destruct (get_hyp b times k) as [h a c|h a cp c];
      cbn [rbind] in H; try discriminate;
      destruct (IH _ _ H) as (H1 & H2 & H3 & H4);
      cbn [Translator.hyps Translator.attn Translator.copy
           Translator.context_attn] in *;
      rewrite ?length_app in *; cbn [length] in *; lia.
Qed.

Lemma collect_hyps_raises (b : Beam) ks :
  forall acc e, collect_hyps b ks acc = Raise e -> e = ValueError.
Proof.
  induction ks as [|[times k] ks IH]; intros acc e H; simpl in H.
  - discriminate.
  - destruct (has_copy_p b);
      destruct (get_hyp b times k) as [h a c|h a cp c];
      cbn [rbind] in H; try congruence; eapply IH; exact H.
Qed.

(** The loop over the beams. *)
Lemma from_beam_loop_ok (n_best : nat) beam :
  forall ret copy_var ret' copy_var',
    from_beam_loop n_best beam ret copy_var = Ok (ret', copy_var') ->
    (exists ps atts ctxs,
        Translator.predictions ret' = Translator.predictions ret ++ ps /\
        Translator.attention ret' = Translator.attention ret ++ atts /\
        Translator.context_attention ret'
        = Translator.context_attention ret ++ ctxs /\
        Forall2 (fun b hs => length hs = taken n_best b) beam ps /\
        Forall2 (fun b hs => length hs = taken n_best b) beam atts /\
        Forall2 (fun b hs => length hs = taken n_best b) beam ctxs) /\
    Translator.scores ret'
    = Translator.scores ret ++ map (fun b => fst (sort_finished n_best b)) beam /\
    (forall cs0, Translator.ret_copy ret = Some cs0 ->
       exists cs,
         Translator.ret_copy ret' = Some (cs0 ++ cs) /\
         Forall (fun c => c <> []) cs /\
         length cs
         = length (filter (fun b => negb (copies n_best b =? 0)) beam)) /\
    match beam with
    | [] => copy_var' = copy_var
    | b0 :: rest =>
        exists c, copy_var' = Some c /\
                  length c = copies n_best (last beam b0)
    end.
Proof.
  induction beam as [|b beam IH]; intros ret cv ret' cv' H.
  - cbn [Translator.from_beam_loop] in H; inversion H; subst ret' cv'.
    split; [exists [], [], []; rewrite !app_nil_r;
            repeat split; constructor|].
    split; [cbn [map]; rewrite app_nil_r; reflexivity|].
    split; [|reflexivity].
    intros cs0 Hc; exists []; rewrite app_nil_r.
    split; [exact Hc|]. split; [constructor|reflexivity].
  - cbn [Translator.from_beam_loop] in H.
    destruct (sort_finished n_best b) as [scores_b ks] eqn:Hsort.
    destruct (collect_hyps b (firstn n_best ks)
                (Translator.mkLists [] [] [] [])) as [l|e] eqn:Hl;
      cbn [rbind] in H; [|discriminate].
    destruct (collect_hyps_lengths _ _ _ Hl) as (Lh & La & Lx & Lc).
    cbn [Translator.hyps Translator.attn Translator.copy
         Translator.context_attn length Nat.add] in Lh, La, Lx, Lc.
    destruct (IH _ _ _ _ H) as ((ps & atts & ctxs & Hp & Ha & Hx
                                 & Fp & Fa & Fx) & Hs & Hcopy & Hlast).
    cbn [Translator.predictions Translator.attention Translator.scores
         Translator.context_attention Translator.ret_copy] in Hp, Ha, Hx, Hs,
         Hcopy.
    assert (Htaken : taken n_best b = length (firstn n_best ks))
      by (rewrite Hsort; reflexivity).
    split.
    { exists (Translator.hyps l :: ps), (Translator.attn l :: atts),
             (Translator.context_attn l :: ctxs).
      rewrite Hp, Ha, Hx, <- !app_assoc; cbn [app].
      repeat split; constructor; try assumption; congruence. }
    split.
    { rewrite Hs, <- app_assoc; cbn [app map]; rewrite Hsort; reflexivity. }
    split.
    { intros cs0 Hc0; cbn [filter].
      assert (Hcb : copies n_best b = length (Translator.copy l))
        by (rewrite Htaken, Lc; reflexivity).
      rewrite Hcb.
      destruct (Nat.eqb_spec (length (Translator.copy l)) 0) as [Hz|Hnz];
        cbn [negb] in *.
      - destruct (Hcopy cs0 Hc0) as (cs & Hr & Fc & Hlen).
        exists cs; repeat split; assumption.
      - rewrite Hc0 in Hcopy; cbn [option_map] in Hcopy.
        destruct (Hcopy _ eq_refl) as (cs & Hr & Fc & Hlen).
        exists (Translator.copy l :: cs).
        rewrite Hr, <- app_assoc; cbn [app length].
        repeat split; [|lia].
        constructor; [|exact Fc].
        intros Hnil; rewrite Hnil in Hnz; contradiction. }
    destruct beam as [|b1 beam'].
    + exists (Translator.copy l); split; [congruence|].
      cbn [last]; rewrite Htaken, Lc; reflexivity.
    + destruct Hlast as (c & Hc & Hlen); exists c; split; [exact Hc|].
      rewrite (@last_cons _ b b (b1 :: beam')), (@last_cons _ b1 b beam').
      rewrite (@last_cons _ b1 b1 beam') in Hlen; exact Hlen.
Qed.

Lemma from_beam_loop_raises (n_best : nat) beam :
  forall ret copy_var e,
    from_beam_loop n_best beam ret copy_var = Raise e -> e = ValueError.
Proof.
  induction beam as [|b beam IH]; intros ret cv e H.
  - discriminate.
  - cbn [Translator.from_beam_loop] in H.
    destruct (sort_finished n_best b) as [scores_b ks].
    destruct (collect_hyps b (firstn n_best ks)
                (Translator.mkLists [] [] [] [])) as [l|e0] eqn:Hl;
      cbn [rbind] in H.
    + eapply IH; exact H.
    + apply collect_hyps_raises in Hl; congruence.
Qed.

(** X19.  [_from_beam] on no beam raises [UnboundLocalError] (the
    variable [copy] is read after a loop that never ran); on beams it
    raises nothing but the [ValueError] of a hypothesis of the wrong
    arity; and when it returns, the predictions, scores, attentions and
    context attentions have one entry per beam, in the order of the
    beams, the entry of a beam holding its scores, respectively one item
    for each of its first [n_best] finished hypotheses. *)
Theorem from_beam_has_one_entry_per_beam (n_best : nat) (beam : list Beam) :
  (beam = [] -> _from_beam n_best beam = inr (Translator.UnboundLocalError)) /\
  (forall e, _from_beam n_best beam = inr e ->
     (e = Translator.UnboundLocalError /\ beam = []) \/
     e = Translator.Exn ValueError) /\
  (forall ret, _from_beam n_best beam = inl ret ->
     Translator.scores ret = map (fun b => fst (sort_finished n_best b)) beam /\
     Forall2 (fun b hs => length hs = taken n_best b)
             beam (Translator.predictions ret) /\
     Forall2 (fun b hs => length hs = taken n_best b)
             beam (Translator.attention ret) /\
     Forall2 (fun b hs => length hs = taken n_best b)
             beam (Translator.context_attention ret)).
Proof.
  split; [intros ->; reflexivity|].
  unfold Translator._from_beam.
  destruct (from_beam_loop n_best beam
              (Translator.mkRet [] [] [] (Some []) []) None)
    as [[ret' cv']|e0] eqn:Hloop.
  - destruct (from_beam_loop_ok _ _ _ _ Hloop)
      as ((ps & atts & ctxs & Hp & Ha & Hx & Fp & Fa & Fx) & Hs & _ & Hlast).
    cbn [Translator.predictions Translator.attention Translator.scores
         Translator.context_attention app] in Hp, Ha, Hx, Hs.
    split.
    + intros e He; destruct cv' as [c|].
      * destruct (length c =? 0); discriminate.
      * left; split; [congruence|].
        destruct beam as [|b0 rest]; [reflexivity|].
        destruct Hlast as (c & Hc & _); discriminate.
    + intros ret Hret; destruct cv' as [c|]; [|discriminate].
      assert (Hsame :
        Translator.scores ret = Translator.scores ret' /\
        Translator.predictions ret = Translator.predictions ret' /\
        Translator.attention ret = Translator.attention ret' /\
        Translator.context_attention ret = Translator.context_attention ret').
      { destruct (length c =? 0); inversion Hret; subst ret;
          repeat split; reflexivity. }
      destruct Hsame as (-> & -> & -> & ->).
      rewrite Hs, Hp, Ha, Hx; repeat split; assumption.
  - apply from_beam_loop_raises in Hloop; subst e0.
    split; [|discriminate].
    intros e He; right; congruence.
Qed.

(** X20.  Whether [_from_beam] returns the key ["copy"] depends on the
    last beam alone: the key is removed when the last beam gave no copy
    entry, whatever the beams before it gave; when it is kept, it holds
    the non-empty copy lists only, one for each beam that gave copy
    entries, so that it can be shorter than the predictions. *)
Theorem from_beam_copy_follows_last_beam (n_best : nat) (beam : list Beam)
        (ret : Translator.from_beam_ret Hyp Attn Copy ContextAttn Scores) :
  _from_beam n_best beam = inl ret ->
  exists b0 rest,
    beam = b0 :: rest /\
    match Translator.ret_copy ret with
    | None => copies n_best (last beam b0) = 0
    | Some cs =>
        copies n_best (last beam b0) <> 0 /\
        Forall (fun c => c <> []) cs /\
        length cs
        = length (filter (fun b => negb (copies n_best b =? 0)) beam) /\
        length cs <= length (Translator.predictions ret)
    end.
Proof.
  intros Hret; unfold Translator._from_beam in Hret.
  destruct (from_beam_loop n_best beam
              (Translator.mkRet [] [] [] (Some []) []) None)
    as [[ret' cv']|e0] eqn:Hloop; [|discriminate].
  destruct (from_beam_loop_ok _ _ _ _ Hloop)
    as ((ps & atts & ctxs & Hp & _ & _ & Fp & _) & _ & Hcopy & Hlast).
  cbn [Translator.predictions Translator.ret_copy app] in Hp, Hcopy.
  destruct (Hcopy [] eq_refl) as (cs & Hcs & Fcs & Hlen); cbn [app] in Hcs.
  destruct beam as [|b0 rest]; [subst cv'; discriminate|].
  destruct Hlast as (c & -> & Hc).
  exists b0, rest; split; [reflexivity|].
  destruct (Nat.eqb_spec (length c) 0) as [Hz|Hnz];
    inversion Hret; subst ret; clear Hret.
  - cbn [Translator.ret_copy]; congruence.
  - rewrite Hcs; split; [congruence|]. split; [exact Fcs|].
    split; [exact Hlen|].
    rewrite Hlen, Hp, <- (Forall2_length Fp).
    apply filter_length_le.
Qed.

End FromBeamFacts.

Lemma from_beam_has_one_entry_per_beam_witness :
  exists ret,
    Translator._from_beam Toy.sort_finished Toy.has_copy_p Toy.get_hyp
      1 Toy.hyp_beams = inl ret /\
    Translator.scores ret = [2; 1] /\
    Forall2 (fun b hs => length hs
                         = length (firstn 1 (snd (Toy.sort_finished 1 b))))
            Toy.hyp_beams (Translator.predictions ret).
Proof.
  eexists; split; [reflexivity|].
  destruct (proj2 (proj2
              (@from_beam_has_one_entry_per_beam Toy.finished_beam
                 nat nat nat nat nat Toy.sort_finished Toy.has_copy_p
                 Toy.get_hyp 1 Toy.hyp_beams)) _ eq_refl)
    as (Hs & Hp & _).
  split; [exact Hs|exact Hp].
Defined.

Lemma from_beam_copy_follows_last_beam_witness :
  exists ret,
    Translator._from_beam Toy.sort_finished Toy.has_copy_p Toy.get_hyp
      1 Toy.hyp_beams = inl ret /\
    Translator.ret_copy ret = None /\
    exists b0 rest,
      Toy.hyp_beams = b0 :: rest /\
      (if Toy.has_copy_p (last Toy.hyp_beams b0)
       then length (firstn 1 (snd (Toy.sort_finished 1
                                     (last Toy.hyp_beams b0))))
       else 0) = 0.
Proof.
  eexists; split; [reflexivity|]. split; [reflexivity|].
  exact (@from_beam_copy_follows_last_beam Toy.finished_beam
           nat nat nat nat nat Toy.sort_finished Toy.has_copy_p
           Toy.get_hyp 1 Toy.hyp_beams _ eq_refl).
Defined.
